(** * specmem embedding service: a shallow embedding of the scheduler,
      the disk cache, the dimension adapter and the request handler.

    Sources embedded here:
    - [embedding-sandbox/qqms_v2.py]  (FIFO + ACK queue, overflow queue,
      drain loop, priority aging, lease scan, token bucket, CPUMonitor)
    - [embedding-sandbox/frankenstein-embeddings.py]
      (DiskBackedEmbeddingCache, DimensionExpander, AdaptivePCA,
       FrankensteinEmbeddings, EmbeddingServer.handle_request,
       QQMSThrottler, AdaptiveBatchSizer, the model loader, the KYS
       watchdog, the names derived from the project path,
       EmbeddingServer._safe_sendall)

    Conventions.  Wall-clock instants and CPU percentages are Python floats
    in the source; they are rationals ([Q]) here and every call of
    [time.time()] is an explicit argument [now].  Python [int] is [Z].
    Python dictionaries keep insertion order, so they are association lists
    with the dictionary operations of module [PyDict]. *)

From Stdlib Require Import ZArith QArith Qminmax Qround List Sorted Permutation Ascii String Bool Lia Reals Lra.
From Stdlib Require Lqa.
From stdpp Require Import base list strings.
Import ListNotations.
Open Scope Z_scope.

(** ** Python [dict] / [OrderedDict] as an insertion-ordered association list *)

Module PyDict.
Section Dict.
Context {K V : Type} (eqb : K -> K -> bool).

Definition dict := list (K * V).

(** [d.get(k)] *)
Fixpoint get (k : K) (d : dict) : option V :=
  match d with
  | [] => None
  | (k', v) :: rest => if eqb k k' then Some v else get k rest
  end.

(** [k in d] *)
Definition contains (k : K) (d : dict) : bool :=
  match get k d with Some _ => true | None => false end.

(** [d[k] = v]: an existing key keeps its position, a new key goes last. *)
Fixpoint set (k : K) (v : V) (d : dict) : dict :=
  match d with
  | [] => [(k, v)]
  | (k', v') :: rest =>
      if eqb k k' then (k', v) :: rest else (k', v') :: set k v rest
  end.

(** [del d[k]] (on a present key) *)
Fixpoint del (k : K) (d : dict) : dict :=
  match d with
  | [] => []
  | (k', v') :: rest => if eqb k k' then rest else (k', v') :: del k rest
  end.

(** [d.pop(k, None)] *)
Definition pop (k : K) (d : dict) : option V * dict := (get k d, del k d).

(** [d.move_to_end(k)] of an [OrderedDict], on a present key *)
Definition move_to_end (k : K) (d : dict) : dict :=
  match get k d with
  | Some v => del k d ++ [(k, v)]
  | None => d
  end.

(** [d.popitem(last=False)] of a non-empty [OrderedDict] *)
Definition popitem_first (d : dict) : dict := tl d.

Definition keys (d : dict) : list K := map fst d.
Definition values (d : dict) : list V := map snd d.

Hypothesis eqb_spec : forall a b, eqb a b = true <-> a = b.

Lemma eqb_refl a : eqb a a = true.
Proof using eqb_spec. now apply eqb_spec. Qed.

Lemma get_set_same k v d : get k (set k v d) = Some v.
Proof using eqb_spec.
  induction d as [|[k' v'] d IH]; simpl.
  - now rewrite eqb_refl.
  - destruct (eqb k k') eqn:E; simpl; rewrite E; auto.
Qed.

Lemma get_set_other k k' v d :
  k <> k' -> get k' (set k v d) = get k' d.
Proof using eqb_spec.
  intros Hne. induction d as [|[k2 v2] d IH]; simpl.
  - destruct (eqb k' k) eqn:E; auto. apply eqb_spec in E. congruence.
  - destruct (eqb k k2) eqn:E; simpl.
    + apply eqb_spec in E. subst k2.
      destruct (eqb k' k) eqn:E2; auto.
      apply eqb_spec in E2. congruence.
    + now rewrite IH.
Qed.

Lemma get_app_last k v d : get k (d ++ [(k, v)]) <> None.
Proof using eqb_spec.
  induction d as [|[k' v'] d IH]; simpl.
  - now rewrite eqb_refl.
  - destruct (eqb k k'); [discriminate | exact IH].
Qed.


(** A property of every binding survives the dictionary operations. *)
Lemma get_binding k v d (P : K * V -> Prop) :
  Forall P d -> get k d = Some v -> P (k, v).
Proof using eqb_spec.
  induction 1 as [|[k' v'] d HP _ IH]; simpl; [discriminate|].
  destruct (eqb k k') eqn:E.
  - apply eqb_spec in E. subst k'. intros [= <-]. exact HP.
  - exact IH.
Qed.

Lemma Forall_set k v d (P : K * V -> Prop) :
  Forall P d -> P (k, v) -> Forall P (set k v d).
Proof using eqb_spec.
  intros Hd Hkv. induction Hd as [|[k' v'] d HP Hd IH]; simpl.
  - constructor; [exact Hkv|constructor].
  - destruct (eqb k k') eqn:E.
    + apply eqb_spec in E. subst k'. constructor; assumption.
    + constructor; assumption.
Qed.

Lemma Forall_del k d (P : K * V -> Prop) :
  Forall P d -> Forall P (del k d).
Proof.
  induction 1 as [|[k' v'] d HP Hd IH]; simpl; [constructor|].
  destruct (eqb k k'); [exact Hd|constructor; assumption].
Qed.

Lemma Forall_move_to_end k d (P : K * V -> Prop) :
  Forall P d -> Forall P (move_to_end k d).
Proof using eqb_spec.
  intros Hd. unfold move_to_end.
  destruct (get k d) as [v|] eqn:Hget; [|exact Hd].
  apply Forall_app. split; [now apply Forall_del|].
  constructor; [|constructor]. eapply get_binding; eauto.
Qed.

Lemma Forall_popitem_first d (P : K * V -> Prop) :
  Forall P d -> Forall P (popitem_first d).
Proof. destruct 1; simpl; [constructor|assumption]. Qed.
End Dict.
End PyDict.

Lemma string_eqb_spec (a b : string) : String.eqb a b = true <-> a = b.
Proof. apply String.eqb_eq. Qed.

(** [x > y] on floats *)
Definition Qgt_bool (x y : Q) : bool := negb (Qle_bool x y).

Lemma Qgt_bool_iff x y : Qgt_bool x y = true <-> (y < x)%Q.
Proof.
  unfold Qgt_bool. rewrite negb_true_iff. split; intros H.
  - apply Qnot_le_lt. intros Hle. apply Qle_bool_iff in Hle. congruence.
  - destruct (Qle_bool x y) eqn:E; auto.
    apply Qle_bool_iff in E. exfalso. eapply Qlt_not_le; eauto.
Qed.

(** Truth value of an [Optional[float]]: [None] and [0.0] are false. *)
Definition truthy_time (t : option Q) : bool :=
  match t with
  | None => false
  | Some x => negb (Qeq_bool x 0)
  end.

(** ** qqms_v2.py: the FIFO + ACK queue *)

Module Qqms.

(** [class Priority(IntEnum)] *)
Inductive Priority := CRITICAL | HIGH | MEDIUM | LOW | TRIVIAL.

Definition priority_value (p : Priority) : Z :=
  match p with
  | CRITICAL => 0 | HIGH => 1 | MEDIUM => 2 | LOW => 3 | TRIVIAL => 4
  end.

Definition all_priorities : list Priority := [CRITICAL; HIGH; MEDIUM; LOW; TRIVIAL].

(** The values the [status] string takes in the source. *)
Inductive Status := pending | processing | completed | failed | dlq.

Definition status_eqb (a b : Status) : bool :=
  match a, b with
  | pending, pending | processing, processing | completed, completed
  | failed, failed | dlq, dlq => true
  | _, _ => false
  end.

(** [class QQMSv2Config], the fields the queue operations read. *)
Record QQMSv2Config := {
  cpu_queue_threshold : Q;
  cpu_reject_threshold : Q;
  max_retries : Z;
  base_retry_delay_ms : Q;
  max_retry_delay_ms : Q;
  lease_timeout_ms : Q;
  age_promotion_ms : Q;
  max_queue_size : Z;
  queue_high_water_mark : Z;
  dlq_max_size : Z;
  dlq_retention_ms : Q;
  enable_overflow : bool
}.

(** The dataclass defaults. *)
Definition default_config : QQMSv2Config := {|
  cpu_queue_threshold := 70;
  cpu_reject_threshold := 90;
  max_retries := 3;
  base_retry_delay_ms := 1000;
  max_retry_delay_ms := 30000;
  lease_timeout_ms := 60000;
  age_promotion_ms := 30000;
  max_queue_size := 1000;
  queue_high_water_mark := 100;
  dlq_max_size := 500;
  dlq_retention_ms := 3600000;
  enable_overflow := true
|}.

(** [class QueueItem].  [data] is the request payload; [callback] is a
    handle of the completion callback, when one was given. *)
Record QueueItem := {
  id : string;
  priority : Priority;
  original_priority : Priority;
  data : string;
  callback : option nat;
  enqueued_at : Q;
  started_at : option Q;
  status : Status;
  retry_count : Z;
  last_error : option string;
  next_retry_at : option Q;
  lease_expires_at : option Q
}.

(** [class DLQItem] *)
Record DLQItem := {
  dlq_id : string;
  dlq_priority : Priority;
  dlq_data : string;
  dlq_enqueued_at : Q;
  failed_at : Q;
  dlq_retry_count : Z;
  dlq_last_error : string
}.

(** A row of table [qqms_overflow_queue]. *)
Record OverflowRow := {
  row_id : string;
  row_project_id : string;
  row_priority : Z;
  row_original_priority : Z;
  row_data : string;
  row_enqueued_at : Q;
  row_status : Status;
  row_retry_count : Z;
  row_last_error : option string;
  row_next_retry_at : option Q
}.

(** [class OverflowQueue]: the client's project id, the table it talks to,
    and whether the database answers ([db_up = false]: every statement
    raises, which each method catches and reports as [False]). *)
Record OverflowQueue := {
  project_id : string;
  table : list OverflowRow;
  db_up : bool
}.

Definition with_table (ov : OverflowQueue) (t : list OverflowRow) : OverflowQueue :=
  {| project_id := project_id ov; table := t; db_up := db_up ov |}.

Definition has_row (i : string) (t : list OverflowRow) : bool :=
  existsb (fun r => String.eqb (row_id r) i) t.

(** [OverflowQueue.enqueue]: INSERT; [id] is the primary key. *)
Definition overflow_enqueue (ov : OverflowQueue) (item : QueueItem) (now : Q)
  : bool * OverflowQueue :=
  if db_up ov && negb (has_row (id item) (table ov)) then
    (true, with_table ov (table ov ++ [
       {| row_id := id item;
          row_project_id := project_id ov;
          row_priority := priority_value (priority item);
          row_original_priority := priority_value (original_priority item);
          row_data := data item;
          row_enqueued_at := now;
          row_status := pending;
          row_retry_count := retry_count item;
          row_last_error := None;
          row_next_retry_at := None |}]))
  else (false, ov).

Definition row_matches (ov : OverflowQueue) (i : string) (r : OverflowRow) : bool :=
  String.eqb (row_id r) i && String.eqb (row_project_id r) (project_id ov).

(** [OverflowQueue.ack]: DELETE ... WHERE id = %s AND project_id = %s *)
Definition overflow_ack (ov : OverflowQueue) (i : string) : bool * OverflowQueue :=
  if db_up ov then
    (true, with_table ov (List.filter (fun r => negb (row_matches ov i r)) (table ov)))
  else (false, ov).

Definition nack_row (error : string) (retry_delay_ms now : Q) (r : OverflowRow) : OverflowRow :=
  {| row_id := row_id r;
     row_project_id := row_project_id r;
     row_priority := row_priority r;
     row_original_priority := row_original_priority r;
     row_data := row_data r;
     row_enqueued_at := row_enqueued_at r;
     row_status := pending;
     row_retry_count := row_retry_count r + 1;
     row_last_error := Some error;
     row_next_retry_at := Some (now + retry_delay_ms / 1000)%Q |}.

(** [OverflowQueue.nack]:
    UPDATE ... SET status = 'pending', retry_count = retry_count + 1,
    last_error = %s, next_retry_at = NOW() + INTERVAL '%s milliseconds'
    WHERE id = %s AND project_id = %s *)
Definition overflow_nack (ov : OverflowQueue) (i error : string)
    (retry_delay_ms now : Q) : bool * OverflowQueue :=
  if db_up ov then
    (true, with_table ov
       (map (fun r => if row_matches ov i r then nack_row error retry_delay_ms now r else r)
            (table ov)))
  else (false, ov).

Definition fail_row (r : OverflowRow) : OverflowRow :=
  {| row_id := row_id r;
     row_project_id := row_project_id r;
     row_priority := row_priority r;
     row_original_priority := row_original_priority r;
     row_data := row_data r;
     row_enqueued_at := row_enqueued_at r;
     row_status := failed;
     row_retry_count := row_retry_count r;
     row_last_error := row_last_error r;
     row_next_retry_at := row_next_retry_at r |}.

(** [OverflowQueue.move_to_dlq]: UPDATE ... SET status = 'failed' *)
Definition overflow_move_to_dlq (ov : OverflowQueue) (i : string) : bool * OverflowQueue :=
  if db_up ov then
    (true, with_table ov
       (map (fun r => if row_matches ov i r then fail_row r else r) (table ov)))
  else (false, ov).

(** The five deques of [priority_queues].  A deque holds references to
    [QueueItem] objects; a reference is an index of the object store [heap]
    below, so that the deque and the [processing] dictionary share one
    object, as in the source. *)
Record Queues := {
  q_critical : list nat;
  q_high : list nat;
  q_medium : list nat;
  q_low : list nat;
  q_trivial : list nat
}.

Definition empty_queues : Queues :=
  {| q_critical := []; q_high := []; q_medium := []; q_low := []; q_trivial := [] |}.

Definition queue_of (qs : Queues) (p : Priority) : list nat :=
  match p with
  | CRITICAL => q_critical qs | HIGH => q_high qs | MEDIUM => q_medium qs
  | LOW => q_low qs | TRIVIAL => q_trivial qs
  end.

Definition set_queue (qs : Queues) (p : Priority) (l : list nat) : Queues :=
  match p with
  | CRITICAL => {| q_critical := l; q_high := q_high qs; q_medium := q_medium qs;
                   q_low := q_low qs; q_trivial := q_trivial qs |}
  | HIGH => {| q_critical := q_critical qs; q_high := l; q_medium := q_medium qs;
               q_low := q_low qs; q_trivial := q_trivial qs |}
  | MEDIUM => {| q_critical := q_critical qs; q_high := q_high qs; q_medium := l;
                 q_low := q_low qs; q_trivial := q_trivial qs |}
  | LOW => {| q_critical := q_critical qs; q_high := q_high qs; q_medium := q_medium qs;
              q_low := l; q_trivial := q_trivial qs |}
  | TRIVIAL => {| q_critical := q_critical qs; q_high := q_high qs; q_medium := q_medium qs;
                  q_low := q_low qs; q_trivial := l |}
  end.

(** [sum(len(q) for q in self.priority_queues.values())] *)
Definition total_queued (qs : Queues) : Z :=
  Z.of_nat (length (q_critical qs)) + Z.of_nat (length (q_high qs))
  + Z.of_nat (length (q_medium qs)) + Z.of_nat (length (q_low qs))
  + Z.of_nat (length (q_trivial qs)).

(** What a callback was called with: [None] or an exception. *)
Inductive CallbackArg :=
| CallbackSuccess
| CallbackFailure (retries : Z) (error : string).

(** [class QQMSv2]: the fields the queue operations touch.
    [processing_map] is [self.processing] and [dead_letters] is [self.dlq]
    (the plain names are taken by the status values).  [heap] is the store
    of [QueueItem] objects; [callback_log] records the callbacks invoked so
    far. *)
Record QQMSv2 := {
  config : QQMSv2Config;
  priority_queues : Queues;
  heap : list QueueItem;
  processing_map : list (string * nat);
  dead_letters : list DLQItem;
  overflow : option OverflowQueue;
  total_processed : Z;
  total_retries : Z;
  total_wait_time_ms : Q;
  callback_log : list (nat * CallbackArg)
}.

(** [QQMSv2.__init__] *)
Definition new_qqms (cfg : QQMSv2Config) (ov : option OverflowQueue) : QQMSv2 :=
  {| config := cfg;
     priority_queues := empty_queues;
     heap := [];
     processing_map := [];
     dead_letters := [];
     overflow := if enable_overflow cfg then ov else None;
     total_processed := 0;
     total_retries := 0;
     total_wait_time_ms := 0;
     callback_log := [] |}.

Definition with_overflow (q : QQMSv2) (ov : OverflowQueue) : QQMSv2 :=
  {| config := config q; priority_queues := priority_queues q; heap := heap q;
     processing_map := processing_map q; dead_letters := dead_letters q;
     overflow := Some ov;
     total_processed := total_processed q; total_retries := total_retries q;
     total_wait_time_ms := total_wait_time_ms q; callback_log := callback_log q |}.

Definition with_processing (q : QQMSv2) (pm : list (string * nat)) : QQMSv2 :=
  {| config := config q; priority_queues := priority_queues q; heap := heap q;
     processing_map := pm; dead_letters := dead_letters q;
     overflow := overflow q;
     total_processed := total_processed q; total_retries := total_retries q;
     total_wait_time_ms := total_wait_time_ms q; callback_log := callback_log q |}.

(** [_get_retry_delay] *)
Definition _get_retry_delay (cfg : QQMSv2Config) (retry_count : Z) : Q :=
  Qmin (base_retry_delay_ms cfg * Qpower 2 retry_count)%Q (max_retry_delay_ms cfg).

(** Why [enqueue] raised [RuntimeError]. *)
Inductive EnqueueError :=
| SystemOverloaded (cpu : Q)
| QueueFull (total : Z).

Definition send_to_overflow (q : QQMSv2) (ov : OverflowQueue) (item : QueueItem) (now : Q)
  : QQMSv2 :=
  with_overflow q (snd (overflow_enqueue ov item now)).

(** [QQMSv2.enqueue].  [item_id] is the freshly generated identifier,
    [cpu] what [cpu_monitor.get_cpu_usage()] answers. *)
Definition enqueue (q : QQMSv2) (item_id : string) (now cpu : Q)
    (data : string) (priority : Priority) (callback : option nat)
  : (EnqueueError + string) * QQMSv2 :=
  let item := {| id := item_id; priority := priority; original_priority := priority;
                 data := data; callback := callback; enqueued_at := now;
                 started_at := None; status := pending; retry_count := 0;
                 last_error := None; next_retry_at := None;
                 lease_expires_at := None |} in
  if Qgt_bool cpu (cpu_reject_threshold (config q)) then
    match overflow q with
    | Some ov => (inr item_id, send_to_overflow q ov item now)
    | None => (inl (SystemOverloaded cpu), q)
    end
  else
    match (if Qgt_bool cpu (cpu_queue_threshold (config q)) then overflow q else None) with
    | Some ov => (inr item_id, send_to_overflow q ov item now)
    | None =>
        let total := total_queued (priority_queues q) in
        if total >=? max_queue_size (config q) then
          match overflow q with
          | Some ov => (inr item_id, send_to_overflow q ov item now)
          | None => (inl (QueueFull total), q)
          end
        else
          let a := length (heap q) in
          (inr item_id,
           {| config := config q;
              priority_queues :=
                set_queue (priority_queues q) priority
                          (queue_of (priority_queues q) priority ++ [a]);
              heap := heap q ++ [item];
              processing_map := processing_map q;
              dead_letters := dead_letters q;
              overflow := overflow q;
              total_processed := total_processed q;
              total_retries := total_retries q;
              total_wait_time_ms := total_wait_time_ms q;
              callback_log := callback_log q |})
    end.

(** [queue.remove(item)], guarded by [item in queue] *)
Fixpoint remove_ref (a : nat) (l : list nat) : list nat :=
  match l with
  | [] => []
  | b :: rest => if Nat.eqb a b then rest else b :: remove_ref a rest
  end.

(** The scan of one deque in [dequeue]: the first pending item whose
    [next_retry_at] is unset or not in the future. *)
Fixpoint find_ready (h : list QueueItem) (now : Q) (queue : list nat) : option nat :=
  match queue with
  | [] => None
  | a :: rest =>
      match h !! a with
      | Some it =>
          if status_eqb (status it) pending then
            if truthy_time (next_retry_at it)
               && match next_retry_at it with
                  | Some t => Qgt_bool t now
                  | None => false
                  end
            then find_ready h now rest
            else Some a
          else find_ready h now rest
      | None => find_ready h now rest
      end
  end.

(** [for priority in Priority: ...] of [dequeue] *)
Fixpoint find_ready_in (h : list QueueItem) (now : Q) (qs : Queues)
    (ps : list Priority) : option nat :=
  match ps with
  | [] => None
  | p :: rest =>
      match find_ready h now (queue_of qs p) with
      | Some a => Some a
      | None => find_ready_in h now qs rest
      end
  end.

Definition mark_processing (cfg : QQMSv2Config) (now : Q) (it : QueueItem) : QueueItem :=
  {| id := id it; priority := priority it; original_priority := original_priority it;
     data := data it; callback := callback it; enqueued_at := enqueued_at it;
     started_at := Some now;
     status := processing;
     retry_count := retry_count it;
     last_error := last_error it;
     next_retry_at := next_retry_at it;
     lease_expires_at := Some (now + lease_timeout_ms cfg / 1000)%Q |}.

(** [QQMSv2.dequeue(wait=False)]: one scan under the queue lock.  With
    [wait=True] the source repeats this scan every 10 ms until it finds an
    item or the timeout passes. *)
Definition dequeue (q : QQMSv2) (now : Q) : option QueueItem * QQMSv2 :=
  match find_ready_in (heap q) now (priority_queues q) all_priorities with
  | None => (None, q)
  | Some a =>
      match heap q !! a with
      | None => (None, q)
      | Some it =>
          let it' := mark_processing (config q) now it in
          (Some it',
           {| config := config q;
              priority_queues := priority_queues q;
              heap := <[a := it']> (heap q);
              processing_map := PyDict.set String.eqb (id it') a (processing_map q);
              dead_letters := dead_letters q;
              overflow := overflow q;
              total_processed := total_processed q;
              total_retries := total_retries q;
              total_wait_time_ms := total_wait_time_ms q;
              callback_log := callback_log q |})
      end
  end.

Definition log_callback (it : QueueItem) (arg : CallbackArg)
    (log : list (nat * CallbackArg)) : list (nat * CallbackArg) :=
  match callback it with
  | Some cb => log ++ [(cb, arg)]
  | None => log
  end.

Definition mark_completed (it : QueueItem) : QueueItem :=
  {| id := id it; priority := priority it; original_priority := original_priority it;
     data := data it; callback := callback it; enqueued_at := enqueued_at it;
     started_at := started_at it;
     status := completed;
     retry_count := retry_count it;
     last_error := last_error it;
     next_retry_at := next_retry_at it;
     lease_expires_at := lease_expires_at it |}.

(** [QQMSv2.ack] *)
Definition ack (q : QQMSv2) (item_id : string) (now : Q) : bool * QQMSv2 :=
  match PyDict.pop String.eqb item_id (processing_map q) with
  | (None, pm) =>
      match overflow q with
      | Some ov =>
          let '(ok, ov') := overflow_ack ov item_id in
          (ok, with_overflow (with_processing q pm) ov')
      | None => (false, with_processing q pm)
      end
  | (Some a, pm) =>
      match heap q !! a with
      | None => (false, with_processing q pm)
      | Some it =>
          (true,
           {| config := config q;
              priority_queues :=
                set_queue (priority_queues q) (priority it)
                          (remove_ref a (queue_of (priority_queues q) (priority it)));
              heap := <[a := mark_completed it]> (heap q);
              processing_map := pm;
              dead_letters := dead_letters q;
              overflow := overflow q;
              total_processed := total_processed q + 1;
              total_retries := total_retries q;
              total_wait_time_ms :=
                (total_wait_time_ms q + (now - enqueued_at it) * 1000)%Q;
              callback_log := log_callback it CallbackSuccess (callback_log q) |})
      end
  end.

(** What [nack] returns: ['retry'], ['dlq'] or ['not_found']. *)
Inductive NackResult := Retry | ToDLQ | NotFound.

(** [while len(self.dlq) > dlq_max_size: self.dlq.pop(0)] *)
Definition trim_dlq (max_size : Z) (l : list DLQItem) : list DLQItem :=
  skipn (Z.to_nat (Z.of_nat (length l) - max_size)) l.

(** The first three assignments of [_nack_item]. *)
Definition count_failure (error : string) (it : QueueItem) : QueueItem :=
  {| id := id it; priority := priority it; original_priority := original_priority it;
     data := data it; callback := callback it; enqueued_at := enqueued_at it;
     started_at := started_at it;
     status := status it;
     retry_count := retry_count it + 1;
     last_error := Some error;
     next_retry_at := next_retry_at it;
     lease_expires_at := lease_expires_at it |}.

Definition mark_dlq (it : QueueItem) : QueueItem :=
  {| id := id it; priority := priority it; original_priority := original_priority it;
     data := data it; callback := callback it; enqueued_at := enqueued_at it;
     started_at := started_at it;
     status := dlq;
     retry_count := retry_count it;
     last_error := last_error it;
     next_retry_at := next_retry_at it;
     lease_expires_at := lease_expires_at it |}.

Definition schedule_retry (cfg : QQMSv2Config) (now : Q) (it : QueueItem) : QueueItem :=
  {| id := id it; priority := priority it; original_priority := original_priority it;
     data := data it; callback := callback it; enqueued_at := enqueued_at it;
     started_at := None;
     status := pending;
     retry_count := retry_count it;
     last_error := last_error it;
     next_retry_at := Some (now + _get_retry_delay cfg (retry_count it) / 1000)%Q;
     lease_expires_at := None |}.

Definition make_dlq_item (it : QueueItem) (error : string) (now : Q) : DLQItem :=
  {| dlq_id := id it;
     dlq_priority := original_priority it;
     dlq_data := data it;
     dlq_enqueued_at := enqueued_at it;
     failed_at := now;
     dlq_retry_count := retry_count it;
     dlq_last_error := error |}.

(** [QQMSv2._nack_item], on the object at reference [a]. *)
Definition _nack_item (q : QQMSv2) (a : nat) (error : string) (now : Q)
  : NackResult * QQMSv2 :=
  match heap q !! a with
  | None => (NotFound, q)
  | Some it0 =>
      let it := count_failure error it0 in
      if retry_count it >=? max_retries (config q) then
        (ToDLQ,
         {| config := config q;
            priority_queues :=
              set_queue (priority_queues q) (priority it)
                        (remove_ref a (queue_of (priority_queues q) (priority it)));
            heap := <[a := mark_dlq it]> (heap q);
            processing_map := processing_map q;
            dead_letters :=
              trim_dlq (dlq_max_size (config q))
                       (dead_letters q ++ [make_dlq_item it error now]);
            overflow := overflow q;
            total_processed := total_processed q;
            total_retries := total_retries q + 1;
            total_wait_time_ms := total_wait_time_ms q;
            callback_log :=
              log_callback it (CallbackFailure (retry_count it) error) (callback_log q) |})
      else
        (Retry,
         {| config := config q;
            priority_queues := priority_queues q;
            heap := <[a := schedule_retry (config q) now it]> (heap q);
            processing_map := processing_map q;
            dead_letters := dead_letters q;
            overflow := overflow q;
            total_processed := total_processed q;
            total_retries := total_retries q + 1;
            total_wait_time_ms := total_wait_time_ms q;
            callback_log := callback_log q |})
  end.

(** [QQMSv2.nack] *)
Definition nack (q : QQMSv2) (item_id error : string) (now : Q) : NackResult * QQMSv2 :=
  match PyDict.pop String.eqb item_id (processing_map q) with
  | (None, pm) =>
      match overflow q with
      | Some ov =>
          (Retry,
           with_overflow (with_processing q pm)
             (snd (overflow_nack ov item_id error (base_retry_delay_ms (config q)) now)))
      | None => (NotFound, with_processing q pm)
      end
  | (Some a, pm) => _nack_item (with_processing q pm) a error now
  end.

(** The first loop of [_check_lease_timeouts]: the ids whose lease is over. *)
Definition lease_expired (h : list QueueItem) (now : Q) (entry : string * nat) : bool :=
  match h !! (snd entry) with
  | Some it =>
      truthy_time (lease_expires_at it)
      && match lease_expires_at it with
         | Some t => Qgt_bool now t
         | None => false
         end
  | None => false
  end.

Definition expire_one (now : Q) (q : QQMSv2) (item_id : string) : QQMSv2 :=
  match PyDict.pop String.eqb item_id (processing_map q) with
  | (Some a, pm) =>
      snd (_nack_item (with_processing q pm) a
             "Lease timeout - operation took too long" now)
  | (None, _) => q
  end.

(** [QQMSv2._check_lease_timeouts] *)
Definition _check_lease_timeouts (q : QQMSv2) (now : Q) : QQMSv2 :=
  let expired := map fst (List.filter (lease_expired (heap q) now) (processing_map q)) in
  fold_left (expire_one now) expired q.

(** *** Admission control *)

(** The item [enqueue] builds. *)
Definition new_item (item_id : string) (now : Q) (data : string)
    (p : Priority) (cb : option nat) : QueueItem :=
  {| id := item_id; priority := p; original_priority := p;
     data := data; callback := cb; enqueued_at := now;
     started_at := None; status := pending; retry_count := 0;
     last_error := None; next_retry_at := None; lease_expires_at := None |}.

(** Routing an item to the overflow queue leaves the memory side alone. *)
Lemma send_to_overflow_memory q ov item now :
  priority_queues (send_to_overflow q ov item now) = priority_queues q
  /\ heap (send_to_overflow q ov item now) = heap q
  /\ processing_map (send_to_overflow q ov item now) = processing_map q
  /\ dead_letters (send_to_overflow q ov item now) = dead_letters q.
Proof. unfold send_to_overflow, with_overflow. simpl. auto. Qed.

(** When the database answers and the id is new, the row is stored as
    [pending] at the end of the table. *)
Lemma send_to_overflow_row q ov item now :
  db_up ov = true ->
  has_row (id item) (table ov) = false ->
  exists r,
    overflow (send_to_overflow q ov item now) = Some (with_table ov (table ov ++ [r]))
    /\ row_id r = id item /\ row_status r = pending
    /\ row_project_id r = project_id ov
    /\ row_retry_count r = retry_count item.
Proof.
  intros Hup Hfresh. unfold send_to_overflow, overflow_enqueue.
  rewrite Hup, Hfresh. simpl. eexists. split; [reflexivity|]. simpl. auto.
Qed.


(** A queue without overflow at the default configuration, and the same
    queue with an (empty, reachable) overflow table. *)
Definition plain_queue : QQMSv2 := new_qqms default_config None.

Definition empty_overflow : OverflowQueue :=
  {| project_id := "0123456789ab"; table := []; db_up := true |}.

Definition spilling_queue : QQMSv2 := new_qqms default_config (Some empty_overflow).



(** *** NACK and retry *)

Lemma trim_dlq_keeps_last max_size l x :
  0 < max_size ->
  exists l', trim_dlq max_size (l ++ [x]) = l' ++ [x].
Proof.
  intros Hmax. unfold trim_dlq.
  rewrite length_app. simpl.
  set (n := Z.to_nat (Z.of_nat (length l + 1) - max_size)).
  assert (Hn : (n <= length l)%nat) by (unfold n; lia).
  exists (skipn n l).
  rewrite skipn_app.
  replace (n - length l)%nat with 0%nat by lia. reflexivity.
Qed.

Lemma pop_get (item_id : string) (pm : list (string * nat)) :
  PyDict.pop String.eqb item_id pm
  = (PyDict.get String.eqb item_id pm, PyDict.del String.eqb item_id pm).
Proof. reflexivity. Qed.





(** *** The retry bound and the overflow queue *)

(** A request that went to the overflow table at 75% CPU. *)
Definition overflowed : QQMSv2 :=
  snd (enqueue spilling_queue "a" 0 75 "x" MEDIUM None).

Definition nack_times (n : nat) (q : QQMSv2) : QQMSv2 :=
  Nat.iter n (fun s => snd (nack s "a" "boom" 5)) q.

(** C5 at the failing input: three NACKs of an overflow item leave its row
    [pending] with [retry_count = max_retries = 3], a fourth one with
    [retry_count = 4]; the row never becomes [failed] and nothing reaches
    the dead-letter list. *)
Theorem overflow_nack_ignores_retry_bound :
  (exists ov r,
      overflow (nack_times 3 overflowed) = Some ov
      /\ table ov = [r]
      /\ row_id r = "a"%string
      /\ row_status r = pending
      /\ row_retry_count r = max_retries (config overflowed))
  /\ (exists ov r,
      overflow (nack_times 4 overflowed) = Some ov
      /\ table ov = [r]
      /\ row_status r = pending
      /\ row_retry_count r = 4
      /\ max_retries (config overflowed) < row_retry_count r
      /\ dead_letters (nack_times 4 overflowed) = []).
Proof.
  split.
  - eexists. eexists. split; [vm_compute; reflexivity|].
    repeat split; reflexivity.
  - eexists. eexists. split; [vm_compute; reflexivity|].
    repeat split; reflexivity.
Qed.

(** *** The retry bound on the memory side *)

(** An item that is not in the DLQ has used fewer than [max_retries] retries. *)
Definition item_bounded (cfg : QQMSv2Config) (it : QueueItem) : Prop :=
  status it = dlq \/ retry_count it < max_retries cfg.

(** An entry of [processing] refers to the in-flight item of that id. *)
Definition in_flight_entry (h : list QueueItem) (entry : string * nat) : Prop :=
  exists it, h !! snd entry = Some it /\ id it = fst entry /\ status it = processing.

(** The state of a queue between two operations. *)
Definition queue_inv (q : QQMSv2) : Prop :=
  0 < max_retries (config q)
  /\ Forall (item_bounded (config q)) (heap q)
  /\ List.NoDup (PyDict.keys (processing_map q))
  /\ Forall (in_flight_entry (heap q)) (processing_map q).


Lemma in_set_binding {V : Type} k (v : V) d k' v' :
  In (k', v') (PyDict.set String.eqb k v d) -> (k', v') = (k, v) \/ In (k', v') d.
Proof.
  induction d as [|[k2 v2] d IH]; simpl.
  - intros [H|[]]. left. now symmetry.
  - destruct (String.eqb k k2) eqn:E; simpl.
    + apply String.eqb_eq in E. subst k2.
      intros [H|H]; [left; now symmetry|right; now right].
    + intros [H|H]; [right; now left|].
      destruct (IH H) as [H'|H']; [now left|right; now right].
Qed.

Lemma keys_set_nodup {V : Type} k (v : V) d :
  List.NoDup (PyDict.keys d) -> List.NoDup (PyDict.keys (PyDict.set String.eqb k v d)).
Proof.
  induction d as [|[k2 v2] d IH]; simpl; intros Hnd.
  - constructor; [intros []|constructor].
  - apply NoDup_cons_iff in Hnd. destruct Hnd as [Hnin Hnd].
    destruct (String.eqb k k2) eqn:E; simpl.
    + constructor; assumption.
    + constructor; [|now apply IH].
      intros Hin. apply in_map_iff in Hin. destruct Hin as ([k3 v3] & Hk & Hin).
      simpl in Hk. subst k3.
      destruct (in_set_binding _ _ _ _ _ Hin) as [[= -> _]|Hin'].
      * rewrite String.eqb_refl in E. discriminate.
      * apply Hnin. apply in_map_iff. now exists (k2, v3).
Qed.

Lemma in_del_binding {V : Type} k d k' (v' : V) :
  List.NoDup (PyDict.keys d) ->
  In (k', v') (PyDict.del String.eqb k d) -> In (k', v') d /\ k' <> k.
Proof.
  induction d as [|[k2 v2] d IH]; simpl; [intros _ []|].
  intros Hnd. apply NoDup_cons_iff in Hnd. destruct Hnd as [Hnin Hnd].
  destruct (String.eqb k k2) eqn:E.
  - apply String.eqb_eq in E. subst k2. intros Hin. split; [now right|].
    intros ->. apply Hnin. apply in_map_iff. now exists (k, v').
  - intros [[= -> ->]|Hin].
    + split; [now left|]. intros ->. rewrite String.eqb_refl in E. discriminate.
    + destruct (IH Hnd Hin) as [H1 H2]. split; [now right|exact H2].
Qed.

Lemma keys_del_nodup {V : Type} k (d : list (string * V)) :
  List.NoDup (PyDict.keys d) -> List.NoDup (PyDict.keys (PyDict.del String.eqb k d)).
Proof.
  induction d as [|[k2 v2] d IH]; simpl; intros Hnd; [constructor|].
  apply NoDup_cons_iff in Hnd. destruct Hnd as [Hnin Hnd].
  destruct (String.eqb k k2); [exact Hnd|]. simpl.
  constructor; [|now apply IH].
  intros Hin. apply in_map_iff in Hin. destruct Hin as ([k3 v3] & Hk & Hin).
  simpl in Hk. subst k3.
  destruct (in_del_binding _ _ _ _ Hnd Hin) as [Hin' _].
  apply Hnin. apply in_map_iff. now exists (k2, v3).
Qed.

Lemma get_in_binding {V : Type} k (d : list (string * V)) v :
  PyDict.get String.eqb k d = Some v -> In (k, v) d.
Proof.
  induction d as [|[k2 v2] d IH]; simpl; [discriminate|].
  destruct (String.eqb k k2) eqn:E.
  - apply String.eqb_eq in E. subst k2. intros [= ->]. now left.
  - intros H. right. now apply IH.
Qed.

(** Once an id is popped from [processing], no entry refers to its item. *)
Lemma popped_is_unshared q item_id a :
  queue_inv q ->
  PyDict.get String.eqb item_id (processing_map q) = Some a ->
  (exists it, heap q !! a = Some it /\ status it = processing)
  /\ forall entry,
       In entry (PyDict.del String.eqb item_id (processing_map q)) ->
       snd entry <> a /\ in_flight_entry (heap q) entry.
Proof.
  intros (_ & _ & Hnd & Hpm) Hget.
  rewrite List.Forall_forall in Hpm.
  destruct (Hpm _ (get_in_binding _ _ _ Hget)) as (it & Hit & Hid & Hst).
  simpl in *. split; [now exists it|].
  intros [k' a'] Hin.
  destruct (in_del_binding _ _ _ _ Hnd Hin) as [Hin' Hne].
  split; [|now apply Hpm].
  simpl. intros ->.
  destruct (Hpm _ Hin') as (it' & Hit' & Hid' & _). simpl in *. congruence.
Qed.

Lemma in_flight_entry_insert h a it entry :
  snd entry <> a -> in_flight_entry h entry -> in_flight_entry (<[a := it]> h) entry.
Proof.
  intros Hne (it' & Hit & Hid & Hst). exists it'.
  rewrite list_lookup_insert_ne by congruence. auto.
Qed.

(** [_nack_item] on an item no entry of [processing] refers to. *)
Lemma nack_item_inv q a error now it :
  0 < max_retries (config q) ->
  Forall (item_bounded (config q)) (heap q) ->
  List.NoDup (PyDict.keys (processing_map q)) ->
  (forall entry, In entry (processing_map q) ->
     snd entry <> a /\ in_flight_entry (heap q) entry) ->
  heap q !! a = Some it ->
  queue_inv (snd (_nack_item q a error now)).
Proof.
  intros Hmax Hheap Hnd Hpm Hit. unfold _nack_item. rewrite Hit.
  cbn [retry_count count_failure].
  destruct (retry_count it + 1 >=? max_retries (config q)) eqn:Hrc;
    cbn [snd]; (split; [exact Hmax|split; [|split; [exact Hnd|]]]); cbn.
  - apply Forall_insert; [exact Hheap|]. now left.
  - apply List.Forall_forall. intros entry Hin.
    destruct (Hpm entry Hin). now apply in_flight_entry_insert.
  - apply Forall_insert; [exact Hheap|]. right. cbn.
    rewrite Z.geb_leb in Hrc. apply Z.leb_gt in Hrc. lia.
  - apply List.Forall_forall. intros entry Hin.
    destruct (Hpm entry Hin). now apply in_flight_entry_insert.
Qed.

Lemma send_to_overflow_inv q ov item now :
  queue_inv q -> queue_inv (send_to_overflow q ov item now).
Proof. intros H. exact H. Qed.

(** [enqueue] keeps the invariant. *)
Lemma enqueue_inv q item_id now cpu data p cb :
  queue_inv q -> queue_inv (snd (enqueue q item_id now cpu data p cb)).
Proof.
  intros Hinv. unfold enqueue.
  destruct (Qgt_bool cpu (cpu_reject_threshold (config q))).
  { destruct (overflow q); [now apply send_to_overflow_inv|exact Hinv]. }
  destruct (if Qgt_bool cpu (cpu_queue_threshold (config q)) then overflow q else None);
    [now apply send_to_overflow_inv|].
  destruct (_ >=? _).
  { destruct (overflow q); [now apply send_to_overflow_inv|exact Hinv]. }
  destruct Hinv as (Hmax & Hheap & Hnd & Hpm).
  cbn [snd]. split; [exact Hmax|split; [|split; [exact Hnd|]]]; cbn.
  - apply Forall_app. split; [exact Hheap|].
    constructor; [|constructor]. right. exact Hmax.
  - eapply Forall_impl; [exact Hpm|].
    intros entry (it & Hit & Hid & Hst). exists it.
    split; [now apply lookup_app_l_Some|auto].
Qed.

Lemma find_ready_pending h now queue a :
  find_ready h now queue = Some a ->
  exists it, h !! a = Some it /\ status it = pending.
Proof.
  induction queue as [|b queue IH]; simpl; [discriminate|].
  destruct (h !! b) as [it|] eqn:Hb; [|exact IH].
  destruct (status it) eqn:Hst; simpl; try exact IH.
  destruct (truthy_time (next_retry_at it) && _); [exact IH|].
  intros [= <-]. now exists it.
Qed.

Lemma find_ready_in_pending h now qs ps a :
  find_ready_in h now qs ps = Some a ->
  exists it, h !! a = Some it /\ status it = pending.
Proof.
  induction ps as [|p ps IH]; simpl; [discriminate|].
  destruct (find_ready h now (queue_of qs p)) as [b|] eqn:Hb; [|exact IH].
  intros [= <-]. eapply find_ready_pending; eauto.
Qed.

(** [dequeue] keeps the invariant. *)
Lemma dequeue_inv q now : queue_inv q -> queue_inv (snd (dequeue q now)).
Proof.
  intros Hinv. unfold dequeue.
  destruct (find_ready_in (heap q) now (priority_queues q) all_priorities) as [a|] eqn:Hf;
    [|exact Hinv].
  destruct (find_ready_in_pending _ _ _ _ _ Hf) as (it & Hit & Hst).
  rewrite Hit. cbn [snd].
  destruct Hinv as (Hmax & Hheap & Hnd & Hpm).
  assert (Hlt : (a < length (heap q))%nat) by (eapply lookup_lt_Some; eauto).
  assert (Hb : item_bounded (config q) it).
  { rewrite List.Forall_forall in Hheap. apply Hheap.
    apply list_elem_of_In, list_elem_of_lookup. eauto. }
  split; [exact Hmax|split; [|split]]; cbn.
  - apply Forall_insert; [exact Hheap|].
    destruct Hb as [Hd|Hb]; [congruence|now right].
  - now apply keys_set_nodup.
  - apply List.Forall_forall. intros [k' a'] Hin.
    destruct (in_set_binding _ _ _ _ _ Hin) as [[= -> ->]|Hin'].
    + eexists. split; [now apply list_lookup_insert_eq|]. split; reflexivity.
    + rewrite List.Forall_forall in Hpm.
      pose proof (Hpm _ Hin') as Hentry.
      apply in_flight_entry_insert; [|exact Hentry].
      destruct Hentry as (it' & Hit' & _ & Hst'). simpl in *.
      intros ->. congruence.
Qed.

(** [ack] keeps the invariant. *)
Lemma ack_inv q item_id now : queue_inv q -> queue_inv (snd (ack q item_id now)).
Proof.
  intros Hinv. unfold ack. rewrite pop_get.
  destruct (PyDict.get String.eqb item_id (processing_map q)) as [a|] eqn:Hget.
  - destruct (popped_is_unshared q item_id a Hinv Hget) as ((it & Hit & Hst) & Hrest).
    rewrite Hit. cbn [snd].
    destruct Hinv as (Hmax & Hheap & Hnd & Hpm).
    assert (Hb : item_bounded (config q) it).
    { rewrite List.Forall_forall in Hheap. apply Hheap.
      apply list_elem_of_In, list_elem_of_lookup. eauto. }
    split; [exact Hmax|split; [|split]]; cbn.
    + apply Forall_insert; [exact Hheap|].
      destruct Hb as [Hd|Hb]; [congruence|now right].
    + now apply keys_del_nodup.
    + apply List.Forall_forall. intros entry Hin.
      destruct (Hrest entry Hin). now apply in_flight_entry_insert.
  - destruct Hinv as (Hmax & Hheap & Hnd & Hpm).
    assert (Hdel : queue_inv (with_processing q
                                (PyDict.del String.eqb item_id (processing_map q)))).
    { split; [exact Hmax|split; [exact Hheap|split]]; cbn.
      - now apply keys_del_nodup.
      - now apply PyDict.Forall_del. }
    destruct (overflow q) as [ov|]; [|exact Hdel].
    destruct (overflow_ack ov item_id). exact Hdel.
Qed.

(** [nack] keeps the invariant on the memory side. *)
Lemma nack_inv q item_id error now :
  queue_inv q -> queue_inv (snd (nack q item_id error now)).
Proof.
  intros Hinv. unfold nack. rewrite pop_get.
  destruct (PyDict.get String.eqb item_id (processing_map q)) as [a|] eqn:Hget.
  - destruct (popped_is_unshared q item_id a Hinv Hget) as ((it & Hit & Hst) & Hrest).
    destruct Hinv as (Hmax & Hheap & Hnd & Hpm).
    apply (nack_item_inv _ a error now it); cbn; auto.
    now apply keys_del_nodup.
  - destruct Hinv as (Hmax & Hheap & Hnd & Hpm).
    assert (Hdel : queue_inv (with_processing q
                                (PyDict.del String.eqb item_id (processing_map q)))).
    { split; [exact Hmax|split; [exact Hheap|split]]; cbn.
      - now apply keys_del_nodup.
      - now apply PyDict.Forall_del. }
    destruct (overflow q) as [ov|]; exact Hdel.
Qed.

Lemma expire_one_inv now q item_id : queue_inv q -> queue_inv (expire_one now q item_id).
Proof.
  intros Hinv. unfold expire_one. rewrite pop_get.
  destruct (PyDict.get String.eqb item_id (processing_map q)) as [a|] eqn:Hget;
    [|exact Hinv].
  destruct (popped_is_unshared q item_id a Hinv Hget) as ((it & Hit & Hst) & Hrest).
  destruct Hinv as (Hmax & Hheap & Hnd & Hpm).
  apply (nack_item_inv _ a _ now it); cbn; auto.
  now apply keys_del_nodup.
Qed.

(** [_check_lease_timeouts] keeps the invariant. *)
Lemma check_lease_timeouts_inv q now :
  queue_inv q -> queue_inv (_check_lease_timeouts q now).
Proof.
  unfold _check_lease_timeouts.
  generalize (map fst (List.filter (lease_expired (heap q) now) (processing_map q))).
  intros ids. revert q. induction ids as [|i ids IH]; intros q Hinv; simpl; [exact Hinv|].
  apply IH. now apply expire_one_inv.
Qed.

(** On the memory side the retry bound holds: after [enqueue], [dequeue],
    [ack], [nack] and the lease scan, every item outside the DLQ has
    [retry_count < max_retries].  (The rows of the overflow table are not
    items of the memory side.) *)
Lemma memory_side_keeps_retry_bound q :
  queue_inv q ->
  (forall item_id now cpu data p cb a it,
     heap (snd (enqueue q item_id now cpu data p cb)) !! a = Some it ->
     item_bounded (config q) it)
  /\ (forall now a it,
        heap (snd (dequeue q now)) !! a = Some it -> item_bounded (config q) it)
  /\ (forall item_id now a it,
        heap (snd (ack q item_id now)) !! a = Some it -> item_bounded (config q) it)
  /\ (forall item_id error now a it,
        heap (snd (nack q item_id error now)) !! a = Some it ->
        item_bounded (config q) it)
  /\ (forall now a it,
        heap (_check_lease_timeouts q now) !! a = Some it ->
        item_bounded (config q) it).
Proof.
  intros Hinv.
  assert (Hstep : forall q', queue_inv q' -> config q' = config q ->
                    forall (a : nat) it, heap q' !! a = Some it ->
                                         item_bounded (config q) it).
  { intros q' (_ & Hheap & _) Hcfg a it Hit. rewrite <- Hcfg.
    rewrite List.Forall_forall in Hheap. apply Hheap.
    apply list_elem_of_In, list_elem_of_lookup. eauto. }
  split; [|split; [|split; [|split]]].
  - intros item_id now cpu payload p cb a it Hit.
    eapply (Hstep _ (enqueue_inv q item_id now cpu payload p cb Hinv)); eauto.
    unfold enqueue, send_to_overflow.
    repeat (match goal with |- context [match ?x with _ => _ end] => destruct x end);
      reflexivity.
  - intros now a it Hit.
    eapply (Hstep _ (dequeue_inv q now Hinv)); eauto.
    unfold dequeue.
    repeat (match goal with |- context [match ?x with _ => _ end] => destruct x end);
      reflexivity.
  - intros item_id now a it Hit.
    eapply (Hstep _ (ack_inv q item_id now Hinv)); eauto.
    unfold ack. rewrite pop_get.
    repeat (match goal with |- context [match ?x with _ => _ end] => destruct x end);
      reflexivity.
  - intros item_id error now a it Hit.
    eapply (Hstep _ (nack_inv q item_id error now Hinv)); eauto.
    unfold nack, _nack_item. rewrite pop_get.
    repeat (match goal with |- context [match ?x with _ => _ end] => destruct x end);
      reflexivity.
  - intros now a it Hit.
    eapply (Hstep _ (check_lease_timeouts_inv q now Hinv)); eauto.
    unfold _check_lease_timeouts.
    generalize (map fst (List.filter (lease_expired (heap q) now) (processing_map q))).
    intros ids. clear. revert q.
    induction ids as [|i ids IH]; intros q; simpl; [reflexivity|].
    rewrite IH. unfold expire_one, _nack_item. rewrite pop_get.
    repeat (match goal with |- context [match ?x with _ => _ end] => destruct x end);
      reflexivity.
Qed.

End Qqms.

(** ** frankenstein-embeddings.py: [DiskBackedEmbeddingCache] *)

Module DiskCache.

(** [str.isspace] on one character (the ASCII and Latin-1 white space). *)
Definition is_space (c : ascii) : bool :=
  let n := nat_of_ascii c in
  ((9 <=? n)%nat && (n <=? 13)%nat) || ((28 <=? n)%nat && (n <=? 32)%nat)
  || (n =? 133)%nat || (n =? 160)%nat.

(** [not text or not text.strip()] *)
Definition is_blank (text : string) : bool :=
  forallb is_space (list_ascii_of_string text).

(** An entry of the JSON index. *)
Record IndexEntry := {
  dims : Z;
  size : Z;
  created : Q;
  accessed : Q
}.

Definition touch (now : Q) (e : IndexEntry) : IndexEntry :=
  {| dims := dims e; size := size e; created := created e; accessed := now |}.

(** [ram_cache_size], the constructor's default; no caller passes another. *)
Definition ram_cache_size : nat := 100.

Section Cache.
Context {A : Type}.

(** [embedding.nbytes] *)
Variable nbytes : list A -> Z.

(** [_text_hash]: the first 16 hex digits of SHA-256 of ["{text}:{dims}"]. *)
Variable _text_hash : string -> Z -> string.

(** What [np.load] finds in a cache file. *)
Inductive FileContent :=
| Array (v : list A)
| Corrupt.

(** The cache: the RAM tier (an [OrderedDict]), the files under
    [cache_dir] by key, the index, the copy of the index last written to
    [index.json], and the counters. *)
Record DiskBackedEmbeddingCache := {
  max_bytes : Z;
  ram_cache : list (string * list A);
  files : list (string * FileContent);
  index : list (string * IndexEntry);
  index_file : list (string * IndexEntry);
  hits : Z;
  misses : Z;
  disk_writes : Z
}.

(** [__init__] on an empty cache directory *)
Definition new_cache (max_mb : Z) : DiskBackedEmbeddingCache :=
  {| max_bytes := max_mb * 1024 * 1024;
     ram_cache := []; files := []; index := []; index_file := [];
     hits := 0; misses := 0; disk_writes := 0 |}.

(** [_add_to_ram_cache], on the RAM tier *)
Definition _add_to_ram_cache (key : string) (embedding : list A)
    (ram : list (string * list A)) : list (string * list A) :=
  PyDict.set String.eqb key embedding
    (if (ram_cache_size <=? length ram)%nat then PyDict.popitem_first ram else ram).

(** [self.index[key]['accessed'] = time.time()], guarded by [key in self.index] *)
Definition touch_index (key : string) (now : Q)
    (idx : list (string * IndexEntry)) : list (string * IndexEntry) :=
  match PyDict.get String.eqb key idx with
  | Some e => PyDict.set String.eqb key (touch now e) idx
  | None => idx
  end.

Definition count_miss (c : DiskBackedEmbeddingCache) : DiskBackedEmbeddingCache :=
  {| max_bytes := max_bytes c; ram_cache := ram_cache c; files := files c;
     index := index c; index_file := index_file c;
     hits := hits c; misses := misses c + 1; disk_writes := disk_writes c |}.

Definition unlink (key : string) (c : DiskBackedEmbeddingCache) : DiskBackedEmbeddingCache :=
  {| max_bytes := max_bytes c; ram_cache := ram_cache c;
     files := PyDict.del String.eqb key (files c);
     index := index c; index_file := index_file c;
     hits := hits c; misses := misses c; disk_writes := disk_writes c |}.

(** [DiskBackedEmbeddingCache.get] *)
Definition get (c : DiskBackedEmbeddingCache) (text : string) (d : Z) (now : Q)
  : option (list A) * DiskBackedEmbeddingCache :=
  if is_blank text then (None, c)
  else if d <=? 0 then (None, c)
  else
    let key := _text_hash text d in
    match PyDict.get String.eqb key (ram_cache c) with
    | Some v =>
        (Some v,
         {| max_bytes := max_bytes c;
            ram_cache := PyDict.move_to_end String.eqb key (ram_cache c);
            files := files c; index := index c; index_file := index_file c;
            hits := hits c + 1; misses := misses c; disk_writes := disk_writes c |})
    | None =>
        match PyDict.get String.eqb key (files c) with
        | Some (Array v) =>
            if negb (Z.of_nat (length v) =? d)
            then (None, count_miss (unlink key c))
            else
              (Some v,
               {| max_bytes := max_bytes c;
                  ram_cache := _add_to_ram_cache key v (ram_cache c);
                  files := files c;
                  index := touch_index key now (index c);
                  index_file := index_file c;
                  hits := hits c + 1; misses := misses c;
                  disk_writes := disk_writes c |})
        | Some Corrupt => (None, count_miss (unlink key c))
        | None => (None, count_miss c)
        end
    end.

(** [sum(entry.get('size', 0) for entry in self.index.values())] *)
Definition total_size (idx : list (string * IndexEntry)) : Z :=
  fold_right (fun e acc => size (snd e) + acc) 0 idx.

(** [sorted(self.index.keys(), key=lambda k: self.index[k].get('accessed', 0))]:
    a stable sort, oldest access first. *)
Fixpoint insert_by_access (e : string * IndexEntry) (l : list (string * IndexEntry))
  : list (string * IndexEntry) :=
  match l with
  | [] => [e]
  | e' :: rest =>
      if Qle_bool (accessed (snd e)) (accessed (snd e'))
      then e :: e' :: rest
      else e' :: insert_by_access e rest
  end.

Definition sorted_by_access (idx : list (string * IndexEntry))
  : list (string * IndexEntry) :=
  fold_right insert_by_access [] idx.

(** [total_size <= self.max_bytes * 0.8] *)
Definition below_low_water (total maxb : Z) : bool :=
  Qle_bool (inject_Z total) (inject_Z maxb * (8 # 10)).

(** The eviction loop of [_maybe_evict] over the sorted keys: the running
    total, the files, the index and the number of entries evicted. *)
Fixpoint evict_loop (maxb : Z) (keys : list string) (total : Z)
    (fs : list (string * FileContent)) (idx : list (string * IndexEntry)) (evicted : nat)
  : Z * list (string * FileContent) * list (string * IndexEntry) * nat :=
  match keys with
  | [] => (total, fs, idx, evicted)
  | key :: rest =>
      if below_low_water total maxb then (total, fs, idx, evicted)
      else
        let sz := match PyDict.get String.eqb key idx with
                  | Some e => size e
                  | None => 0
                  end in
        evict_loop maxb rest (total - sz)
                   (PyDict.del String.eqb key fs)
                   (PyDict.del String.eqb key idx)
                   (S evicted)
  end.

(** [_maybe_evict] *)
Definition _maybe_evict (c : DiskBackedEmbeddingCache) : DiskBackedEmbeddingCache :=
  let total := total_size (index c) in
  if total <=? max_bytes c then c
  else
    let sorted_keys := PyDict.keys (sorted_by_access (index c)) in
    let '(_, fs, idx, evicted) :=
      evict_loop (max_bytes c) sorted_keys total (files c) (index c) 0 in
    {| max_bytes := max_bytes c; ram_cache := ram_cache c;
       files := fs; index := idx;
       index_file := if (0 <? evicted)%nat then idx else index_file c;
       hits := hits c; misses := misses c; disk_writes := disk_writes c |}.

(** The state of [put] just before it calls [_maybe_evict]: the file is
    written, the index entry set, the RAM tier updated. *)
Definition store (c : DiskBackedEmbeddingCache) (text : string) (d : Z)
    (embedding : list A) (now : Q) : DiskBackedEmbeddingCache :=
  let key := _text_hash text d in
  {| max_bytes := max_bytes c;
     ram_cache := _add_to_ram_cache key embedding (ram_cache c);
     files := PyDict.set String.eqb key (Array embedding) (files c);
     index := PyDict.set String.eqb key
                {| dims := d; size := nbytes embedding; created := now; accessed := now |}
                (index c);
     index_file := index_file c;
     hits := hits c; misses := misses c;
     disk_writes := disk_writes c + 1 |}.

(** [if self.disk_writes % 100 == 0: self._save_index()] *)
Definition save_index_periodically (c : DiskBackedEmbeddingCache) : DiskBackedEmbeddingCache :=
  if disk_writes c mod 100 =? 0 then
    {| max_bytes := max_bytes c; ram_cache := ram_cache c; files := files c;
       index := index c; index_file := index c;
       hits := hits c; misses := misses c; disk_writes := disk_writes c |}
  else c.

(** [DiskBackedEmbeddingCache.put] *)
Definition put (c : DiskBackedEmbeddingCache) (text : string) (d : Z)
    (embedding : list A) (now : Q) : DiskBackedEmbeddingCache :=
  if is_blank text then c
  else if (length embedding =? 0)%nat then c
  else if d <=? 0 then c
  else save_index_periodically (_maybe_evict (store c text d embedding now)).

(** *** Eviction *)





Lemma insert_by_access_perm e l : Permutation (insert_by_access e l) (e :: l).
Proof.
  induction l as [|e' l IH]; simpl; [reflexivity|].
  destruct (Qle_bool _ _); [reflexivity|].
  rewrite IH. apply perm_swap.
Qed.


Definition older_or_same (e1 e2 : string * IndexEntry) : Prop :=
  (accessed (snd e1) <= accessed (snd e2))%Q.

Lemma insert_by_access_sorted e l :
  StronglySorted older_or_same l ->
  StronglySorted older_or_same (insert_by_access e l).
Proof.
  induction 1 as [|e' l Hs IH Hall]; simpl.
  - repeat constructor.
  - destruct (Qle_bool (accessed (snd e)) (accessed (snd e'))) eqn:E.
    + apply Qle_bool_iff in E.
      constructor; [now constructor|].
      constructor; [exact E|].
      eapply Forall_impl; [exact Hall|].
      intros x Hx. unfold older_or_same in *. eapply Qle_trans; eauto.
    + assert (Hlt : (accessed (snd e') <= accessed (snd e))%Q).
      { destruct (Qlt_le_dec (accessed (snd e')) (accessed (snd e))) as [Hl|Hl].
        - now apply Qlt_le_weak.
        - apply Qle_bool_iff in Hl. congruence. }
      constructor; [exact IH|].
      eapply Permutation_Forall; [symmetry; apply insert_by_access_perm|].
      constructor; assumption.
Qed.

(** The eviction order is oldest access first. *)
Lemma sorted_by_access_sorted idx :
  StronglySorted older_or_same (sorted_by_access idx).
Proof.
  induction idx as [|e idx IH]; simpl; [constructor|].
  now apply insert_by_access_sorted.
Qed.





(** *** A value just written is served from the RAM tier *)

Lemma put_ram_cache c text d embedding now :
  is_blank text = false -> embedding <> [] -> 0 < d ->
  ram_cache (put c text d embedding now)
  = _add_to_ram_cache (_text_hash text d) embedding (ram_cache c)
  /\ hits (put c text d embedding now) = hits c
  /\ misses (put c text d embedding now) = misses c.
Proof.
  intros Hb He Hd. unfold put. rewrite Hb.
  destruct embedding as [|x xs]; [congruence|]. simpl length. simpl Nat.eqb.
  assert (Hd' : (d <=? 0) = false) by (apply Z.leb_gt; exact Hd).
  rewrite Hd'. unfold save_index_periodically, _maybe_evict.
  destruct (total_size _ <=? _).
  - destruct (_ =? 0); simpl; auto.
  - destruct (evict_loop _ _ _ _ _ _) as [[[t fs] idx] ev].
    destruct (_ =? 0); simpl; auto.
Qed.

Lemma get_ram_hit c text d now v :
  is_blank text = false -> 0 < d ->
  PyDict.get String.eqb (_text_hash text d) (ram_cache c) = Some v ->
  fst (get c text d now) = Some v
  /\ hits (snd (get c text d now)) = hits c + 1
  /\ misses (snd (get c text d now)) = misses c
  /\ files (snd (get c text d now)) = files c
  /\ index (snd (get c text d now)) = index c.
Proof.
  intros Hb Hd Hram. unfold get. rewrite Hb.
  assert (Hd' : (d <=? 0) = false) by (apply Z.leb_gt; exact Hd).
  rewrite Hd', Hram. simpl. auto.
Qed.

(** [get] straight after [put] of the same text and dimension: a hit that
    returns the vector just stored. *)
Lemma get_after_put c text d embedding now now' :
  is_blank text = false -> embedding <> [] -> 0 < d ->
  let c' := put c text d embedding now in
  fst (get c' text d now') = Some embedding
  /\ hits (snd (get c' text d now')) = hits c + 1
  /\ misses (snd (get c' text d now')) = misses c.
Proof.
  intros Hb He Hd c'.
  destruct (put_ram_cache c text d embedding now Hb He Hd) as (Hram & Hh & Hm).
  assert (Hget : PyDict.get String.eqb (_text_hash text d) (ram_cache c') = Some embedding).
  { subst c'. rewrite Hram. unfold _add_to_ram_cache.
    apply PyDict.get_set_same. apply string_eqb_spec. }
  destruct (get_ram_hit c' text d now' embedding Hb Hd Hget) as (H1 & H2 & H3 & _).
  subst c'. rewrite H1, H2, H3, Hh, Hm. auto.
Qed.

End Cache.

(** A one-mebibyte cache of 600000-byte vectors, keyed by the text. *)
Definition bulky_nbytes (v : list Z) : Z := 600000 * Z.of_nat (length v).
Definition text_key (text : string) (d : Z) : string := text.



End DiskCache.

(** ** frankenstein-embeddings.py: the dimension adapter

    Vectors are lists of reals: float arithmetic is idealised as exact
    arithmetic, so [np.linalg.norm], division, [np.sin] and [np.cos] are
    the real functions. *)

Module Adapter.

(** [v[:t]] *)
Definition py_take {X : Type} (t : Z) (v : list X) : list X :=
  if 0 <=? t then firstn (Z.to_nat t) v
  else firstn (length v - Z.to_nat (- t)) v.

(** [v.shape[-1]] of a one-dimensional array *)
Definition shape {X : Type} (v : list X) : Z := Z.of_nat (length v).

Definition sum_squares (v : list R) : R :=
  fold_right (fun x acc => (x * x + acc)%R) 0%R v.

(** [np.linalg.norm(v)] *)
Definition norm (v : list R) : R := sqrt (sum_squares v).

(** [norm = np.linalg.norm(v); if norm > 0: v = v / norm] *)
Definition normalize (v : list R) : list R :=
  if Rlt_dec 0 (norm v) then map (fun x => (x / norm v)%R) v else v.

(** [np.zeros(n)] *)
Definition zeros (n : Z) : list R := repeat 0%R (Z.to_nat n).

(** *** [DimensionExpander] *)

(** The products [e[i] * e[j]] for [i <= j], in the order of the two loops. *)
Fixpoint pair_products (e : list R) : list R :=
  match e with
  | [] => []
  | x :: rest => map (Rmult x) (x :: rest) ++ pair_products rest
  end.

(** [_polynomial_features], called with [target_dims > 0] *)
Definition _polynomial_features (embedding : list R) (target_dims : Z) : list R :=
  let k := Z.to_nat target_dims in
  let features := firstn k (pair_products (firstn 100 embedding)) in
  firstn k (features ++ repeat 0%R (k - length features)).

Definition fourier_freqs : list R := [(1 / 2)%R; 1%R; 2%R; 4%R; 8%R].

(** [_fourier_features], called with [target_dims > 0] *)
Definition _fourier_features (embedding : list R) (target_dims : Z) : list R :=
  let k := Z.to_nat target_dims in
  let features :=
    firstn k (flat_map (fun freq =>
                flat_map (fun x => [sin (2 * PI * freq * x)%R;
                                    cos (2 * PI * freq * x)%R]) embedding)
              fourier_freqs) in
  firstn k (features ++ repeat 0%R (k - length features)).

(** [int(dims_needed * pct / 100)] for the four shares 0.4, 0.2, 0.25, 0.15 *)
Definition share (dims_needed pct : Z) : Z := dims_needed * pct / 100.

(** A learned projection ([sklearn.decomposition.PCA] after [fit]). *)
Record PCA := {
  components : list (list R);
  mean : list R
}.


Definition dot (x y : list R) : R :=
  fold_right Rplus 0%R (map (fun xy => (fst xy * snd xy)%R) (combine x y)).

(** [pca.transform(x)]: [(x - mean_) @ components_.T] *)
Definition pca_transform (p : PCA) (x : list R) : list R :=
  let centred := map (fun xm => (fst xm - snd xm)%R) (combine x (mean p)) in
  map (dot centred) (components p).

(** [class AdaptivePCA] *)
Record AdaptivePCA := {
  min_samples : Z;
  pca_models : list (Z * PCA);
  training_buffer : list (list R);
  samples_seen : Z;
  is_trained : bool
}.

(** [sorted(self.pca_models.keys())] *)
Fixpoint insert_sorted (x : Z) (l : list Z) : list Z :=
  match l with
  | [] => [x]
  | y :: rest => if x <=? y then x :: y :: rest else y :: insert_sorted x rest
  end.

Definition sorted_keys (models : list (Z * PCA)) : list Z :=
  fold_right insert_sorted [] (PyDict.keys models).

(** [min(available, key=lambda x: abs(x - target_dims))]: the first minimum *)
Fixpoint closest_to (target : Z) (best : Z) (rest : list Z) : Z :=
  match rest with
  | [] => best
  | x :: rest' =>
      if Z.abs (x - target) <? Z.abs (best - target)
      then closest_to target x rest'
      else closest_to target best rest'
  end.

(** The model [transform] picks: the one for [target_dims], else the closest. *)
Definition select_model (models : list (Z * PCA)) (target_dims : Z) : option PCA :=
  match PyDict.get Z.eqb target_dims models with
  | Some p => Some p
  | None =>
      match sorted_keys models with
      | [] => None
      | k :: ks => PyDict.get Z.eqb (closest_to target_dims k ks) models
      end
  end.

(** [reduction_ratio < 0.10] *)
Definition small_reduction (native_dims target_dims : Z) : bool :=
  negb (Qle_bool (1 # 10) (inject_Z (native_dims - target_dims) / inject_Z native_dims)).

(** [AdaptivePCA.transform] on one vector *)
Definition transform (models : list (Z * PCA)) (embedding : list R) (target_dims : Z)
  : list R :=
  if shape embedding <=? target_dims then embedding
  else if small_reduction (shape embedding) target_dims
  then py_take target_dims embedding
  else
    match select_model models target_dims with
    | Some pca =>
        let result := pca_transform pca embedding in
        if target_dims <? shape result then py_take target_dims result else result
    | None => py_take target_dims embedding
    end.

Section Externals.

(** The expansion features this development leaves to numpy and hashlib:
    the seeded Gaussian projection and the n-gram hash features. *)
Variable _random_projection_expand : list R -> Z -> list R.
Variable _hash_based_features : string -> Z -> list R.

(** [PCA(n_components=k, random_state=42).fit(X)] *)
Variable pca_fit : Z -> list (list R) -> PCA.

(** One feature source of [expand]: when [remaining > 0] (and [enabled])
    and the share [min(remaining, int(dims_needed * pct))] is positive, the
    features are appended and [remaining] goes down by their length. *)
Definition add_features (enabled : bool) (dims_needed pct : Z) (gen : Z -> list R)
    (acc : list R * Z) : list R * Z :=
  let '(parts, remaining) := acc in
  if (0 <? remaining) && enabled then
    let k := Z.min remaining (share dims_needed pct) in
    if 0 <? k then
      let f := gen k in (parts ++ f, remaining - shape f)
    else acc
  else acc.

(** [DimensionExpander.expand] *)
Definition expand (embedding : list R) (target_dims : Z) (text : string) : list R :=
  if target_dims <=? shape embedding then py_take target_dims embedding
  else
    let dims_needed := target_dims - shape embedding in
    let s1 := add_features true dims_needed 40
                (_random_projection_expand embedding) (embedding, dims_needed) in
    let s2 := add_features (negb (String.eqb text "")) dims_needed 20
                (_hash_based_features text) s1 in
    let s3 := add_features true dims_needed 25 (_polynomial_features embedding) s2 in
    let s4 := add_features true dims_needed 15 (_fourier_features embedding) s3 in
    let '(parts, remaining) := s4 in
    let result := if 0 <? remaining then parts ++ zeros remaining else parts in
    normalize (py_take target_dims result).

(** [_train]: fit a projection for each common size the samples allow. *)
Definition trainable (n_samples n_features target_dims : Z) : bool :=
  negb ((n_features <=? target_dims) || (Z.min n_samples n_features <? target_dims)).

Definition _train (p : AdaptivePCA) : AdaptivePCA :=
  let n_samples := Z.of_nat (length (training_buffer p)) in
  if n_samples <? min_samples p then p
  else
    let n_features := shape (hd [] (training_buffer p)) in
    {| min_samples := min_samples p;
       pca_models :=
         fold_left (fun models t =>
                      if trainable n_samples n_features t
                      then PyDict.set Z.eqb t (pca_fit t (training_buffer p)) models
                      else models)
                   [256; 384; 512; 768; 1024; 1536] (pca_models p);
       training_buffer := [];
       samples_seen := samples_seen p;
       is_trained := true |}.

(** [add_samples] *)
Definition add_samples (p : AdaptivePCA) (embeddings : list (list R)) : AdaptivePCA :=
  if is_trained p then p
  else
    let p' := {| min_samples := min_samples p;
                 pca_models := pca_models p;
                 training_buffer := training_buffer p ++ embeddings;
                 samples_seen := samples_seen p + Z.of_nat (length embeddings);
                 is_trained := false |} in
    if min_samples p' <=? Z.of_nat (length (training_buffer p')) then _train p' else p'.

(** The branch [_transform_dims] takes, for the counters. *)
Inductive Adaptation := Native | Compression | Expansion.

Definition adaptation (embedding : list R) (target_dims : Z) : Adaptation :=
  if shape embedding =? target_dims then Native
  else if target_dims <? shape embedding then Compression
  else Expansion.

(** [FrankensteinEmbeddings._transform_dims], the vector it returns.
    [pca] is [self.adaptive_pca], [expander] tells whether
    [self.expander] is set. *)
Definition _transform_dims (pca : option AdaptivePCA) (expander : bool)
    (embedding : list R) (target_dims : Z) (text : string) : list R :=
  match adaptation embedding target_dims with
  | Native => embedding
  | Compression =>
      match pca with
      | Some p => transform (pca_models p) embedding target_dims
      | None => py_take target_dims embedding
      end
  | Expansion =>
      if expander then expand embedding target_dims text
      else embedding ++ zeros (target_dims - shape embedding)
  end.

End Externals.

(** *** Lengths *)










(** *** Norms *)







(** *** Which compression [transform] applies *)

Lemma get_of_key {V : Type} (k : Z) (d : list (Z * V)) :
  In k (PyDict.keys d) -> exists v, PyDict.get Z.eqb k d = Some v.
Proof.
  induction d as [|[k' v'] d IH]; simpl; [tauto|].
  intros [Heq|Hin].
  - subst k'. rewrite Z.eqb_refl. eauto.
  - destruct (k =? k'); eauto.
Qed.

Lemma insert_sorted_perm x l : Permutation (insert_sorted x l) (x :: l).
Proof.
  induction l as [|y l IH]; simpl; [reflexivity|].
  destruct (x <=? y); [reflexivity|].
  rewrite IH. apply perm_swap.
Qed.

Lemma sorted_keys_perm models : Permutation (sorted_keys models) (PyDict.keys models).
Proof.
  unfold sorted_keys. induction (PyDict.keys models) as [|k ks IH]; simpl; [reflexivity|].
  rewrite insert_sorted_perm. now constructor.
Qed.

Lemma closest_to_spec target rest :
  forall best,
    In (closest_to target best rest) (best :: rest)
    /\ forall x, In x (best :: rest) ->
         Z.abs (closest_to target best rest - target) <= Z.abs (x - target).
Proof.
  induction rest as [|y rest IH]; intros best; simpl.
  - split; [now left|]. intros x [<-|[]]. lia.
  - destruct (Z.abs (y - target) <? Z.abs (best - target)) eqn:E.
    + apply Z.ltb_lt in E. destruct (IH y) as [Hin Hmin]. split.
      * destruct Hin as [H|H]; [right; left; exact H|right; right; exact H].
      * intros x [<-|Hx]; [|now apply Hmin].
        specialize (Hmin y (or_introl eq_refl)). lia.
    + apply Z.ltb_ge in E. destruct (IH best) as [Hin Hmin]. split.
      * destruct Hin as [H|H]; [left; exact H|right; right; exact H].
      * intros x [<-|[<-|Hx]].
        -- apply Hmin. now left.
        -- specialize (Hmin best (or_introl eq_refl)). lia.
        -- apply Hmin. now right.
Qed.

(** What [transform] does with the output of a projection. *)
Definition clip (target_dims : Z) (result : list R) : list R :=
  if target_dims <? shape result then py_take target_dims result else result.

(** C2 (as the code has it). Compression of a vector of [N] components
    to [T < N]: a reduction below 10% truncates without looking at the
    models; otherwise the projection cached for [T] is applied when there is
    one; when there is none for [T] but some projection is cached, the one
    whose size is closest to [T] is applied; truncation is the fallback only
    when no projection is cached at all. *)
Theorem transform_compression models embedding target_dims :
  target_dims < shape embedding ->
  (small_reduction (shape embedding) target_dims = true ->
     transform models embedding target_dims = py_take target_dims embedding)
  /\ (small_reduction (shape embedding) target_dims = false ->
      (forall p, PyDict.get Z.eqb target_dims models = Some p ->
         transform models embedding target_dims
         = clip target_dims (pca_transform p embedding))
      /\ (PyDict.get Z.eqb target_dims models = None -> models <> [] ->
          exists k p,
            In k (PyDict.keys models)
            /\ (forall k', In k' (PyDict.keys models) ->
                  Z.abs (k - target_dims) <= Z.abs (k' - target_dims))
            /\ PyDict.get Z.eqb k models = Some p
            /\ transform models embedding target_dims
               = clip target_dims (pca_transform p embedding))
      /\ (models = [] ->
          transform models embedding target_dims = py_take target_dims embedding)).
Proof.
  intros Hlt. unfold transform.
  assert (Hgt : (shape embedding <=? target_dims) = false) by (apply Z.leb_gt; exact Hlt).
  rewrite Hgt. split; [intros Hs; now rewrite Hs|].
  intros Hs. rewrite Hs. unfold select_model. split; [|split].
  - intros p Hp. now rewrite Hp.
  - intros Hnone Hne. rewrite Hnone.
    pose proof (sorted_keys_perm models) as Hperm.
    destruct (sorted_keys models) as [|k ks] eqn:Hkeys.
    + apply Permutation_nil in Hperm. destruct models; [congruence|discriminate].
    + destruct (closest_to_spec target_dims ks k) as [Hin Hmin].
      assert (Hin' : In (closest_to target_dims k ks) (PyDict.keys models)).
      { eapply Permutation_in; eauto. }
      destruct (get_of_key _ _ Hin') as [p Hp].
      exists (closest_to target_dims k ks), p.
      rewrite Hp. repeat split; auto.
      intros k' Hk'. apply Hmin. eapply Permutation_in; [symmetry; exact Hperm|exact Hk'].
  - intros ->. reflexivity.
Qed.

(** A learned projection to three components that reverses the last
    three coordinates. *)
Definition flip3 : PCA :=
  {| components := [[0; 0; 0; 1]%R; [0; 0; 1; 0]%R; [0; 1; 0; 0]%R];
     mean := [0; 0; 0; 0]%R |}.

Lemma transform_compression_witness :
  transform [(3, flip3)] [1; 2; 3; 4]%R 3
  = clip 3 (pca_transform flip3 [1; 2; 3; 4]%R).
Proof.
  apply (proj1 (proj2 (transform_compression [(3, flip3)] [1; 2; 3; 4]%R 3 eq_refl)
                  eq_refl)).
  reflexivity.
Defined.

(** C2, as the specification words it, at [N = 4], [T = 2] with one cached
    projection, for 3 components: no projection for [T] exists, yet the
    result is not the truncation [[1; 2]] but the first two outputs of the
    projection for 3. *)
Lemma transform_closest_model_counterexample :
  PyDict.get Z.eqb 2 [(3, flip3)] = None
  /\ small_reduction 4 2 = false
  /\ py_take 2 [1; 2; 3; 4]%R = [1; 2]%R
  /\ transform [(3, flip3)] [1; 2; 3; 4]%R 2 <> py_take 2 [1; 2; 3; 4]%R.
Proof.
  split; [reflexivity|]. split; [reflexivity|]. split; [reflexivity|].
  unfold transform, shape, small_reduction, select_model, py_take, pca_transform, dot.
  simpl. intros H. injection H. intros. lra.
Qed.

End Adapter.

(** ** frankenstein-embeddings.py: [FrankensteinEmbeddings] *)

Module Embedder.
Import Adapter.

(** [class EmbeddingPriority(IntEnum)] *)
Inductive EmbeddingPriority := CRITICAL | HIGH | MEDIUM | LOW | TRIVIAL.

(** [class DimensionConfig] *)
Record DimensionConfig := {
  native_dims : Z;
  target_dims : Z;
  last_refresh : Q;
  refresh_interval : Q
}.

(** [self.stats] *)
Record Stats := {
  total_embeddings : Z;
  expansions : Z;
  compressions : Z;
  native : Z;
  disk_cache_hits : Z;
  disk_cache_misses : Z;
  dimension_histogram : list (Z * Z)
}.

Definition empty_stats : Stats :=
  {| total_embeddings := 0; expansions := 0; compressions := 0; native := 0;
     disk_cache_hits := 0; disk_cache_misses := 0; dimension_histogram := [] |}.

(** What a call finds outside the process: the clock, the dimension the
    database declares ([None]: the query fails), and whether the model can
    be loaded ([_ensure_model_loaded] raises otherwise). *)
Record Env := {
  now : Q;
  db_dimension : option Z;
  model_loads : bool
}.

(** [class FrankensteinEmbeddings].  [expander] and [throttler] tell
    whether the optional component is set.  [throttle_log] and
    [encoder_log] record the calls of [throttler.acquire] /
    [acquire_batch] (batch size, priority) and of [model.encode] (the
    texts passed). *)
Record FrankensteinEmbeddings := {
  dim_config : DimensionConfig;
  disk_cache : option (@DiskCache.DiskBackedEmbeddingCache R);
  adaptive_pca : option AdaptivePCA;
  expander : bool;
  throttler : bool;
  stats : Stats;
  throttle_log : list (nat * EmbeddingPriority);
  encoder_log : list (list string)
}.

(** [_query_database_dimension] *)
Definition _query_database_dimension (native_dims : Z) (db : option Z) : Z :=
  match db with
  | Some n => if 0 <? n then n else native_dims
  | None => native_dims
  end.

(** [_refresh_target_dimension], on the dimension state *)
Definition _refresh_target_dimension (cfg : DimensionConfig) (env : Env) : DimensionConfig :=
  if (0 <? target_dims cfg)
     && negb (Qle_bool (refresh_interval cfg) (now env - last_refresh cfg))
  then cfg
  else {| native_dims := native_dims cfg;
          target_dims := _query_database_dimension (native_dims cfg) (db_dimension env);
          last_refresh := now env;
          refresh_interval := refresh_interval cfg |}.

(** [force_dims or self._get_target_dims(text)]: the dimension used and
    the dimension state afterwards ([_get_target_dims] is only evaluated
    when [force_dims] is [None] or [0]). *)
Definition resolve_dims (cfg : DimensionConfig) (env : Env) (force_dims : option Z)
  : Z * DimensionConfig :=
  match force_dims with
  | Some k =>
      if k =? 0
      then (target_dims (_refresh_target_dimension cfg env), _refresh_target_dimension cfg env)
      else (k, cfg)
  | None =>
      (target_dims (_refresh_target_dimension cfg env), _refresh_target_dimension cfg env)
  end.

(** The counter [_transform_dims] increments. *)
Definition count_adaptation (a : Adaptation) (s : Stats) : Stats :=
  {| total_embeddings := total_embeddings s;
     expansions := match a with Expansion => expansions s + 1 | _ => expansions s end;
     compressions := match a with Compression => compressions s + 1 | _ => compressions s end;
     native := match a with Native => native s + 1 | _ => native s end;
     disk_cache_hits := disk_cache_hits s;
     disk_cache_misses := disk_cache_misses s;
     dimension_histogram := dimension_histogram s |}.

Definition count_embeddings (n : Z) (s : Stats) : Stats :=
  {| total_embeddings := total_embeddings s + n;
     expansions := expansions s; compressions := compressions s; native := native s;
     disk_cache_hits := disk_cache_hits s;
     disk_cache_misses := disk_cache_misses s;
     dimension_histogram := dimension_histogram s |}.

Definition count_lookups (hit miss : Z) (s : Stats) : Stats :=
  {| total_embeddings := total_embeddings s;
     expansions := expansions s; compressions := compressions s; native := native s;
     disk_cache_hits := disk_cache_hits s + hit;
     disk_cache_misses := disk_cache_misses s + miss;
     dimension_histogram := dimension_histogram s |}.

(** [hist[f"{target_dims}D"] = hist.get(f"{target_dims}D", 0) + 1] *)
Definition count_dimension (t : Z) (s : Stats) : Stats :=
  {| total_embeddings := total_embeddings s;
     expansions := expansions s; compressions := compressions s; native := native s;
     disk_cache_hits := disk_cache_hits s;
     disk_cache_misses := disk_cache_misses s;
     dimension_histogram :=
       PyDict.set Z.eqb t
         (match PyDict.get Z.eqb t (dimension_histogram s) with
          | Some n => n + 1
          | None => 1
          end)
         (dimension_histogram s) |}.

Section Service.

(** [embedding.nbytes] and the cache key, as in [DiskCache]. *)
Variable nbytes : list R -> Z.
Variable _text_hash : string -> Z -> string.

(** [model.encode(text)] of the loaded model; a batch is encoded text by text. *)
Variable encode : string -> list R.

(** The externals of the adapter. *)
Variable _random_projection_expand : list R -> Z -> list R.
Variable _hash_based_features : string -> Z -> list R.
Variable pca_fit : Z -> list (list R) -> PCA.

(** The vector computed for [text] from its native vector: adapted to
    [t] dimensions and normalised. *)
Definition adapt (pca : option AdaptivePCA) (expander : bool) (t : Z) (text : string)
    (embedding : list R) : list R :=
  normalize (_transform_dims _random_projection_expand _hash_based_features
               pca expander embedding t text).

Definition cache_put (c : option (@DiskCache.DiskBackedEmbeddingCache R))
    (text : string) (t : Z) (v : list R) (now : Q)
  : option (@DiskCache.DiskBackedEmbeddingCache R) :=
  match c with
  | Some c0 => Some (DiskCache.put nbytes _text_hash c0 text t v now)
  | None => None
  end.

Definition log_throttle (st : FrankensteinEmbeddings) (n : nat) (p : EmbeddingPriority)
  : list (nat * EmbeddingPriority) :=
  if throttler st then throttle_log st ++ [(n, p)] else throttle_log st.

(** [embed_single] after the cache lookup missed (or without a cache):
    throttle, load the model, encode, adapt, normalise, store. *)
Definition compute_single (st : FrankensteinEmbeddings) (env : Env) (text : string)
    (t : Z) (priority : EmbeddingPriority)
  : option (list R) * FrankensteinEmbeddings :=
  if negb (model_loads env) then
    (None,
     {| dim_config := dim_config st; disk_cache := disk_cache st;
        adaptive_pca := adaptive_pca st; expander := expander st;
        throttler := throttler st; stats := stats st;
        throttle_log := log_throttle st 1 priority;
        encoder_log := encoder_log st |})
  else
    let embedding := encode text in
    let pca := match adaptive_pca st with
               | Some p => Some (add_samples pca_fit p [embedding])
               | None => None
               end in
    let result := adapt pca (expander st) t text embedding in
    (Some result,
     {| dim_config := dim_config st;
        disk_cache := cache_put (disk_cache st) text t result (now env);
        adaptive_pca := pca;
        expander := expander st;
        throttler := throttler st;
        stats := count_dimension t
                   (count_embeddings 1
                      (count_adaptation (adaptation embedding t) (stats st)));
        throttle_log := log_throttle st 1 priority;
        encoder_log := encoder_log st ++ [[text]] |}).

Definition with_lookup (st : FrankensteinEmbeddings) (cfg : DimensionConfig)
    (c : @DiskCache.DiskBackedEmbeddingCache R) (s : Stats) : FrankensteinEmbeddings :=
  {| dim_config := cfg; disk_cache := Some c;
     adaptive_pca := adaptive_pca st; expander := expander st;
     throttler := throttler st; stats := s;
     throttle_log := throttle_log st; encoder_log := encoder_log st |}.

Definition with_dim_config (st : FrankensteinEmbeddings) (cfg : DimensionConfig)
  : FrankensteinEmbeddings :=
  {| dim_config := cfg; disk_cache := disk_cache st;
     adaptive_pca := adaptive_pca st; expander := expander st;
     throttler := throttler st; stats := stats st;
     throttle_log := throttle_log st; encoder_log := encoder_log st |}.

(** [FrankensteinEmbeddings.embed_single]; [None] when the model cannot
    be loaded (the call raises). *)
Definition embed_single (st : FrankensteinEmbeddings) (env : Env) (text : string)
    (force_dims : option Z) (priority : EmbeddingPriority)
  : option (list R) * FrankensteinEmbeddings :=
  let '(t, cfg) := resolve_dims (dim_config st) env force_dims in
  match disk_cache st with
  | Some c =>
      match DiskCache.get _text_hash c text t (now env) with
      | (Some cached, c') =>
          (Some cached,
           with_lookup st cfg c' (count_embeddings 1 (count_lookups 1 0 (stats st))))
      | (None, c') =>
          compute_single (with_lookup st cfg c' (count_lookups 0 1 (stats st)))
                         env text t priority
      end
  | None => compute_single (with_dim_config st cfg) env text t priority
  end.

(** The first loop of [embed_batch]: the cache after the lookups, the
    dictionary [cached_embeddings] (index to vector), [uncached_indices],
    [uncached_texts] and the numbers of hits and misses counted. *)
Record Scan := {
  sc_cache : @DiskCache.DiskBackedEmbeddingCache R;
  sc_cached : list (nat * list R);
  sc_indices : list nat;
  sc_texts : list string;
  sc_hits : Z;
  sc_misses : Z
}.

(** [for i, text in enumerate(texts): cached = self.disk_cache.get(...)] *)
Fixpoint scan_texts (t : Z) (now : Q) (i : nat) (texts : list string) (s : Scan) : Scan :=
  match texts with
  | [] => s
  | text :: rest =>
      scan_texts t now (S i) rest
        (match DiskCache.get _text_hash (sc_cache s) text t now with
         | (Some cached, c') =>
             {| sc_cache := c';
                sc_cached := PyDict.set Nat.eqb i cached (sc_cached s);
                sc_indices := sc_indices s;
                sc_texts := sc_texts s;
                sc_hits := sc_hits s + 1;
                sc_misses := sc_misses s |}
         | (None, c') =>
             {| sc_cache := c';
                sc_cached := sc_cached s;
                sc_indices := sc_indices s ++ [i];
                sc_texts := sc_texts s ++ [text];
                sc_hits := sc_hits s;
                sc_misses := sc_misses s + 1 |}
         end)
  end.

(** The second loop of [embed_batch], over
    [zip(uncached_indices, uncached_texts, new_embeddings)]: adapt,
    normalise, store in the cache, file under the original index. *)
Fixpoint store_new (pca : option AdaptivePCA) (expander : bool) (t : Z) (now : Q)
    (work : list (nat * string * list R))
    (acc : option (@DiskCache.DiskBackedEmbeddingCache R) * list (nat * list R) * Stats)
  : option (@DiskCache.DiskBackedEmbeddingCache R) * list (nat * list R) * Stats :=
  match work with
  | [] => acc
  | (orig_idx, text, emb) :: rest =>
      let '(c, cached, s) := acc in
      let transformed := adapt pca expander t text emb in
      store_new pca expander t now rest
        (cache_put c text t transformed now,
         PyDict.set Nat.eqb orig_idx transformed cached,
         count_adaptation (adaptation emb t) s)
  end.

(** [[cached_embeddings[i] for i in range(n)]]; [None] is a [KeyError]. *)
Fixpoint collect (cached : list (nat * list R)) (indices : list nat)
  : option (list (list R)) :=
  match indices with
  | [] => Some []
  | i :: rest =>
      match PyDict.get Nat.eqb i cached, collect cached rest with
      | Some v, Some vs => Some (v :: vs)
      | _, _ => None
      end
  end.

(** [FrankensteinEmbeddings.embed_batch]; [None] when the call raises. *)
Definition embed_batch (st : FrankensteinEmbeddings) (env : Env) (texts : list string)
    (force_dims : option Z) (priority : EmbeddingPriority)
  : option (list (list R)) * FrankensteinEmbeddings :=
  let '(t, cfg) := resolve_dims (dim_config st) env force_dims in
  let n := length texts in
  let '(c1, cached, uncached_indices, uncached_texts, s1) :=
    match disk_cache st with
    | Some c =>
        let sc := scan_texts t (now env) 0 texts
                    {| sc_cache := c; sc_cached := []; sc_indices := [];
                       sc_texts := []; sc_hits := 0; sc_misses := 0 |} in
        (Some (sc_cache sc), sc_cached sc, sc_indices sc, sc_texts sc,
         count_lookups (sc_hits sc) (sc_misses sc) (stats st))
    | None => (None, [], seq 0 n, texts, stats st)
    end in
  if (length uncached_texts =? 0)%nat then
    (collect cached (seq 0 n),
     {| dim_config := cfg; disk_cache := c1;
        adaptive_pca := adaptive_pca st; expander := expander st;
        throttler := throttler st;
        stats := count_embeddings (Z.of_nat n) s1;
        throttle_log := throttle_log st; encoder_log := encoder_log st |})
  else if negb (model_loads env) then
    (None,
     {| dim_config := cfg; disk_cache := c1;
        adaptive_pca := adaptive_pca st; expander := expander st;
        throttler := throttler st; stats := s1;
        throttle_log := log_throttle st (length uncached_texts) priority;
        encoder_log := encoder_log st |})
  else
    let new_embeddings := map encode uncached_texts in
    let pca := match adaptive_pca st with
               | Some p => Some (add_samples pca_fit p new_embeddings)
               | None => None
               end in
    let '(c2, cached', s2) :=
      store_new pca (expander st) t (now env)
                (combine (combine uncached_indices uncached_texts) new_embeddings)
                (c1, cached, s1) in
    (collect cached' (seq 0 n),
     {| dim_config := cfg; disk_cache := c2;
        adaptive_pca := pca; expander := expander st;
        throttler := throttler st;
        stats := count_embeddings (Z.of_nat n) s2;
        throttle_log := log_throttle st (length uncached_texts) priority;
        encoder_log := encoder_log st ++ [uncached_texts] |}).

(** *** Two calls in a row *)





(** *** Order of the rows of a batch *)

(** What the cache answers for each text of the batch, looked up one
    after the other. *)
Fixpoint lookups (c : @DiskCache.DiskBackedEmbeddingCache R) (t : Z) (time : Q)
    (texts : list string) : list (option (list R)) :=
  match texts with
  | [] => []
  | text :: rest =>
      fst (DiskCache.get _text_hash c text t time)
      :: lookups (snd (DiskCache.get _text_hash c text t time)) t time rest
  end.

Definition batch_lookups (st : FrankensteinEmbeddings) (t : Z) (time : Q)
    (texts : list string) : list (option (list R)) :=
  match disk_cache st with
  | Some c => lookups c t time texts
  | None => map (fun _ => None) texts
  end.

(** The texts the cache did not answer, with their positions from [i] on. *)
Fixpoint misses_of (i : nat) (zs : list (string * option (list R)))
  : list (nat * string) :=
  match zs with
  | [] => []
  | (text, Some _) :: rest => misses_of (S i) rest
  | (text, None) :: rest => (i, text) :: misses_of (S i) rest
  end.

(** The text and the cache answer at position [j], positions counted from [i]. *)
Fixpoint slot_at (i : nat) (zs : list (string * option (list R))) (j : nat)
  : option (string * option (list R)) :=
  match zs with
  | [] => None
  | z :: rest => if Nat.eqb j i then Some z else slot_at (S i) rest j
  end.

Lemma slot_at_below i zs j : (j < i)%nat -> slot_at i zs j = None.
Proof.
  revert i. induction zs as [|z zs IH]; intros i Hlt; simpl; [reflexivity|].
  destruct (Nat.eqb_spec j i); [lia|]. apply IH. lia.
Qed.


Lemma nat_eqb_spec (a b : nat) : Nat.eqb a b = true <-> a = b.
Proof. apply Nat.eqb_eq. Qed.

(** The first loop files each cache answer under its position and lists
    the misses in order. *)
Lemma scan_texts_spec t time texts :
  forall i s,
    let zs := combine texts (lookups (sc_cache s) t time texts) in
    let s' := scan_texts t time i texts s in
    sc_indices s' = sc_indices s ++ map fst (misses_of i zs)
    /\ sc_texts s' = sc_texts s ++ map snd (misses_of i zs)
    /\ forall j,
         PyDict.get Nat.eqb j (sc_cached s')
         = match slot_at i zs j with
           | Some (_, Some v) => Some v
           | _ => PyDict.get Nat.eqb j (sc_cached s)
           end.
Proof.
  induction texts as [|text rest IH]; intros i s; cbn zeta.
  - simpl. rewrite !app_nil_r. auto.
  - cbn [scan_texts lookups combine].
    destruct (DiskCache.get _text_hash (sc_cache s) text t time) as [[v|] c'] eqn:Hget;
      cbn [fst snd misses_of slot_at].
    + match goal with |- context [scan_texts t time (S i) rest ?s1] =>
        destruct (IH (S i) s1) as (Hi & Ht & Hc) end.
      cbn [sc_cache sc_indices sc_texts sc_cached] in Hi, Ht, Hc.
      rewrite Hi, Ht. split; [reflexivity|]. split; [reflexivity|].
      intros j. rewrite Hc.
      destruct (Nat.eqb_spec j i) as [->|Hne].
      * rewrite slot_at_below by lia.
        apply PyDict.get_set_same. apply nat_eqb_spec.
      * destruct (slot_at (S i) _ j) as [[? [?|]]|]; auto;
          apply PyDict.get_set_other; [apply nat_eqb_spec|congruence
                                      |apply nat_eqb_spec|congruence].
    + match goal with |- context [scan_texts t time (S i) rest ?s1] =>
        destruct (IH (S i) s1) as (Hi & Ht & Hc) end.
      cbn [sc_cache sc_indices sc_texts sc_cached] in Hi, Ht, Hc.
      rewrite Hi, Ht, <- !app_assoc. split; [reflexivity|]. split; [reflexivity|].
      intros j. rewrite Hc.
      destruct (Nat.eqb_spec j i) as [->|Hne]; [|reflexivity].
      now rewrite slot_at_below by lia.
Qed.




Lemma work_of_misses (m : list (nat * string)) :
  combine (combine (map fst m) (map snd m)) (map encode (map snd m))
  = map (fun p => (fst p, snd p, encode (snd p))) m.
Proof.
  induction m as [|[j text] m IH]; simpl; [reflexivity|]. now rewrite IH.
Qed.

Lemma misses_without_cache i texts :
  misses_of i (combine texts (map (fun _ => None) texts))
  = combine (seq i (length texts)) texts.
Proof.
  revert i. induction texts as [|text texts IH]; intros i; simpl; [reflexivity|].
  now rewrite IH.
Qed.

Lemma combine_fst_snd (m : list (nat * string)) :
  combine (map fst m) (map snd m) = m.
Proof. induction m as [|[j text] m IH]; simpl; [reflexivity|]. now rewrite IH. Qed.



Lemma snd_combine_seq i (texts : list string) :
  map snd (combine (seq i (length texts)) texts) = texts.
Proof.
  revert i. induction texts as [|text texts IH]; intros i; simpl; [reflexivity|].
  now rewrite IH.
Qed.







(** *** Shape and norm of a computed embedding *)





(** *** Embeddings served from the cache *)

Section Soundness.

(** The cache key tells dimensions apart (no collision of the truncated
    SHA-256 between two target dimensions). *)
Hypothesis hash_dims :
  forall text t text' t', _text_hash text t = _text_hash text' t' -> t = t'.
















End Soundness.

End Service.
End Embedder.

(** ** frankenstein-embeddings.py: [EmbeddingServer.handle_request] *)

Module Server.
Import Adapter Embedder.

#[local] Set Warnings "-register-all".

(** A value of the request's JSON object. *)
Inductive JSON :=
| JNull
| JBool (b : bool)
| JInt (n : Z)
| JFloat (q : Q)
| JStr (s : string)
| JList (items : list JSON)
| JObject (fields : list (string * JSON)).

(** Python's truth value of a decoded JSON value. *)
Definition truthy (v : JSON) : bool :=
  match v with
  | JNull => false
  | JBool b => b
  | JInt n => negb (n =? 0)
  | JFloat q => negb (Qeq_bool q 0)
  | JStr s => negb (String.eqb s "")
  | JList items => match items with [] => false | _ => true end
  | JObject fields => match fields with [] => false | _ => true end
  end.

(** [isinstance(v, int)] with [v]'s value as an [int]: [bool] is a
    subclass of [int] in Python, [True] being [1] and [False] being [0]. *)
Definition as_int (v : JSON) : option Z :=
  match v with
  | JInt n => Some n
  | JBool b => Some (if b then 1 else 0)
  | _ => None
  end.

(** [request.get(key)] with a truthy result *)
Definition flag (request : list (string * JSON)) (key : string) : bool :=
  match PyDict.get String.eqb key request with
  | Some v => truthy v
  | None => false
  end.

Definition ascii_lower (c : ascii) : ascii :=
  let n := nat_of_ascii c in
  if ((65 <=? n)%nat && (n <=? 90)%nat) then ascii_of_nat (n + 32) else c.

(** [str.lower] on ASCII text *)
Fixpoint lower (s : string) : string :=
  match s with
  | EmptyString => EmptyString
  | String c rest => String (ascii_lower c) (lower rest)
  end.

(** [priority_map.get(priority_str, EmbeddingPriority.MEDIUM)] *)
Definition parse_priority (priority_str : string) : EmbeddingPriority :=
  if String.eqb priority_str "critical" then CRITICAL
  else if String.eqb priority_str "high" then HIGH
  else if String.eqb priority_str "medium" then MEDIUM
  else if String.eqb priority_str "low" then LOW
  else if String.eqb priority_str "trivial" then TRIVIAL
  else MEDIUM.

(** [qqms_priority_map] *)
Definition qqms_priority (p : EmbeddingPriority) : Qqms.Priority :=
  match p with
  | CRITICAL => Qqms.CRITICAL | HIGH => Qqms.HIGH | MEDIUM => Qqms.MEDIUM
  | LOW => Qqms.LOW | TRIVIAL => Qqms.TRIVIAL
  end.

(** What [handle_request] answers.  The embedding responses carry the
    vector, [dimensions], [target_dims], [count] and [priority]
    ([query_type] and [complexity] are left out).
    [Snapshot] stands for the responses of the control requests that are
    not embedded here (stats, ready, kys, the batch re-embedding jobs);
    [Raised] for an exception leaving [handle_request]; [Unmodelled] for a
    request whose [text], [texts] or [dims] has a type this development
    does not follow through the numeric code. *)
Inductive Response :=
| ErrorResponse (error : string)
| DimensionInfo (native_dimensions target_dimensions : Z)
| DimensionSet (dimension : JSON)
| Refreshed (old_dims new_dims : Z)
| EmbedResponse (embedding : list R) (dimensions : Z) (target : Z) (priority : string)
| BatchResponse (embeddings : list (list R)) (dimensions : Z) (target : Z)
    (count : Z) (priority : string)
| Snapshot (kind : string)
| Raised
| Unmodelled.

(** [class EmbeddingServer]: the embedder, whether a QQMS v2 queue is
    attached, and the priorities [qqms_v2.acquire_throttle] was called
    with. *)
Record EmbeddingServer := {
  embedder : FrankensteinEmbeddings;
  qqms_v2 : bool;
  qqms_throttle_log : list Qqms.Priority
}.

Definition with_embedder (srv : EmbeddingServer) (e : FrankensteinEmbeddings)
  : EmbeddingServer :=
  {| embedder := e; qqms_v2 := qqms_v2 srv; qqms_throttle_log := qqms_throttle_log srv |}.

Definition set_target_dims (srv : EmbeddingServer) (d : Z) : EmbeddingServer :=
  with_embedder srv
    (with_dim_config (embedder srv)
       {| native_dims := native_dims (dim_config (embedder srv));
          target_dims := d;
          last_refresh := last_refresh (dim_config (embedder srv));
          refresh_interval := refresh_interval (dim_config (embedder srv)) |}).

(** The [set_dimension] branch:
    [if new_dim and isinstance(new_dim, int) and new_dim > 0]. *)
Definition handle_set_dimension (srv : EmbeddingServer) (request : list (string * JSON))
  : Response * EmbeddingServer :=
  match PyDict.get String.eqb "dimension" request with
  | Some new_dim =>
      match as_int new_dim with
      | Some n =>
          if truthy new_dim && (0 <? n)
          then (DimensionSet new_dim, set_target_dims srv n)
          else (ErrorResponse "Invalid dimension value", srv)
      | None => (ErrorResponse "Invalid dimension value", srv)
      end
  | None => (ErrorResponse "Invalid dimension value", srv)
  end.

(** [request.get('dims')]: [Some None] for an absent or falsy value (the
    oracle decides), [Some (Some k)] for an integer, [None] otherwise. *)
Definition read_dims (request : list (string * JSON)) : option (option Z) :=
  match PyDict.get String.eqb "dims" request with
  | None => Some None
  | Some (JInt k) => Some (Some k)
  | Some v => if truthy v then None else Some None
  end.

Fixpoint read_texts (items : list JSON) : option (list string) :=
  match items with
  | [] => Some []
  | JStr s :: rest =>
      match read_texts rest with
      | Some l => Some (s :: l)
      | None => None
      end
  | _ :: _ => None
  end.

(** [embeddings.shape[1]] of [np.array(rows)]: the common row length;
    [None] when there is no row or the rows differ in length. *)
Definition row_width (rows : list (list R)) : option Z :=
  match rows with
  | [] => None
  | r :: rest =>
      if forallb (fun r' => (length r' =? length r)%nat) rest
      then Some (shape r) else None
  end.

Section Handler.

Variable nbytes : list R -> Z.
Variable _text_hash : string -> Z -> string.
Variable encode : string -> list R.
Variable _random_projection_expand : list R -> Z -> list R.
Variable _hash_based_features : string -> Z -> list R.
Variable pca_fit : Z -> list (list R) -> PCA.

(** The request types the dispatch lets through to the field checks. *)
Definition known_type (t : string) : bool :=
  String.eqb t "embed" || String.eqb t "batch_embed".

(** The batch re-embedding jobs, answered with a job report. *)
Definition job_kind (request : list (string * JSON)) : option string :=
  if flag request "process_codebase" then Some "process_codebase"%string
  else if flag request "process_memories" then Some "process_memories"%string
  else if flag request "process_code_definitions" then Some "process_code_definitions"%string
  else None.

(** The part of [handle_request] after [# Parse priority level]. *)
Definition handle_embedding (srv : EmbeddingServer) (env : Env)
    (request : list (string * JSON)) : Response * EmbeddingServer :=
  match (match PyDict.get String.eqb "priority" request with
         | None => Some "medium"%string
         | Some (JStr s) => Some (lower s)
         | Some _ => None
         end) with
  | None => (Raised, srv)
  | Some priority_str =>
      let priority := parse_priority priority_str in
      let srv1 :=
        if qqms_v2 srv
        then {| embedder := embedder srv; qqms_v2 := true;
                qqms_throttle_log :=
                  qqms_throttle_log srv ++ [qqms_priority priority] |}
        else srv in
      match PyDict.get String.eqb "text" request with
      | Some (JStr text) =>
          match read_dims request with
          | None => (Unmodelled, srv1)
          | Some force_dims =>
              match embed_single nbytes _text_hash encode _random_projection_expand
                      _hash_based_features pca_fit
                      (embedder srv1) env text force_dims priority with
              | (Some embedding, e') =>
                  (EmbedResponse embedding (shape embedding)
                     (target_dims (dim_config e')) priority_str,
                   with_embedder srv1 e')
              | (None, e') => (Raised, with_embedder srv1 e')
              end
          end
      | Some _ => (Unmodelled, srv1)
      | None =>
          match PyDict.get String.eqb "texts" request with
          | Some (JList items) =>
              match read_texts items, read_dims request with
              | Some texts, Some force_dims =>
                  let priority' :=
                    if PyDict.contains String.eqb "priority" request
                    then priority else LOW in
                  match embed_batch nbytes _text_hash encode _random_projection_expand
                          _hash_based_features pca_fit
                          (embedder srv1) env texts force_dims priority' with
                  | (Some embeddings, e') =>
                      match row_width embeddings with
                      | Some width =>
                          (BatchResponse embeddings width
                             (target_dims (dim_config e'))
                             (Z.of_nat (length embeddings)) priority_str,
                           with_embedder srv1 e')
                      | None => (Raised, with_embedder srv1 e')
                      end
                  | (None, e') => (Raised, with_embedder srv1 e')
                  end
              | _, _ => (Unmodelled, srv1)
              end
          | Some _ => (Unmodelled, srv1)
          | None => (ErrorResponse "Missing text or texts field", srv1)
          end
      end
  end.

(** [handle_request] *)
Definition handle_request (srv : EmbeddingServer) (env : Env)
    (request : list (string * JSON)) : Response * EmbeddingServer :=
  let after_type (health : bool) :=
    if health || flag request "stats" then (Snapshot "stats", srv)
    else if flag request "refresh_dimension" then
      let cfg := dim_config (embedder srv) in
      let cfg' := _refresh_target_dimension
                    {| native_dims := native_dims cfg;
                       target_dims := target_dims cfg;
                       last_refresh := 0;
                       refresh_interval := refresh_interval cfg |} env in
      (Refreshed (target_dims cfg) (target_dims cfg'),
       with_embedder srv (with_dim_config (embedder srv) cfg'))
    else
      match job_kind request with
      | Some kind => (Snapshot kind, srv)
      | None => handle_embedding srv env request
      end in
  match PyDict.get String.eqb "type" request with
  | Some (JStr t) =>
      if String.eqb t "health" then after_type true
      else if String.eqb t "ready" then (Snapshot "ready", srv)
      else if String.eqb t "kys" then (Snapshot "kys", srv)
      else if String.eqb t "get_dimension" then
        (DimensionInfo (native_dims (dim_config (embedder srv)))
                       (target_dims (dim_config (embedder srv))), srv)
      else if String.eqb t "set_dimension" then handle_set_dimension srv request
      else if known_type t then after_type false
      else if String.eqb t "" then after_type false
      else (ErrorResponse "Unknown request type", srv)
  | Some v =>
      if truthy v then (ErrorResponse "Unknown request type", srv)
      else after_type false
  | None => after_type false
  end.

(** *** [set_dimension] *)

(** The [dimension] field is missing, is not a Python [int], or is not
    positive. *)
Definition invalid_dimension (request : list (string * JSON)) : Prop :=
  match PyDict.get String.eqb "dimension" request with
  | None => True
  | Some v =>
      match as_int v with
      | None => True
      | Some n => n <= 0
      end
  end.

Definition is_set_dimension (request : list (string * JSON)) : Prop :=
  PyDict.get String.eqb "type" request = Some (JStr "set_dimension").

(** A [set_dimension] request without a positive Python [int] is answered
    with an error and changes nothing. *)
Lemma set_dimension_rejects srv env request :
  is_set_dimension request ->
  invalid_dimension request ->
  handle_request srv env request = (ErrorResponse "Invalid dimension value", srv).
Proof.
  unfold is_set_dimension, invalid_dimension, handle_request. intros -> Hinv.
  cbn. unfold handle_set_dimension.
  destruct (PyDict.get String.eqb "dimension" request) as [v|]; [|reflexivity].
  destruct (as_int v) as [n|]; [|reflexivity].
  assert (Hn : (0 <? n) = false) by (apply Z.ltb_ge; exact Hinv).
  rewrite Hn, andb_false_r. reflexivity.
Qed.

(** A [set_dimension] request with a positive integer sets [target_dims]. *)
Lemma set_dimension_accepts srv env request n :
  is_set_dimension request ->
  PyDict.get String.eqb "dimension" request = Some (JInt n) ->
  0 < n ->
  handle_request srv env request = (DimensionSet (JInt n), set_target_dims srv n).
Proof.
  unfold is_set_dimension, handle_request. intros -> Hd Hn.
  cbn. unfold handle_set_dimension. rewrite Hd. cbn.
  assert (H0 : (n =? 0) = false) by (apply Z.eqb_neq; lia).
  assert (H1 : (0 <? n) = true) by (apply Z.ltb_lt; exact Hn).
  now rewrite H0, H1.
Qed.

(** The request [{"type": "set_dimension", "dimension": true}]. *)
Definition set_dimension_true : list (string * JSON) :=
  [("type"%string, JStr "set_dimension"); ("dimension"%string, JBool true)].

(** C10 at the failing input: the JSON boolean [true] is not an integer,
    yet [isinstance(True, int)] holds and [True > 0]: the server answers
    [{'status': 'ok', 'dimension': True}] and [target_dims] becomes [True],
    that is 1, whatever it was. *)
Theorem set_dimension_accepts_true srv env :
  handle_request srv env set_dimension_true
  = (DimensionSet (JBool true), set_target_dims srv 1)
  /\ target_dims (dim_config (embedder (snd (handle_request srv env set_dimension_true))))
     = 1.
Proof.
  assert (H : handle_request srv env set_dimension_true
              = (DimensionSet (JBool true), set_target_dims srv 1)).
  { unfold handle_request, set_dimension_true. cbn. reflexivity. }
  split; [exact H|]. rewrite H. reflexivity.
Qed.

(** *** Default priority of a batch *)

Lemma read_texts_strings texts : read_texts (map JStr texts) = Some texts.
Proof.
  induction texts as [|text texts IH]; simpl; [reflexivity|]. now rewrite IH.
Qed.

(** The request [{"type": "batch_embed", "texts": [...]}]. *)
Definition batch_request (texts : list string) : list (string * JSON) :=
  [("type"%string, JStr "batch_embed"); ("texts"%string, JList (map JStr texts))].

(** The QQMS v2 throttle, when a queue is attached, is acquired with the
    priority parsed from the request. *)
Definition throttled_by_qqms (srv : EmbeddingServer) (p : EmbeddingPriority)
  : EmbeddingServer :=
  if qqms_v2 srv
  then {| embedder := embedder srv; qqms_v2 := true;
          qqms_throttle_log := qqms_throttle_log srv ++ [qqms_priority p] |}
  else srv.

(** C8 at the failing inputs. A batch request without [priority]:
    [embed_batch] is called with priority [LOW], the response says
    ["medium"], and the QQMS v2 throttle (when attached) was acquired at
    [MEDIUM]. *)
Theorem batch_without_priority_reports_medium srv env texts :
  let srv1 := throttled_by_qqms srv MEDIUM in
  let result :=
    embed_batch nbytes _text_hash encode _random_projection_expand
      _hash_based_features pca_fit (embedder srv1) env texts None LOW in
  handle_request srv env (batch_request texts)
  = (match fst result with
     | Some embeddings =>
         match row_width embeddings with
         | Some width =>
             BatchResponse embeddings width
               (target_dims (dim_config (snd result)))
               (Z.of_nat (length embeddings)) "medium"
         | None => Raised
         end
     | None => Raised
     end,
     with_embedder srv1 (snd result)).
Proof.
  intros srv1 result. unfold handle_request, batch_request.
  cbn -[embed_batch]. unfold handle_embedding.
  cbn -[embed_batch read_texts]. rewrite read_texts_strings.
  unfold read_dims. cbn -[embed_batch].
  subst result srv1. unfold throttled_by_qqms. cbn [qqms_priority].
  destruct (embed_batch _ _ _ _ _ _ _ _ _ _ _) as [[rows|] e'];
    cbn [fst snd]; [|reflexivity].
  destruct (row_width rows); reflexivity.
Qed.

(** *** The [dimensions] field *)

Lemma row_width_spec rows w :
  row_width rows = Some w -> Forall (fun r => shape r = w) rows.
Proof.
  unfold row_width. destruct rows as [|r rest]; [discriminate|].
  destruct (forallb _ rest) eqn:Hall; [|discriminate].
  intros [= <-]. constructor; [reflexivity|].
  rewrite forallb_forall in Hall. apply List.Forall_forall.
  intros r' Hin. apply Hall in Hin. apply Nat.eqb_eq in Hin.
  unfold shape. now rewrite Hin.
Qed.

Ltac break_match :=
  match goal with
  | H : context [match ?x with _ => _ end] |- _ => destruct x eqn:?
  | H : context [if ?x then _ else _] |- _ => destruct x eqn:?
  end.

(** In an [embed] response, [dimensions] is the length of [embedding]
    and [target_dims] the oracle's dimension after the call. *)
Lemma embed_response_fields srv env request embedding dimensions target priority srv' :
  handle_request srv env request
  = (EmbedResponse embedding dimensions target priority, srv') ->
  dimensions = shape embedding
  /\ target = target_dims (dim_config (embedder srv')).
Proof.
  unfold handle_request, handle_set_dimension, handle_embedding. intros H.
  repeat break_match; try discriminate;
    injection H as <- <- <- <- <-; split; reflexivity.
Qed.

(** In a [batch_embed] response, [dimensions] is the length of every row
    and [count] the number of rows. *)
Lemma batch_response_fields srv env request embeddings dimensions target count
    priority srv' :
  handle_request srv env request
  = (BatchResponse embeddings dimensions target count priority, srv') ->
  Forall (fun row => shape row = dimensions) embeddings
  /\ count = Z.of_nat (length embeddings)
  /\ target = target_dims (dim_config (embedder srv')).
Proof.
  unfold handle_request, handle_set_dimension, handle_embedding. intros H.
  repeat break_match; try discriminate;
    injection H as <- <- <- <- <- <-;
    (split; [now apply row_width_spec|split; reflexivity]).
Qed.

End Handler.
End Server.

(** ** A small service, to run the theorems on *)

Module Examples.
Import Adapter Embedder.

Definition toy_nbytes (v : list R) : Z := 4 * shape v.

(** A cache key that starts with the dimension in unary. *)
Fixpoint ones (n : nat) (s : string) : string :=
  match n with
  | O => String "0" s
  | S n' => String "1" (ones n' s)
  end.

Definition toy_hash (text : string) (d : Z) : string :=
  match d with
  | Z0 => String "z" text
  | Zpos p => String "p" (ones (Pos.to_nat p) text)
  | Zneg p => String "n" (ones (Pos.to_nat p) text)
  end.



(** An encoder with two native dimensions, and one with four whose
    vectors have their weight on the last coordinate. *)
Definition unit_encode (text : string) : list R := [1; 0]%R.

Definition no_projection (v : list R) (k : Z) : list R := zeros k.
Definition no_hash_features (text : string) (k : Z) : list R := zeros k.

Definition toy_fit (k : Z) (X : list (list R)) : PCA :=
  {| components := []; mean := [] |}.

(** A service that has just started: empty cache, no learned projection. *)
Definition fresh_service : FrankensteinEmbeddings :=
  {| dim_config := {| native_dims := 2; target_dims := 2;
                      last_refresh := 0; refresh_interval := 60 |};
     disk_cache := Some (DiskCache.new_cache 300);
     adaptive_pca := None;
     expander := true;
     throttler := true;
     stats := empty_stats;
     throttle_log := [];
     encoder_log := [] |}.

Definition noon : Env := {| now := 100; db_dimension := None; model_loads := true |}.









End Examples.

(** ** qqms_v2.py: the drain loop, priority aging and the dead-letter queue *)

Module QqmsMaintenance.
Import Qqms.

(** The memory side of a queue with another object store and other deques. *)
Definition with_memory (q : QQMSv2) (h : list QueueItem) (qs : Queues) : QQMSv2 :=
  {| config := config q; priority_queues := qs; heap := h;
     processing_map := processing_map q; dead_letters := dead_letters q;
     overflow := overflow q;
     total_processed := total_processed q; total_retries := total_retries q;
     total_wait_time_ms := total_wait_time_ms q; callback_log := callback_log q |}.

Definition with_dead_letters (q : QQMSv2) (l : list DLQItem) : QQMSv2 :=
  {| config := config q; priority_queues := priority_queues q; heap := heap q;
     processing_map := processing_map q; dead_letters := l;
     overflow := overflow q;
     total_processed := total_processed q; total_retries := total_retries q;
     total_wait_time_ms := total_wait_time_ms q; callback_log := callback_log q |}.

(** Every reference held by the five deques, [CRITICAL] first. *)
Definition all_refs (qs : Queues) : list nat :=
  q_critical qs ++ q_high qs ++ q_medium qs ++ q_low qs ++ q_trivial qs.

(** *** [_check_priority_aging] *)

Definition with_priority (it : QueueItem) (p : Priority) : QueueItem :=
  {| id := id it; priority := p; original_priority := original_priority it;
     data := data it; callback := callback it; enqueued_at := enqueued_at it;
     started_at := started_at it; status := status it;
     retry_count := retry_count it; last_error := last_error it;
     next_retry_at := next_retry_at it; lease_expires_at := lease_expires_at it |}.

(** [Priority(item.priority - 1)]; [Priority(-1)] raises [ValueError]. *)
Definition promoted (p : Priority) : option Priority :=
  match p with
  | CRITICAL => None
  | HIGH => Some CRITICAL
  | MEDIUM => Some HIGH
  | LOW => Some MEDIUM
  | TRIVIAL => Some LOW
  end.

(** The test of the first inner loop:
    [item.status == 'pending' and
     now - item.enqueued_at > age_promotion_ms / 1000.0 and
     item.priority > Priority.CRITICAL]. *)
Definition waited_too_long (cfg : QQMSv2Config) (now : Q) (it : QueueItem) : bool :=
  status_eqb (status it) pending
  && Qgt_bool (now - enqueued_at it) (age_promotion_ms cfg / 1000)
  && (priority_value CRITICAL <? priority_value (priority it)).

Definition due (cfg : QQMSv2Config) (now : Q) (h : list QueueItem) (a : nat) : bool :=
  match h !! a with
  | Some it => waited_too_long cfg now it
  | None => false
  end.

(** The second inner loop, [for item in items_to_promote], over the deque
    of level [level]: the object store, the deques, and whether
    [Priority(item.priority - 1)] raised (the loop stops there, the item
    already removed from its deque). *)
Fixpoint promote_all (level : Priority) (refs : list nat)
    (h : list QueueItem) (qs : Queues) : list QueueItem * Queues * bool :=
  match refs with
  | [] => (h, qs, false)
  | a :: rest =>
      match h !! a with
      | None => promote_all level rest h qs
      | Some it =>
          let qs1 := set_queue qs level (remove_ref a (queue_of qs level)) in
          match promoted (priority it) with
          | None => (h, qs1, true)
          | Some p' =>
              promote_all level rest
                (<[a := with_priority it p']> h)
                (set_queue qs1 p' (queue_of qs1 p' ++ [a]))
          end
      end
  end.

(** One round of [for priority in list(Priority)[1:]]. *)
Definition age_level (cfg : QQMSv2Config) (now : Q)
    (st : list QueueItem * Queues * bool) (level : Priority)
  : list QueueItem * Queues * bool :=
  let '(h, qs, raised) := st in
  if raised then st
  else promote_all level (List.filter (due cfg now h) (queue_of qs level)) h qs.

(** [QQMSv2._check_priority_aging]: the queue afterwards, and whether the
    call raised. *)
Definition _check_priority_aging (q : QQMSv2) (now : Q) : QQMSv2 * bool :=
  let '(h, qs, raised) :=
    fold_left (age_level (config q) now) [HIGH; MEDIUM; LOW; TRIVIAL]
              (heap q, priority_queues q, false) in
  (with_memory q h qs, raised).

(** *** [OverflowQueue.get_pending_count], [OverflowQueue.dequeue] *)

Definition pending_of (ov : OverflowQueue) (r : OverflowRow) : bool :=
  String.eqb (row_project_id r) (project_id ov) && status_eqb (row_status r) pending.

(** [SELECT COUNT( * ) ... WHERE project_id = %s AND status = 'pending'];
    0 when the statement fails. *)
Definition overflow_get_pending_count (ov : OverflowQueue) : Z :=
  if db_up ov then Z.of_nat (length (List.filter (pending_of ov) (table ov))) else 0.

(** [next_retry_at IS NULL OR next_retry_at <= NOW()] *)
Definition retry_due (now : Q) (r : OverflowRow) : bool :=
  match row_next_retry_at r with
  | None => true
  | Some t => Qle_bool t now
  end.

(** [ORDER BY priority ASC, enqueued_at ASC] *)
Definition row_before (r1 r2 : OverflowRow) : bool :=
  (row_priority r1 <? row_priority r2)
  || ((row_priority r1 =? row_priority r2)
      && Qle_bool (row_enqueued_at r1) (row_enqueued_at r2)).

Fixpoint insert_row (r : OverflowRow) (l : list OverflowRow) : list OverflowRow :=
  match l with
  | [] => [r]
  | r' :: rest => if row_before r r' then r :: r' :: rest else r' :: insert_row r rest
  end.

(** The inner [SELECT ... ORDER BY ... LIMIT %s] of [dequeue].  SQL leaves
    the order among rows of equal priority and time open; the rows keep
    their table order here. *)
Definition select_pending (ov : OverflowQueue) (limit : nat) (now : Q) : list OverflowRow :=
  firstn limit
    (fold_right insert_row []
       (List.filter (fun r => pending_of ov r && retry_due now r) (table ov))).

Definition process_row (r : OverflowRow) : OverflowRow :=
  {| row_id := row_id r;
     row_project_id := row_project_id r;
     row_priority := row_priority r;
     row_original_priority := row_original_priority r;
     row_data := row_data r;
     row_enqueued_at := row_enqueued_at r;
     row_status := processing;
     row_retry_count := row_retry_count r;
     row_last_error := row_last_error r;
     row_next_retry_at := row_next_retry_at r |}.

(** [Priority(n)] *)
Definition priority_of_value (n : Z) : option Priority :=
  if n =? 0 then Some CRITICAL
  else if n =? 1 then Some HIGH
  else if n =? 2 then Some MEDIUM
  else if n =? 3 then Some LOW
  else if n =? 4 then Some TRIVIAL
  else None.

(** The [QueueItem] built from a returned row. *)
Definition item_of_row (r : OverflowRow) : option QueueItem :=
  match priority_of_value (row_priority r),
        priority_of_value (row_original_priority r) with
  | Some p, Some op =>
      Some {| id := row_id r; priority := p; original_priority := op;
              data := row_data r; callback := None;
              enqueued_at := row_enqueued_at r;
              started_at := None;
              status := processing;
              retry_count := row_retry_count r;
              last_error := row_last_error r;
              next_retry_at := None;
              lease_expires_at := None |}
  | _, _ => None
  end.

Fixpoint items_of_rows (rows : list OverflowRow) : option (list QueueItem) :=
  match rows with
  | [] => Some []
  | r :: rest =>
      match item_of_row r, items_of_rows rest with
      | Some it, Some its => Some (it :: its)
      | _, _ => None
      end
  end.

(** [OverflowQueue.dequeue(limit)]: the selected rows become
    ['processing'] in the table and are returned as items of status
    ['processing'], in the order of the selection.  A failing statement
    (database down, negative [LIMIT]) yields [[]]; so does a row whose
    priority is no [Priority] value, after the [UPDATE] is done. *)
Definition overflow_dequeue (ov : OverflowQueue) (limit : Z) (now : Q)
  : list QueueItem * OverflowQueue :=
  if db_up ov && (0 <=? limit) then
    let chosen := select_pending ov (Z.to_nat limit) now in
    let ids := map row_id chosen in
    let ov' := with_table ov
                 (map (fun r => if existsb (String.eqb (row_id r)) ids
                                then process_row r else r)
                      (table ov)) in
    match items_of_rows (map process_row chosen) with
    | Some items => (items, ov')
    | None => ([], ov')
    end
  else ([], ov).

(** *** [_drain_loop] *)

(** [queue = self.priority_queues[item.priority]; queue.append(item)] for
    each drained item: a new object, referenced from its deque. *)
Definition append_item (q : QQMSv2) (it : QueueItem) : QQMSv2 :=
  with_memory q (heap q ++ [it])
    (set_queue (priority_queues q) (priority it)
       (queue_of (priority_queues q) (priority it) ++ [length (heap q)])).

(** The first block of the loop body: move pending overflow rows to the
    memory deques when the CPU is below the queue threshold.
    [batch_size] is [config.overflow_drain_batch_size]. *)
Definition drain_overflow (q : QQMSv2) (batch_size : Z) (cpu now : Q) : QQMSv2 :=
  match overflow q with
  | Some ov =>
      if Qgt_bool (cpu_queue_threshold (config q)) cpu
         && (0 <? overflow_get_pending_count ov)
      then
        let '(items, ov') := overflow_dequeue ov batch_size now in
        fold_left append_item items (with_overflow q ov')
      else q
  | None => q
  end.

(** One turn of the body of [_drain_loop] (the [try] block): drain, age,
    check the leases; an exception of the aging step skips the lease
    check.  The three instants are the database's [NOW()] and the two
    readings of [time.time()]. *)
Definition drain_tick (q : QQMSv2) (batch_size : Z) (cpu now_db now_aging now_lease : Q)
  : QQMSv2 :=
  let q1 := drain_overflow q batch_size cpu now_db in
  let '(q2, raised) := _check_priority_aging q1 now_aging in
  if raised then q2 else _check_lease_timeouts q2 now_lease.

(** *** [get_dlq], [clear_dlq] *)

(** [now - item.failed_at < retention_sec] *)
Definition retained (cfg : QQMSv2Config) (now : Q) (d : DLQItem) : bool :=
  Qgt_bool (dlq_retention_ms cfg / 1000) (now - failed_at d).

(** [QQMSv2.get_dlq] *)
Definition get_dlq (q : QQMSv2) (now : Q) : list DLQItem * QQMSv2 :=
  let kept := List.filter (retained (config q) now) (dead_letters q) in
  (kept, with_dead_letters q kept).

(** [QQMSv2.clear_dlq] *)
Definition clear_dlq (q : QQMSv2) : Z * QQMSv2 :=
  (Z.of_nat (length (dead_letters q)), with_dead_letters q []).

(** *** Calls of the queue's interface, one after the other *)

Inductive Call :=
| CallEnqueue (item_id : string) (now cpu : Q) (data : string) (p : Priority)
    (callback : option nat)
| CallDequeue (now : Q)
| CallAck (item_id : string) (now : Q)
| CallNack (item_id error : string) (now : Q)
| CallDrainTick (batch_size : Z) (cpu now_db now_aging now_lease : Q)
| CallGetDlq (now : Q)
| CallClearDlq.

Definition call (q : QQMSv2) (c : Call) : QQMSv2 :=
  match c with
  | CallEnqueue item_id now cpu data p cb => snd (enqueue q item_id now cpu data p cb)
  | CallDequeue now => snd (dequeue q now)
  | CallAck item_id now => snd (ack q item_id now)
  | CallNack item_id error now => snd (nack q item_id error now)
  | CallDrainTick batch_size cpu now_db now_aging now_lease =>
      drain_tick q batch_size cpu now_db now_aging now_lease
  | CallGetDlq now => snd (get_dlq q now)
  | CallClearDlq => snd (clear_dlq q)
  end.

Definition calls (q : QQMSv2) (cs : list Call) : QQMSv2 := fold_left call cs q.


(** *** Facts about the deques *)

Lemma Priority_eq_dec (p p' : Priority) : {p = p'} + {p <> p'}.
Proof. decide equality. Defined.

Lemma queue_of_set_queue_same qs p l : queue_of (set_queue qs p l) p = l.
Proof. destruct p; reflexivity. Qed.

Lemma queue_of_set_queue_other qs p p' l :
  p <> p' -> queue_of (set_queue qs p l) p' = queue_of qs p'.
Proof. destruct p, p'; try reflexivity; congruence. Qed.

Lemma in_all_refs qs a : In a (all_refs qs) <-> exists p, In a (queue_of qs p).
Proof.
  unfold all_refs. rewrite !in_app_iff. split.
  - intros [H|[H|[H|[H|H]]]];
      [exists CRITICAL|exists HIGH|exists MEDIUM|exists LOW|exists TRIVIAL]; exact H.
  - intros [p H]. destruct p; simpl in H; tauto.
Qed.

Lemma in_remove_ref a b l : In b (remove_ref a l) -> In b l.
Proof.
  induction l as [|c l IH]; simpl; [tauto|].
  destruct (Nat.eqb a c); simpl; tauto.
Qed.

Lemma in_remove_ref_other a b l : a <> b -> In b l -> In b (remove_ref a l).
Proof.
  intros Hne. induction l as [|c l IH]; simpl; [tauto|].
  destruct (Nat.eqb a c) eqn:E.
  - apply Nat.eqb_eq in E. subst c. intros [H|H]; [congruence|exact H].
  - simpl. intros [H|H]; [now left|right; now apply IH].
Qed.

(** *** Items the drain loop moved to memory *)

(** The reference [dequeue] hands out, if any. *)
Definition dequeued_ref (q : QQMSv2) (now : Q) : option nat :=
  find_ready_in (heap q) now (priority_queues q) all_priorities.

(** An item that sits in a deque with status ['processing'] and that no
    entry of [processing] refers to. *)
Definition stranded (q : QQMSv2) (a : nat) : Prop :=
  (exists it, heap q !! a = Some it /\ status it = processing)
  /\ In a (all_refs (priority_queues q))
  /\ ~ In a (PyDict.values (processing_map q)).

(** The first two parts of [stranded]. *)
Definition stranded_like (q : QQMSv2) (a : nat) : Prop :=
  (exists it, heap q !! a = Some it /\ status it = processing)
  /\ In a (all_refs (priority_queues q)).

Lemma stranded_not_ready q now a : stranded q a -> dequeued_ref q now <> Some a.
Proof.
  intros ((it & Hit & Hst) & _) Hf.
  destruct (find_ready_in_pending _ _ _ _ _ Hf) as (it' & Hit' & Hst').
  congruence.
Qed.

Lemma in_values_set {V : Type} k (v v' : V) d :
  In v' (PyDict.values (PyDict.set String.eqb k v d)) ->
  v' = v \/ In v' (PyDict.values d).
Proof.
  unfold PyDict.values. rewrite !in_map_iff.
  intros ([k2 v2] & Hv & Hin). simpl in Hv. subst v2.
  destruct (in_set_binding _ _ _ _ _ Hin) as [Heq|Hin'].
  - left. congruence.
  - right. now exists (k2, v').
Qed.

Lemma in_values_del {V : Type} k (v' : V) d :
  In v' (PyDict.values (PyDict.del String.eqb k d)) -> In v' (PyDict.values d).
Proof.
  induction d as [|[k2 v2] d IH]; simpl; [tauto|].
  destruct (String.eqb k k2); simpl; tauto.
Qed.

Lemma get_in_values {V : Type} k (v : V) d :
  PyDict.get String.eqb k d = Some v -> In v (PyDict.values d).
Proof.
  intros H. apply get_in_binding in H. unfold PyDict.values.
  apply in_map_iff. now exists (k, v).
Qed.

Lemma in_set_queue_append qs p a b :
  In a (all_refs qs) -> In a (all_refs (set_queue qs p (queue_of qs p ++ [b]))).
Proof.
  rewrite !in_all_refs. intros [p' H]. exists p'.
  destruct (Priority_eq_dec p p') as [->|Hne].
  - rewrite queue_of_set_queue_same. apply in_app_iff. now left.
  - now rewrite queue_of_set_queue_other.
Qed.


Lemma stranded_intro q q' a :
  (forall it, heap q !! a = Some it -> status it = processing ->
     exists it', heap q' !! a = Some it' /\ status it' = processing) ->
  (In a (all_refs (priority_queues q)) -> In a (all_refs (priority_queues q'))) ->
  (forall b, In b (PyDict.values (processing_map q')) ->
     In b (PyDict.values (processing_map q)) \/ b <> a) ->
  stranded q a -> stranded q' a.
Proof.
  intros Hh Hq Hp ((it & Hit & Hst) & Hin & Hnin).
  split; [eauto|]. split; [auto|].
  intros Hb. destruct (Hp _ Hb) as [H|H]; [contradiction|congruence].
Qed.

Lemma stranded_send_to_overflow q ov item now a :
  stranded q a -> stranded (send_to_overflow q ov item now) a.
Proof. intros H. exact H. Qed.

Lemma stranded_enqueue q item_id now cpu data p cb a :
  stranded q a -> stranded (snd (enqueue q item_id now cpu data p cb)) a.
Proof.
  intros Hs. unfold enqueue.
  destruct (Qgt_bool cpu (cpu_reject_threshold (config q))).
  { destruct (overflow q); [now apply stranded_send_to_overflow|exact Hs]. }
  destruct (if Qgt_bool cpu (cpu_queue_threshold (config q)) then overflow q else None);
    [now apply stranded_send_to_overflow|].
  destruct (_ >=? _).
  { destruct (overflow q); [now apply stranded_send_to_overflow|exact Hs]. }
  cbn [snd]. revert Hs. apply stranded_intro; cbn.
  - intros it Hit Hst. exists it. split; [now apply lookup_app_l_Some|exact Hst].
  - apply in_set_queue_append.
  - intros b Hb. now left.
Qed.

Lemma stranded_dequeue q now a : stranded q a -> stranded (snd (dequeue q now)) a.
Proof.
  intros Hs. pose proof (stranded_not_ready q now a Hs) as Hne.
  unfold dequeued_ref in Hne. unfold dequeue.
  destruct (find_ready_in (heap q) now (priority_queues q) all_priorities) as [a'|];
    [|exact Hs].
  destruct (heap q !! a') as [it'|]; [|exact Hs].
  cbn [snd]. revert Hs. apply stranded_intro; cbn.
  - intros it Hit Hst. exists it.
    rewrite list_lookup_insert_ne by congruence. auto.
  - auto.
  - intros b Hb. destruct (in_values_set _ _ _ _ Hb) as [->|H]; [right|now left].
    congruence.
Qed.

Lemma stranded_with_processing_del q item_id a :
  stranded q a ->
  stranded (with_processing q (PyDict.del String.eqb item_id (processing_map q))) a.
Proof.
  apply stranded_intro; cbn.
  - eauto.
  - auto.
  - intros b Hb. left. eapply in_values_del; eauto.
Qed.

Lemma stranded_nack_item q a' error now a :
  a' <> a -> stranded q a -> stranded (snd (_nack_item q a' error now)) a.
Proof.
  intros Hne Hs. unfold _nack_item.
  destruct (heap q !! a') as [it'|]; [|exact Hs].
  destruct (_ >=? _); cbn [snd]; revert Hs; apply stranded_intro; cbn; auto.
  - intros it Hit Hst. exists it. rewrite list_lookup_insert_ne by congruence. auto.
  - rewrite !in_all_refs. intros [p Hp]. exists p.
    destruct (Priority_eq_dec (priority it') p) as [->|Hp'].
    + rewrite queue_of_set_queue_same. apply in_remove_ref_other; auto.
    + now rewrite queue_of_set_queue_other.
  - intros it Hit Hst. exists it. rewrite list_lookup_insert_ne by congruence. auto.
Qed.

Lemma stranded_ack q item_id now a : stranded q a -> stranded (snd (ack q item_id now)) a.
Proof.
  intros Hs. unfold ack. rewrite pop_get.
  destruct (PyDict.get String.eqb item_id (processing_map q)) as [a'|] eqn:Hget.
  - assert (Hne : a' <> a).
    { intros ->. destruct Hs as (_ & _ & Hnin). apply Hnin.
      eapply get_in_values; eauto. }
    destruct (heap q !! a') as [it'|]; cbn [snd];
      [|now apply stranded_with_processing_del].
    revert Hs. apply stranded_intro; cbn.
    + intros it Hit Hst. exists it. rewrite list_lookup_insert_ne by congruence. auto.
    + rewrite !in_all_refs. intros [p Hp]. exists p.
      destruct (Priority_eq_dec (priority it') p) as [->|Hp'].
      * rewrite queue_of_set_queue_same. apply in_remove_ref_other; auto.
      * now rewrite queue_of_set_queue_other.
    + intros b Hb. left. eapply in_values_del; eauto.
  - destruct (overflow q) as [ov|]; [|now apply stranded_with_processing_del].
    destruct (overflow_ack ov item_id). cbn [snd].
    now apply (stranded_with_processing_del q item_id a).
Qed.

Lemma stranded_nack q item_id error now a :
  stranded q a -> stranded (snd (nack q item_id error now)) a.
Proof.
  intros Hs. unfold nack. rewrite pop_get.
  destruct (PyDict.get String.eqb item_id (processing_map q)) as [a'|] eqn:Hget.
  - apply stranded_nack_item; [|now apply stranded_with_processing_del].
    intros ->. destruct Hs as (_ & _ & Hnin). apply Hnin.
    eapply get_in_values; eauto.
  - destruct (overflow q) as [ov|]; cbn [snd];
      now apply (stranded_with_processing_del q item_id a).
Qed.

Lemma stranded_expire_one now q item_id a :
  stranded q a -> stranded (expire_one now q item_id) a.
Proof.
  intros Hs. unfold expire_one. rewrite pop_get.
  destruct (PyDict.get String.eqb item_id (processing_map q)) as [a'|] eqn:Hget;
    [|exact Hs].
  apply stranded_nack_item; [|now apply stranded_with_processing_del].
  intros ->. destruct Hs as (_ & _ & Hnin). apply Hnin.
  eapply get_in_values; eauto.
Qed.

Lemma stranded_check_lease_timeouts q now a :
  stranded q a -> stranded (_check_lease_timeouts q now) a.
Proof.
  unfold _check_lease_timeouts.
  generalize (map fst (List.filter (lease_expired (heap q) now) (processing_map q))).
  intros ids. revert q. induction ids as [|i ids IH]; intros q Hs; simpl; [exact Hs|].
  apply IH. now apply stranded_expire_one.
Qed.

(** The promotion loop leaves alone every object it is not asked to move. *)
Lemma promote_all_other level refs : forall h qs a,
  ~ In a refs ->
  let '(h', qs', _) := promote_all level refs h qs in
  h' !! a = h !! a
  /\ (In a (all_refs qs) -> In a (all_refs qs')).
Proof.
  induction refs as [|b refs IH]; intros h qs a Hnin; simpl; [auto|].
  assert (Hb : b <> a) by (intros ->; apply Hnin; now left).
  assert (Hrest : ~ In a refs) by (intros H; apply Hnin; now right).
  destruct (h !! b) as [it|] eqn:Hit; [|now apply IH].
  assert (Hq1 : In a (all_refs qs) ->
                In a (all_refs (set_queue qs level (remove_ref b (queue_of qs level))))).
  { rewrite !in_all_refs. intros [p Hp]. exists p.
    destruct (Priority_eq_dec level p) as [->|Hp'].
    - rewrite queue_of_set_queue_same. apply in_remove_ref_other; auto.
    - now rewrite queue_of_set_queue_other. }
  destruct (promoted (priority it)) as [p'|]; [|auto].
  specialize (IH (<[b := with_priority it p']> h)
                 (set_queue (set_queue qs level (remove_ref b (queue_of qs level))) p'
                    (queue_of (set_queue qs level (remove_ref b (queue_of qs level))) p'
                     ++ [b])) a Hrest).
  destruct (promote_all level refs _ _) as [[h' qs'] r].
  destruct IH as [Hh Hq]. split.
  - rewrite Hh. apply list_lookup_insert_ne. exact Hb.
  - intros Hin. apply Hq. apply in_set_queue_append. auto.
Qed.

Lemma stranded_aging q now a :
  stranded q a -> stranded (fst (_check_priority_aging q now)) a.
Proof.
  intros Hs. unfold _check_priority_aging.
  assert (Hgen : forall levels h qs r,
            (exists it, h !! a = Some it /\ status it = processing) ->
            In a (all_refs qs) ->
            let '(h', qs', _) := fold_left (age_level (config q) now) levels (h, qs, r) in
            (exists it, h' !! a = Some it /\ status it = processing)
            /\ In a (all_refs qs')).
  { induction levels as [|l levels IH]; intros h qs r Hh Hq; simpl; [auto|].
    destruct r; [now apply IH|].
    assert (Hnin : ~ In a (List.filter (due (config q) now h) (queue_of qs l))).
    { intros Hin. apply filter_In in Hin. destruct Hin as [_ Hdue].
      unfold due in Hdue. destruct Hh as (it & Hit & Hst). rewrite Hit in Hdue.
      unfold waited_too_long in Hdue. rewrite Hst in Hdue. discriminate. }
    pose proof (promote_all_other l _ h qs a Hnin) as Hstep.
    destruct (promote_all l _ h qs) as [[h1 qs1] r1].
    destruct Hstep as [Hh1 Hq1]. apply IH; [rewrite Hh1; exact Hh|auto]. }
  destruct Hs as (Hh & Hq & Hp).
  specialize (Hgen [HIGH; MEDIUM; LOW; TRIVIAL] (heap q) (priority_queues q) false Hh Hq).
  destruct (fold_left _ _ _) as [[h' qs'] r'].
  destruct Hgen as [Hh' Hq']. cbn [fst]. split; [exact Hh'|]. split; [exact Hq'|exact Hp].
Qed.

Lemma stranded_append_item q it a : stranded q a -> stranded (append_item q it) a.
Proof.
  apply stranded_intro; cbn.
  - intros it' Hit Hst. exists it'. split; [now apply lookup_app_l_Some|exact Hst].
  - apply in_set_queue_append.
  - intros b Hb. now left.
Qed.

Lemma stranded_drain_overflow q batch_size cpu now a :
  stranded q a -> stranded (drain_overflow q batch_size cpu now) a.
Proof.
  intros Hs. unfold drain_overflow.
  destruct (overflow q) as [ov|]; [|exact Hs].
  destruct (_ && _); [|exact Hs].
  destruct (overflow_dequeue ov batch_size now) as [items ov'].
  assert (Hs' : stranded (with_overflow q ov') a) by exact Hs.
  revert Hs'. generalize (with_overflow q ov'). clear.
  induction items as [|it items IH]; intros q Hs; simpl; [exact Hs|].
  apply IH. now apply stranded_append_item.
Qed.

Lemma stranded_drain_tick q batch_size cpu now_db now_aging now_lease a :
  stranded q a -> stranded (drain_tick q batch_size cpu now_db now_aging now_lease) a.
Proof.
  intros Hs. unfold drain_tick.
  pose proof (stranded_aging _ now_aging a
                (stranded_drain_overflow q batch_size cpu now_db a Hs)) as H.
  destruct (_check_priority_aging _ now_aging) as [q2 raised]. cbn [fst] in H.
  destruct raised; [exact H|now apply stranded_check_lease_timeouts].
Qed.

Lemma stranded_call q c a : stranded q a -> stranded (call q c) a.
Proof.
  intros Hs. destruct c; cbn [call].
  - now apply stranded_enqueue.
  - now apply stranded_dequeue.
  - now apply stranded_ack.
  - now apply stranded_nack.
  - now apply stranded_drain_tick.
  - exact Hs.
  - exact Hs.
Qed.

Lemma stranded_calls cs : forall q a, stranded q a -> stranded (calls q cs) a.
Proof.
  induction cs as [|c cs IH]; intros q a Hs; simpl; [exact Hs|].
  apply IH. now apply stranded_call.
Qed.

(** What the drain adds to the object store: items of status
    ['processing'], each referenced from a deque. *)
Lemma drained_are_new q batch_size cpu now a :
  (length (heap q) <= a < length (heap (drain_overflow q batch_size cpu now)))%nat ->
  (exists it, heap (drain_overflow q batch_size cpu now) !! a = Some it
              /\ status it = processing)
  /\ In a (all_refs (priority_queues (drain_overflow q batch_size cpu now)))
  /\ processing_map (drain_overflow q batch_size cpu now) = processing_map q.
Proof.
  unfold drain_overflow.
  destruct (overflow q) as [ov|]; [|lia].
  destruct (_ && _); [|lia].
  unfold overflow_dequeue.
  assert (Hitems : forall rows items,
            items_of_rows rows = Some items ->
            Forall (fun it => status it = processing) items).
  { induction rows as [|r rows IH]; simpl; intros items.
    - intros [= <-]. constructor.
    - unfold item_of_row.
      destruct (priority_of_value (row_priority r)) as [p|]; [|discriminate].
      destruct (priority_of_value (row_original_priority r)) as [op|]; [|discriminate].
      destruct (items_of_rows rows) as [its|]; [|discriminate].
      intros [= <-]. constructor; [reflexivity|now apply IH]. }
  assert (Hfold : forall items q0,
            Forall (fun it => status it = processing) items ->
            processing_map (fold_left append_item items q0) = processing_map q0
            /\ forall a, (length (heap q0) <= a
                          < length (heap (fold_left append_item items q0)))%nat ->
                 (exists it, heap (fold_left append_item items q0) !! a = Some it
                             /\ status it = processing)
                 /\ In a (all_refs (priority_queues (fold_left append_item items q0)))).
  { clear. induction items as [|it items IH]; intros q0 Hall; simpl.
    - split; [reflexivity|]. intros a Ha. lia.
    - inversion Hall as [|? ? Hst Hrest]; subst.
      destruct (IH (append_item q0 it) Hrest) as [Hpm Hnew].
      split; [rewrite Hpm; reflexivity|].
      intros a Ha.
      assert (Hlen : length (heap (append_item q0 it)) = S (length (heap q0))).
      { cbn. rewrite length_app. simpl. lia. }
      destruct (Nat.eq_dec a (length (heap q0))) as [->|Hne].
      + assert (Hs : stranded_like (append_item q0 it) (length (heap q0))).
        { split.
          - exists it. cbn. split; [|exact Hst].
            rewrite lookup_app_r by lia. now rewrite Nat.sub_diag.
          - cbn. apply in_all_refs. exists (priority it).
            rewrite queue_of_set_queue_same. apply in_app_iff. right. now left. }
        revert Hs. generalize (append_item q0 it). clear.
        induction items as [|it' items IH]; intros q1 Hs; simpl; [exact Hs|].
        apply IH. destruct Hs as ((it1 & Hit1 & Hst1) & Hq1). split.
        * exists it1. cbn. split; [now apply lookup_app_l_Some|exact Hst1].
        * cbn. now apply in_set_queue_append.
      + apply Hnew. lia. }
  destruct (db_up ov && (0 <=? batch_size)).
  - destruct (items_of_rows _) as [items|] eqn:Hrows.
    + intros Ha.
      match goal with
      | |- context [fold_left append_item items ?q0] =>
          destruct (Hfold items q0 (Hitems _ _ Hrows)) as [Hpm Hnew]
      end.
      destruct (Hnew a Ha) as [H1 H2]. split; [exact H1|]. split; [exact H2|exact Hpm].
    + simpl. lia.
  - simpl. lia.
Qed.


(** X1. An item the drain loop moves from the overflow table to a memory
    deque arrives with status ['processing'] and without an entry in
    [processing].  Whatever calls follow ([enqueue], [dequeue], [ack],
    [nack], further turns of the drain loop, [get_dlq], [clear_dlq]), it
    keeps that status, stays in its deque, never enters [processing], and
    [dequeue], which hands out ['pending'] items only, never picks it. *)
Theorem drained_items_are_never_dequeued q batch_size cpu now_db a cs now :
  Forall (fun entry => (snd entry < length (heap q))%nat) (processing_map q) ->
  (length (heap q) <= a < length (heap (drain_overflow q batch_size cpu now_db)))%nat ->
  let q' := calls (drain_overflow q batch_size cpu now_db) cs in
  (exists it, heap q' !! a = Some it /\ status it = processing)
  /\ In a (all_refs (priority_queues q'))
  /\ ~ In a (PyDict.values (processing_map q'))
  /\ dequeued_ref q' now <> Some a.
Proof.
  intros Hvalid Ha q'.
  destruct (drained_are_new q batch_size cpu now_db a Ha) as (Hit & Hin & Hpm).
  assert (Hs : stranded (drain_overflow q batch_size cpu now_db) a).
  { split; [exact Hit|]. split; [exact Hin|].
    rewrite Hpm. intros Hb. unfold PyDict.values in Hb.
    apply in_map_iff in Hb. destruct Hb as (entry & Hsnd & Hentry).
    rewrite List.Forall_forall in Hvalid. apply Hvalid in Hentry. lia. }
  pose proof (stranded_calls cs _ a Hs) as Hs'. fold q' in Hs'.
  pose proof (stranded_not_ready q' now a Hs') as Hnr.
  destruct Hs' as (H1 & H2 & H3). auto.
Qed.

(** The request of [Qqms.overflowed], drained at 10% CPU, then a
    [dequeue], a lease check and another [dequeue]. *)
Lemma drained_items_are_never_dequeued_witness :
  let q' := calls (drain_overflow overflowed 10 10 1)
              [CallDequeue 2; CallDrainTick 10 10 100 100 100; CallDequeue 101] in
  (exists it, heap q' !! 0%nat = Some it /\ status it = processing)
  /\ In 0%nat (all_refs (priority_queues q'))
  /\ ~ In 0%nat (PyDict.values (processing_map q'))
  /\ dequeued_ref q' 102 <> Some 0%nat.
Proof.
  apply (drained_items_are_never_dequeued overflowed 10 10 1 0
           [CallDequeue 2; CallDrainTick 10 10 100 100 100; CallDequeue 101] 102).
  - constructor.
  - vm_compute. lia.
Defined.

(** *** The dead-letter list stays bounded *)

Lemma length_trim_dlq max_size l :
  0 <= max_size -> Z.of_nat (length (trim_dlq max_size l)) <= max_size.
Proof. intros H. unfold trim_dlq. rewrite length_skipn. lia. Qed.

(** The configuration is the one given, and the dead-letter list holds at
    most [dlq_max_size] items. *)
Definition dlq_within (cfg : QQMSv2Config) (q : QQMSv2) : Prop :=
  config q = cfg /\ Z.of_nat (length (dead_letters q)) <= dlq_max_size cfg.

Lemma dlq_within_nack_item cfg q a error now :
  0 <= dlq_max_size cfg ->
  dlq_within cfg q -> dlq_within cfg (snd (_nack_item q a error now)).
Proof.
  intros Hmax [Hcfg Hlen]. unfold _nack_item.
  destruct (heap q !! a) as [it|]; [|now split].
  destruct (_ >=? _); cbn [snd]; split; cbn; auto.
  rewrite Hcfg. now apply length_trim_dlq.
Qed.

Lemma dlq_within_enqueue cfg q item_id now cpu data p cb :
  dlq_within cfg q -> dlq_within cfg (snd (enqueue q item_id now cpu data p cb)).
Proof.
  intros H. unfold enqueue, send_to_overflow.
  repeat (match goal with |- context [match ?x with _ => _ end] => destruct x end);
    exact H.
Qed.

Lemma dlq_within_dequeue cfg q now :
  dlq_within cfg q -> dlq_within cfg (snd (dequeue q now)).
Proof.
  intros H. unfold dequeue.
  repeat (match goal with |- context [match ?x with _ => _ end] => destruct x end);
    exact H.
Qed.

Lemma dlq_within_ack cfg q item_id now :
  dlq_within cfg q -> dlq_within cfg (snd (ack q item_id now)).
Proof.
  intros H. unfold ack. rewrite pop_get.
  repeat (match goal with |- context [match ?x with _ => _ end] => destruct x end);
    exact H.
Qed.

Lemma dlq_within_nack cfg q item_id error now :
  0 <= dlq_max_size cfg ->
  dlq_within cfg q -> dlq_within cfg (snd (nack q item_id error now)).
Proof.
  intros Hmax H. unfold nack. rewrite pop_get.
  destruct (PyDict.get String.eqb item_id (processing_map q)) as [a|].
  - now apply dlq_within_nack_item.
  - destruct (overflow q); exact H.
Qed.

Lemma dlq_within_check_lease_timeouts cfg q now :
  0 <= dlq_max_size cfg ->
  dlq_within cfg q -> dlq_within cfg (_check_lease_timeouts q now).
Proof.
  intros Hmax. unfold _check_lease_timeouts.
  generalize (map fst (List.filter (lease_expired (heap q) now) (processing_map q))).
  intros ids. revert q. induction ids as [|i ids IH]; intros q H; simpl; [exact H|].
  apply IH. unfold expire_one. rewrite pop_get.
  destruct (PyDict.get String.eqb i (processing_map q)) as [a|]; [|exact H].
  now apply dlq_within_nack_item.
Qed.

Lemma dlq_within_drain_overflow cfg q batch_size cpu now :
  dlq_within cfg q -> dlq_within cfg (drain_overflow q batch_size cpu now).
Proof.
  intros H. unfold drain_overflow.
  destruct (overflow q) as [ov|]; [|exact H].
  destruct (_ && _); [|exact H].
  destruct (overflow_dequeue ov batch_size now) as [items ov'].
  assert (H' : dlq_within cfg (with_overflow q ov')) by exact H.
  revert H'. generalize (with_overflow q ov'). clear.
  induction items as [|it items IH]; intros q H; simpl; [exact H|].
  apply IH. exact H.
Qed.

Lemma dlq_within_aging cfg q now :
  dlq_within cfg q -> dlq_within cfg (fst (_check_priority_aging q now)).
Proof.
  intros H. unfold _check_priority_aging.
  destruct (fold_left _ _ _) as [[h qs] r]. exact H.
Qed.

Lemma dlq_within_call cfg q c :
  0 <= dlq_max_size cfg -> dlq_within cfg q -> dlq_within cfg (call q c).
Proof.
  intros Hmax H. destruct c; cbn [call].
  - now apply dlq_within_enqueue.
  - now apply dlq_within_dequeue.
  - now apply dlq_within_ack.
  - now apply dlq_within_nack.
  - unfold drain_tick.
    pose proof (dlq_within_aging cfg _ now_aging
                  (dlq_within_drain_overflow cfg q batch_size cpu now_db H)) as H'.
    destruct (_check_priority_aging _ now_aging) as [q2 raised]. cbn [fst] in H'.
    destruct raised; [exact H'|now apply dlq_within_check_lease_timeouts].
  - destruct H as [Hcfg Hlen]. split; [exact Hcfg|]. cbn.
    rewrite Hcfg.
    assert (Hle : (length (List.filter (retained cfg now) (dead_letters q))
                   <= length (dead_letters q))%nat) by apply filter_length_le.
    lia.
  - destruct H as [Hcfg Hlen]. split; [exact Hcfg|]. cbn. lia.
Qed.

Lemma dlq_within_calls cfg cs : forall q,
  0 <= dlq_max_size cfg -> dlq_within cfg q -> dlq_within cfg (calls q cs).
Proof.
  induction cs as [|c cs IH]; intros q Hmax H; simpl; [exact H|].
  apply IH; [exact Hmax|]. now apply dlq_within_call.
Qed.

(** X2. The dead-letter list never holds more than [dlq_max_size] items:
    if it does not at some point, it does not after any sequence of calls
    of the queue's interface and turns of the drain loop. *)
Theorem dead_letters_stay_bounded q cs :
  0 <= dlq_max_size (config q) ->
  Z.of_nat (length (dead_letters q)) <= dlq_max_size (config q) ->
  Z.of_nat (length (dead_letters (calls q cs))) <= dlq_max_size (config q).
Proof.
  intros Hmax Hlen.
  destruct (dlq_within_calls (config q) cs q Hmax (conj eq_refl Hlen)) as [_ H].
  exact H.
Qed.

(** Three failures of one request, at the default configuration. *)
Lemma dead_letters_stay_bounded_witness :
  Z.of_nat (length (dead_letters
     (calls plain_queue
        [CallEnqueue "a" 0 10 "x" MEDIUM None; CallDequeue 1; CallNack "a" "boom" 2;
         CallDequeue 10; CallNack "a" "boom" 11; CallDequeue 20;
         CallNack "a" "boom" 21])))
  <= 500.
Proof.
  apply (dead_letters_stay_bounded plain_queue
           [CallEnqueue "a" 0 10 "x" MEDIUM None; CallDequeue 1; CallNack "a" "boom" 2;
            CallDequeue 10; CallNack "a" "boom" 11; CallDequeue 20;
            CallNack "a" "boom" 21]).
  - vm_compute. discriminate.
  - vm_compute. discriminate.
Defined.


(** *** What a pass of priority aging does *)

(** Every deque refers to objects whose [priority] is the deque's level,
    and no object is referred to twice. *)
Definition aligned (h : list QueueItem) (qs : Queues) : Prop :=
  List.NoDup (all_refs qs)
  /\ forall p a, In a (queue_of qs p) -> exists it, h !! a = Some it /\ priority it = p.

(** [queue.remove(item)] for each of [refs] in turn. *)
Definition remove_refs (refs : list nat) (l : list nat) : list nat :=
  fold_left (fun acc a => remove_ref a acc) refs l.

Lemma remove_ref_absent a l : ~ In a l -> remove_ref a l = l.
Proof.
  induction l as [|b l IH]; simpl; [reflexivity|].
  intros Hnin. destruct (Nat.eqb a b) eqn:E.
  - apply Nat.eqb_eq in E. subst b. exfalso. apply Hnin. now left.
  - f_equal. apply IH. intros H. apply Hnin. now right.
Qed.

Lemma remove_refs_cons refs : forall x l,
  ~ In x refs -> remove_refs refs (x :: l) = x :: remove_refs refs l.
Proof.
  induction refs as [|a refs IH]; intros x l Hnin; simpl; [reflexivity|].
  destruct (Nat.eqb a x) eqn:E.
  - apply Nat.eqb_eq in E. subst a. exfalso. apply Hnin. now left.
  - apply IH. intros H. apply Hnin. now right.
Qed.

(** Removing the selected references of a duplicate-free deque leaves the
    others, in their order. *)
Lemma remove_refs_filter (f : nat -> bool) l :
  List.NoDup l ->
  remove_refs (List.filter f l) l = List.filter (fun a => negb (f a)) l.
Proof.
  induction 1 as [|x l Hx Hnd IH]; simpl; [reflexivity|].
  destruct (f x) eqn:Hf; simpl.
  - rewrite Nat.eqb_refl. exact IH.
  - rewrite remove_refs_cons; [now rewrite IH|].
    intros Hin. apply filter_In in Hin. tauto.
Qed.

Lemma filter_partition_perm (f : nat -> bool) l :
  Permutation (List.filter (fun a => negb (f a)) l ++ List.filter f l) l.
Proof.
  induction l as [|x l IH]; simpl; [reflexivity|].
  destruct (f x); simpl.
  - etransitivity; [symmetry; apply Permutation_middle|]. now constructor.
  - now constructor.
Qed.

Lemma nodup_app_disjoint (l1 l2 : list nat) a :
  List.NoDup (l1 ++ l2) -> In a l1 -> In a l2 -> False.
Proof.
  induction l1 as [|x l1 IH]; simpl; [tauto|].
  intros Hnd. apply NoDup_cons_iff in Hnd. destruct Hnd as [Hx Hnd].
  intros [->|H1] H2.
  - apply Hx. apply in_app_iff. now right.
  - now apply IH.
Qed.

(** In an aligned state a reference sits in one deque only. *)
Lemma aligned_one_queue h qs p p' a :
  aligned h qs -> In a (queue_of qs p) -> In a (queue_of qs p') -> p = p'.
Proof.
  intros [_ Hal] H1 H2.
  destruct (Hal _ _ H1) as (it & Hit & Hp).
  destruct (Hal _ _ H2) as (it' & Hit' & Hp'). congruence.
Qed.

Lemma aligned_nodup_queue h qs p : aligned h qs -> List.NoDup (queue_of qs p).
Proof.
  intros [Hnd _]. unfold all_refs in Hnd.
  destruct p; simpl.
  - eapply NoDup_app_remove_r; eauto.
  - apply NoDup_app_remove_l in Hnd. eapply NoDup_app_remove_r; eauto.
  - do 2 apply NoDup_app_remove_l in Hnd. eapply NoDup_app_remove_r; eauto.
  - do 3 apply NoDup_app_remove_l in Hnd. eapply NoDup_app_remove_r; eauto.
  - do 4 apply NoDup_app_remove_l in Hnd. exact Hnd.
Qed.

(** The objects of [refs] get priority [target], the others are kept. *)
Definition retarget (target : Priority) (refs : list nat) (h h' : list QueueItem) : Prop :=
  forall b,
    (In b refs -> exists it, h !! b = Some it /\ h' !! b = Some (with_priority it target))
    /\ (~ In b refs -> h' !! b = h !! b).

(** The promotion loop on one level of an aligned state. *)
Lemma promote_all_level level target refs : forall h qs,
  promoted level = Some target ->
  List.NoDup refs ->
  (forall a, In a refs -> exists it, h !! a = Some it /\ priority it = level) ->
  exists h' qs',
    promote_all level refs h qs = (h', qs', false)
    /\ retarget target refs h h'
    /\ queue_of qs' level = remove_refs refs (queue_of qs level)
    /\ queue_of qs' target = queue_of qs target ++ refs
    /\ forall p, p <> level -> p <> target -> queue_of qs' p = queue_of qs p.
Proof.
  induction refs as [|a refs IH]; intros h qs Hup Hnd Hal.
  - exists h, qs. simpl. split; [reflexivity|]. split.
    + intros b. split; [intros []|reflexivity].
    + rewrite app_nil_r. auto.
  - apply NoDup_cons_iff in Hnd. destruct Hnd as [Ha Hnd].
    destruct (Hal a (or_introl eq_refl)) as (it & Hit & Hp).
    assert (Hne : level <> target) by (destruct level; inversion Hup; discriminate).
    simpl. rewrite Hit, Hp, Hup.
    set (qs1 := set_queue qs level (remove_ref a (queue_of qs level))).
    set (qs2 := set_queue qs1 target (queue_of qs1 target ++ [a])).
    set (h1 := <[a := with_priority it target]> h).
    destruct (IH h1 qs2 Hup Hnd) as (h' & qs' & Heq & Hre & Hl & Ht & Ho).
    { intros b Hb. destruct (Hal b (or_intror Hb)) as (itb & Hitb & Hpb).
      exists itb. split; [|exact Hpb]. unfold h1.
      rewrite list_lookup_insert_ne; [exact Hitb|]. intros ->. contradiction. }
    exists h', qs'. split; [exact Heq|]. split; [|split; [|split]].
    + intros b. destruct (Hre b) as [Hin Hout]. split.
      * intros [<-|Hb].
        -- exists it. split; [exact Hit|]. rewrite (Hout Ha). unfold h1.
           apply list_lookup_insert_eq. eapply lookup_lt_Some; eauto.
        -- destruct (Hin Hb) as (itb & Hitb & Hitb'). exists itb. split; [|exact Hitb'].
           unfold h1 in Hitb. rewrite list_lookup_insert_ne in Hitb; [exact Hitb|].
           intros ->. contradiction.
      * intros Hb. rewrite Hout by (intros H; apply Hb; now right).
        unfold h1. apply list_lookup_insert_ne. intros ->. apply Hb. now left.
    + rewrite Hl. unfold qs2. rewrite queue_of_set_queue_other by congruence.
      unfold qs1. rewrite queue_of_set_queue_same. reflexivity.
    + rewrite Ht. unfold qs2. rewrite queue_of_set_queue_same.
      unfold qs1. rewrite queue_of_set_queue_other by exact Hne.
      rewrite <- app_assoc. reflexivity.
    + intros p Hpl Hpt. rewrite (Ho p Hpl Hpt). unfold qs2.
      rewrite queue_of_set_queue_other by congruence.
      unfold qs1. now rewrite queue_of_set_queue_other by congruence.
Qed.


(** One round of the outer loop, on a level whose deque and objects are
    still those of the aligned state the pass started from. *)
Lemma age_level_step cfg now h0 qs0 h qs level target :
  aligned h0 qs0 ->
  promoted level = Some target ->
  queue_of qs level = queue_of qs0 level ->
  (forall a, In a (queue_of qs0 level) -> h !! a = h0 !! a) ->
  exists h' qs',
    age_level cfg now (h, qs, false) level = (h', qs', false)
    /\ retarget target (List.filter (due cfg now h0) (queue_of qs0 level)) h h'
    /\ queue_of qs' level
       = List.filter (fun a => negb (due cfg now h0 a)) (queue_of qs0 level)
    /\ queue_of qs' target
       = queue_of qs target ++ List.filter (due cfg now h0) (queue_of qs0 level)
    /\ forall p, p <> level -> p <> target -> queue_of qs' p = queue_of qs p.
Proof.
  intros Hal Hup Hq Hh. unfold age_level. rewrite Hq.
  assert (Hrefs : List.filter (due cfg now h) (queue_of qs0 level)
                  = List.filter (due cfg now h0) (queue_of qs0 level)).
  { apply filter_ext_in. intros a Ha. unfold due. now rewrite (Hh a Ha). }
  rewrite Hrefs.
  destruct (promote_all_level level target
              (List.filter (due cfg now h0) (queue_of qs0 level)) h qs Hup)
    as (h' & qs' & Heq & Hre & Hl & Ht & Ho).
  { apply List.NoDup_filter. eapply aligned_nodup_queue; eauto. }
  { intros a Ha. apply filter_In in Ha. destruct Ha as [Ha _].
    destruct Hal as [_ Hal]. destruct (Hal _ _ Ha) as (it & Hit & Hp).
    exists it. split; [|exact Hp]. now rewrite (Hh a Ha). }
  exists h', qs'. split; [exact Heq|]. split; [exact Hre|]. split; [|auto].
  rewrite Hl, Hq. apply remove_refs_filter. eapply aligned_nodup_queue; eauto.
Qed.

(** The level an item of level [p] is promoted to. *)
Definition one_level_up (p : Priority) : Priority :=
  match promoted p with
  | Some p' => p'
  | None => p
  end.

(** The deques and the object store after a pass over an aligned state. *)
Record Aged (cfg : QQMSv2Config) (now : Q) (h0 : list QueueItem) (qs0 : Queues)
    (h' : list QueueItem) (qs' : Queues) : Prop := {
  aged_critical :
    queue_of qs' CRITICAL
    = queue_of qs0 CRITICAL ++ List.filter (due cfg now h0) (queue_of qs0 HIGH);
  aged_high :
    queue_of qs' HIGH
    = List.filter (fun a => negb (due cfg now h0 a)) (queue_of qs0 HIGH)
      ++ List.filter (due cfg now h0) (queue_of qs0 MEDIUM);
  aged_medium :
    queue_of qs' MEDIUM
    = List.filter (fun a => negb (due cfg now h0 a)) (queue_of qs0 MEDIUM)
      ++ List.filter (due cfg now h0) (queue_of qs0 LOW);
  aged_low :
    queue_of qs' LOW
    = List.filter (fun a => negb (due cfg now h0 a)) (queue_of qs0 LOW)
      ++ List.filter (due cfg now h0) (queue_of qs0 TRIVIAL);
  aged_trivial :
    queue_of qs' TRIVIAL
    = List.filter (fun a => negb (due cfg now h0 a)) (queue_of qs0 TRIVIAL);
  aged_queued :
    forall p a it,
      In a (queue_of qs0 p) -> h0 !! a = Some it ->
      h' !! a = Some (if waited_too_long cfg now it
                      then with_priority it (one_level_up p) else it);
  aged_elsewhere :
    forall a, ~ In a (all_refs qs0) -> h' !! a = h0 !! a
}.

Lemma in_filter_due cfg now h0 l a :
  In a (List.filter (due cfg now h0) l) <-> In a l /\ due cfg now h0 a = true.
Proof. apply filter_In. Qed.

Lemma aging_on_aligned cfg now h0 qs0 :
  aligned h0 qs0 ->
  exists h' qs',
    fold_left (age_level cfg now) [HIGH; MEDIUM; LOW; TRIVIAL] (h0, qs0, false)
    = (h', qs', false)
    /\ Aged cfg now h0 qs0 h' qs'.
Proof.
  intros Hal.
  assert (Hone : forall p p' a, In a (queue_of qs0 p) -> In a (queue_of qs0 p') -> p = p')
    by (intros; eapply aligned_one_queue; eauto).
  set (D := fun p => List.filter (due cfg now h0) (queue_of qs0 p)).
  assert (HD : forall p a, In a (D p) -> In a (queue_of qs0 p)).
  { intros p a Ha. apply filter_In in Ha. tauto. }
  (* HIGH *)
  destruct (age_level_step cfg now h0 qs0 h0 qs0 HIGH CRITICAL Hal eq_refl eq_refl)
    as (h1 & qs1 & E1 & R1 & L1 & T1 & O1); [auto|].
  (* MEDIUM *)
  destruct (age_level_step cfg now h0 qs0 h1 qs1 MEDIUM HIGH Hal eq_refl)
    as (h2 & qs2 & E2 & R2 & L2 & T2 & O2).
  { apply O1; discriminate. }
  { intros a Ha. apply (proj2 (R1 a)). intros Hin. apply HD in Hin.
    discriminate (Hone _ _ _ Ha Hin). }
  (* LOW *)
  destruct (age_level_step cfg now h0 qs0 h2 qs2 LOW MEDIUM Hal eq_refl)
    as (h3 & qs3 & E3 & R3 & L3 & T3 & O3).
  { rewrite O2 by discriminate. apply O1; discriminate. }
  { intros a Ha. rewrite (proj2 (R2 a)), (proj2 (R1 a)); [reflexivity| |];
      intros Hin; apply HD in Hin; discriminate (Hone _ _ _ Ha Hin). }
  (* TRIVIAL *)
  destruct (age_level_step cfg now h0 qs0 h3 qs3 TRIVIAL LOW Hal eq_refl)
    as (h4 & qs4 & E4 & R4 & L4 & T4 & O4).
  { rewrite O3 by discriminate. rewrite O2 by discriminate. apply O1; discriminate. }
  { intros a Ha. rewrite (proj2 (R3 a)), (proj2 (R2 a)), (proj2 (R1 a)); [reflexivity| | |];
      intros Hin; apply HD in Hin; discriminate (Hone _ _ _ Ha Hin). }
  exists h4, qs4. split.
  { cbn [fold_left]. rewrite E1, E2, E3. exact E4. }
  fold (D HIGH) in R1, T1. fold (D MEDIUM) in R2, T2. fold (D LOW) in R3, T3.
  fold (D TRIVIAL) in R4, T4.
  (* the object at [a] after the pass, by the level of its deque *)
  assert (Hkeep : forall a, ~ In a (D HIGH) -> ~ In a (D MEDIUM) -> ~ In a (D LOW) ->
                            ~ In a (D TRIVIAL) -> h4 !! a = h0 !! a).
  { intros a N1 N2 N3 N4.
    now rewrite (proj2 (R4 a) N4), (proj2 (R3 a) N3), (proj2 (R2 a) N2), (proj2 (R1 a) N1). }
  assert (Hother : forall p p' a, In a (queue_of qs0 p) -> p <> p' -> ~ In a (D p')).
  { intros p p' a Ha Hne Hin. apply HD in Hin. apply Hne. eapply Hone; eauto. }
  constructor.
  - rewrite O4 by discriminate. rewrite O3 by discriminate.
    rewrite O2 by discriminate. exact T1.
  - rewrite O4 by discriminate. rewrite O3 by discriminate. rewrite T2, L1. reflexivity.
  - rewrite O4 by discriminate. rewrite T3, L2. reflexivity.
  - rewrite T4, L3. reflexivity.
  - exact L4.
  - intros p a it Ha Hit.
    assert (Hprio : priority it = p).
    { destruct Hal as [_ Hal']. destruct (Hal' _ _ Ha) as (it' & Hit' & Hp). congruence. }
    destruct (waited_too_long cfg now it) eqn:Hw.
    + assert (Hdue : In a (D p)).
      { apply filter_In. split; [exact Ha|]. unfold due. now rewrite Hit. }
      destruct p.
      * unfold waited_too_long in Hw. rewrite Hprio in Hw. simpl in Hw.
        rewrite andb_false_r in Hw. discriminate.
      * destruct (proj1 (R1 a) Hdue) as (it1 & Hit1 & Hit1').
        rewrite (proj2 (R4 a)), (proj2 (R3 a)), (proj2 (R2 a)), Hit1';
          try (eapply Hother; eauto; discriminate).
        unfold one_level_up. simpl. congruence.
      * destruct (proj1 (R2 a) Hdue) as (it1 & Hit1 & Hit1').
        rewrite (proj2 (R1 a)) in Hit1 by (eapply Hother; eauto; discriminate).
        rewrite (proj2 (R4 a)), (proj2 (R3 a)), Hit1';
          try (eapply Hother; eauto; discriminate).
        unfold one_level_up. simpl. congruence.
      * destruct (proj1 (R3 a) Hdue) as (it1 & Hit1 & Hit1').
        rewrite (proj2 (R2 a)), (proj2 (R1 a)) in Hit1
          by (eapply Hother; eauto; discriminate).
        rewrite (proj2 (R4 a)), Hit1'; try (eapply Hother; eauto; discriminate).
        unfold one_level_up. simpl. congruence.
      * destruct (proj1 (R4 a) Hdue) as (it1 & Hit1 & Hit1').
        rewrite (proj2 (R3 a)), (proj2 (R2 a)), (proj2 (R1 a)) in Hit1
          by (eapply Hother; eauto; discriminate).
        rewrite Hit1'. unfold one_level_up. simpl. congruence.
    + rewrite Hkeep; [exact Hit| | | |];
        intros Hin; apply filter_In in Hin; destruct Hin as [_ Hd];
        unfold due in Hd; rewrite Hit in Hd; congruence.
  - intros a Hnin. apply Hkeep; intros Hin; apply HD in Hin; apply Hnin;
      apply in_all_refs; eauto.
Qed.


Lemma aged_aligned cfg now h0 qs0 h' qs' :
  aligned h0 qs0 -> Aged cfg now h0 qs0 h' qs' -> aligned h' qs'.
Proof.
  intros Hal Hag. pose proof Hal as [Hnd Hprio]. split.
  - eapply Permutation_NoDup; [|exact Hnd]. unfold all_refs.
    change (q_critical qs') with (queue_of qs' CRITICAL).
    change (q_high qs') with (queue_of qs' HIGH).
    change (q_medium qs') with (queue_of qs' MEDIUM).
    change (q_low qs') with (queue_of qs' LOW).
    change (q_trivial qs') with (queue_of qs' TRIVIAL).
    rewrite (aged_critical _ _ _ _ _ _ Hag), (aged_high _ _ _ _ _ _ Hag),
      (aged_medium _ _ _ _ _ _ Hag), (aged_low _ _ _ _ _ _ Hag),
      (aged_trivial _ _ _ _ _ _ Hag).
    cbn [queue_of]. rewrite <- !app_assoc.
    apply Permutation_app_head.
    assert (Hstep : forall l rest rest',
              Permutation rest rest' ->
              Permutation (l ++ rest)
                (List.filter (due cfg now h0) l
                 ++ List.filter (fun a => negb (due cfg now h0 a)) l ++ rest')).
    { intros l rest rest' Hr. rewrite app_assoc. apply Permutation_app; [|exact Hr].
      symmetry. etransitivity; [apply Permutation_app_comm|].
      apply filter_partition_perm. }
    apply Hstep. apply Hstep. apply Hstep.
    rewrite <- (app_nil_r (q_trivial qs0)) at 1.
    etransitivity; [apply Hstep; reflexivity|]. now rewrite app_nil_r.
  - intros p a Ha.
    assert (Hcase : forall p0, In a (queue_of qs0 p0) ->
              exists it, h0 !! a = Some it /\ priority it = p0
                /\ h' !! a = Some (if waited_too_long cfg now it
                                   then with_priority it (one_level_up p0) else it)).
    { intros p0 H0. destruct (Hprio _ _ H0) as (it & Hit & Hp). exists it.
      split; [exact Hit|]. split; [exact Hp|].
      eapply aged_queued; eauto. }
    assert (Hmoved : forall p0, In a (List.filter (due cfg now h0) (queue_of qs0 p0)) ->
              exists it', h' !! a = Some it' /\ priority it' = one_level_up p0).
    { intros p0 H0. apply filter_In in H0. destruct H0 as [H0 Hd].
      destruct (Hcase p0 H0) as (it & Hit & Hp & Hit').
      unfold due in Hd. rewrite Hit in Hd. rewrite Hd in Hit'. eauto. }
    assert (Hstay : forall p0,
              In a (List.filter (fun a => negb (due cfg now h0 a)) (queue_of qs0 p0)) ->
              exists it', h' !! a = Some it' /\ priority it' = p0).
    { intros p0 H0. apply filter_In in H0. destruct H0 as [H0 Hd].
      destruct (Hcase p0 H0) as (it & Hit & Hp & Hit').
      unfold due in Hd. rewrite Hit in Hd. apply negb_true_iff in Hd.
      rewrite Hd in Hit'. eauto. }
    destruct p.
    + rewrite (aged_critical _ _ _ _ _ _ Hag) in Ha. apply in_app_iff in Ha.
      destruct Ha as [Ha|Ha]; [|exact (Hmoved HIGH Ha)].
      destruct (Hcase CRITICAL Ha) as (it & Hit & Hp & Hit').
      eexists. split; [exact Hit'|]. destruct (waited_too_long cfg now it); auto.
    + rewrite (aged_high _ _ _ _ _ _ Hag) in Ha. apply in_app_iff in Ha.
      destruct Ha as [Ha|Ha]; [exact (Hstay HIGH Ha)|exact (Hmoved MEDIUM Ha)].
    + rewrite (aged_medium _ _ _ _ _ _ Hag) in Ha. apply in_app_iff in Ha.
      destruct Ha as [Ha|Ha]; [exact (Hstay MEDIUM Ha)|exact (Hmoved LOW Ha)].
    + rewrite (aged_low _ _ _ _ _ _ Hag) in Ha. apply in_app_iff in Ha.
      destruct Ha as [Ha|Ha]; [exact (Hstay LOW Ha)|exact (Hmoved TRIVIAL Ha)].
    + rewrite (aged_trivial _ _ _ _ _ _ Hag) in Ha. exact (Hstay TRIVIAL Ha).
Qed.

(** X3. A pass of priority aging over a queue whose deques are aligned
    with the priorities of their items (each deque holds items of its own
    level, no item twice) does not raise, and moves exactly the items that
    are ['pending'], have waited longer than [age_promotion_ms] and are
    not [CRITICAL]: each goes to the end of the deque one level up, in its
    old order, with its [priority] set to that level; every other item
    keeps its deque, position and fields.  An item moves one level per
    pass, and the deques are aligned again afterwards. *)
Theorem aging_promotes_one_level q now :
  aligned (heap q) (priority_queues q) ->
  let old := priority_queues q in
  let moving p := List.filter (due (config q) now (heap q)) (queue_of old p) in
  let staying p :=
    List.filter (fun a => negb (due (config q) now (heap q) a)) (queue_of old p) in
  let q' := fst (_check_priority_aging q now) in
  snd (_check_priority_aging q now) = false
  /\ queue_of (priority_queues q') CRITICAL = queue_of old CRITICAL ++ moving HIGH
  /\ queue_of (priority_queues q') HIGH = staying HIGH ++ moving MEDIUM
  /\ queue_of (priority_queues q') MEDIUM = staying MEDIUM ++ moving LOW
  /\ queue_of (priority_queues q') LOW = staying LOW ++ moving TRIVIAL
  /\ queue_of (priority_queues q') TRIVIAL = staying TRIVIAL
  /\ (forall p a it,
        In a (queue_of old p) -> heap q !! a = Some it ->
        heap q' !! a
        = Some (if waited_too_long (config q) now it
                then with_priority it (one_level_up p) else it))
  /\ (forall a, ~ In a (all_refs old) -> heap q' !! a = heap q !! a)
  /\ aligned (heap q') (priority_queues q').
Proof.
  intros Hal old moving staying q'.
  destruct (aging_on_aligned (config q) now (heap q) (priority_queues q) Hal)
    as (h' & qs' & Heq & Hag).
  pose proof (aged_aligned _ _ _ _ _ _ Hal Hag) as Hal'.
  subst q'. unfold _check_priority_aging. rewrite Heq. cbn [fst snd heap priority_queues with_memory].
  destruct Hag as [H1 H2 H3 H4 H5 H6 H7].
  repeat split; auto; apply Hal'.
Qed.

(** Two [LOW] requests, admitted at times 0 and 40, and a pass at time 50
    with the default 30 seconds of [age_promotion_ms]. *)
Definition two_waiting : QQMSv2 :=
  snd (enqueue (snd (enqueue plain_queue "a" 0 10 "x" LOW None)) "b" 40 10 "y" LOW None).

Lemma aging_promotes_one_level_witness :
  queue_of (priority_queues (fst (_check_priority_aging two_waiting 50))) MEDIUM = [0%nat]
  /\ queue_of (priority_queues (fst (_check_priority_aging two_waiting 50))) LOW = [1%nat].
Proof.
  assert (Hal : aligned (heap two_waiting) (priority_queues two_waiting)).
  { split.
    - repeat constructor; simpl; intuition discriminate.
    - intros p a. destruct p; simpl; try tauto.
      intros [<-|[<-|[]]]; eexists; (split; [reflexivity|reflexivity]). }
  destruct (aging_promotes_one_level two_waiting 50 Hal)
    as (_ & _ & _ & Hm & Hl & _).
  split; [rewrite Hm|rewrite Hl]; reflexivity.
Defined.


(** *** Which item [dequeue] hands out *)

(** What [dequeue] asks of an item: status ['pending'] and no retry
    scheduled for later than [now]. *)
Definition ready (h : list QueueItem) (now : Q) (a : nat) : bool :=
  match h !! a with
  | Some it =>
      status_eqb (status it) pending
      && negb (truthy_time (next_retry_at it)
               && match next_retry_at it with
                  | Some t => Qgt_bool t now
                  | None => false
                  end)
  | None => false
  end.

Definition none_ready (h : list QueueItem) (now : Q) (l : list nat) : Prop :=
  Forall (fun b => ready h now b = false) l.

Lemma find_ready_none h now queue :
  find_ready h now queue = None <-> none_ready h now queue.
Proof.
  unfold none_ready. induction queue as [|b queue IH]; simpl.
  - split; [constructor|reflexivity].
  - unfold ready at 1. rewrite Forall_cons_iff.
    destruct (h !! b) as [it|]; [|rewrite IH; tauto].
    destruct (status_eqb (status it) pending); simpl; [|rewrite IH; tauto].
    destruct (truthy_time (next_retry_at it) && _); simpl; [rewrite IH; tauto|].
    split; [discriminate|intros [H _]; discriminate].
Qed.

Lemma find_ready_some h now queue a :
  find_ready h now queue = Some a ->
  exists before after,
    queue = before ++ a :: after
    /\ none_ready h now before
    /\ ready h now a = true.
Proof.
  unfold none_ready. induction queue as [|b queue IH]; simpl; [discriminate|].
  intros Hf.
  assert (Hskip : ready h now b = false -> find_ready h now queue = Some a ->
                  exists before after,
                    b :: queue = before ++ a :: after
                    /\ Forall (fun b => ready h now b = false) before
                    /\ ready h now a = true).
  { intros Hb Hq. destruct (IH Hq) as (before & after & -> & Hnone & Ha).
    exists (b :: before), after. split; [reflexivity|]. split; [|exact Ha].
    constructor; assumption. }
  unfold ready in Hskip at 1.
  destruct (h !! b) as [it|] eqn:Hb; [|now apply Hskip].
  destruct (status_eqb (status it) pending) eqn:Hst; simpl in *; [|now apply Hskip].
  destruct (truthy_time (next_retry_at it) && _) eqn:Hlater; simpl in *;
    [now apply Hskip|].
  injection Hf as <-. exists [], queue. split; [reflexivity|]. split; [constructor|].
  unfold ready. now rewrite Hb, Hst, Hlater.
Qed.

Lemma find_ready_in_spec h now qs : forall ps,
  match find_ready_in h now qs ps with
  | Some a =>
      exists done p rest before after,
        ps = done ++ p :: rest
        /\ (forall p', In p' done -> none_ready h now (queue_of qs p'))
        /\ queue_of qs p = before ++ a :: after
        /\ none_ready h now before
        /\ ready h now a = true
  | None => forall p, In p ps -> none_ready h now (queue_of qs p)
  end.
Proof.
  induction ps as [|p ps IH]; simpl; [intros p []|].
  destruct (find_ready h now (queue_of qs p)) as [a|] eqn:Hf.
  - destruct (find_ready_some _ _ _ _ Hf) as (before & after & Hq & Hnone & Ha).
    exists [], p, ps, before, after. simpl. repeat split; auto. intros p' [].
  - apply find_ready_none in Hf.
    destruct (find_ready_in h now qs ps) as [a|].
    + destruct IH as (done & p0 & rest & before & after & -> & Hdone & Hq & Hnone & Ha).
      exists (p :: done), p0, rest, before, after. simpl. repeat split; auto.
      intros p' [<-|Hp']; auto.
    + intros p' [<-|Hp']; auto.
Qed.

(** The reference picked is ready and sits in a deque; without a pick no
    deque holds a ready item. *)
Lemma dequeue_takes_first_ready_aux q now :
  match dequeued_ref q now with
  | Some a =>
      exists p before after,
        queue_of (priority_queues q) p = before ++ a :: after
        /\ none_ready (heap q) now before
        /\ ready (heap q) now a = true
  | None => forall p, none_ready (heap q) now (queue_of (priority_queues q) p)
  end.
Proof.
  unfold dequeued_ref.
  pose proof (find_ready_in_spec (heap q) now (priority_queues q) all_priorities) as Hspec.
  destruct (find_ready_in (heap q) now (priority_queues q) all_priorities) as [a|].
  - destruct Hspec as (done & p & rest & before & after & _ & _ & Hq & Hnone & Ha).
    exists p, before, after. auto.
  - intros p. apply Hspec. destruct p; simpl; auto 10.
Qed.

(** X4. A scan of [dequeue] hands out the first ready item of the most
    urgent level that has one: the items before it in its deque are not
    ready, and no deque of a more urgent level holds a ready item.  The item gets
    status ['processing'], [started_at = now], a lease of
    [lease_timeout_ms], and an entry in [processing].  When no deque
    holds a ready item, the scan finds nothing and changes nothing
    ([dequeue(wait=False)] answers [None]). *)
Theorem dequeue_takes_first_ready q now :
  match dequeued_ref q now with
  | Some a =>
      exists p before after it,
        queue_of (priority_queues q) p = before ++ a :: after
        /\ none_ready (heap q) now before
        /\ (forall p', priority_value p' < priority_value p ->
              none_ready (heap q) now (queue_of (priority_queues q) p'))
        /\ heap q !! a = Some it
        /\ ready (heap q) now a = true
        /\ fst (dequeue q now) = Some (mark_processing (config q) now it)
        /\ heap (snd (dequeue q now)) !! a = Some (mark_processing (config q) now it)
        /\ status (mark_processing (config q) now it) = processing
        /\ lease_expires_at (mark_processing (config q) now it)
           = Some (now + lease_timeout_ms (config q) / 1000)%Q
        /\ PyDict.get String.eqb (id it) (processing_map (snd (dequeue q now))) = Some a
        /\ priority_queues (snd (dequeue q now)) = priority_queues q
  | None =>
      (forall p, none_ready (heap q) now (queue_of (priority_queues q) p))
      /\ dequeue q now = (None, q)
  end.
Proof.
  unfold dequeued_ref, dequeue.
  pose proof (find_ready_in_spec (heap q) now (priority_queues q) all_priorities) as Hspec.
  destruct (find_ready_in (heap q) now (priority_queues q) all_priorities) as [a|].
  - destruct Hspec as (done & p & rest & before & after & Hps & Hdone & Hq & Hnone & Ha).
    assert (Hit : exists it, heap q !! a = Some it).
    { unfold ready in Ha. destruct (heap q !! a) as [it|]; [eauto|discriminate]. }
    destruct Hit as [it Hit]. rewrite Hit.
    exists p, before, after, it. cbn [fst snd heap processing_map priority_queues].
    repeat split; auto.
    + intros p' Hlt. apply Hdone.
      unfold all_priorities in Hps.
      destruct done as [|d1 [|d2 [|d3 [|d4 [|d5 done]]]]];
        simpl in Hps; inversion Hps; subst; simpl in *;
        destruct p'; simpl in *; auto; try lia.
      destruct done; discriminate.
    + apply list_lookup_insert_eq. eapply lookup_lt_Some; eauto.
    + apply PyDict.get_set_same. apply string_eqb_spec.
  - split; [|reflexivity]. intros p. apply Hspec. destruct p; simpl; auto 10.
Qed.


(** *** A request through an idle queue *)

Lemma set_queue_same qs p : set_queue qs p (queue_of qs p) = qs.
Proof. destruct qs, p; reflexivity. Qed.

Lemma set_queue_twice qs p l l' : set_queue (set_queue qs p l) p l' = set_queue qs p l'.
Proof. destruct qs, p; reflexivity. Qed.

Lemma remove_ref_last a l : ~ In a l -> remove_ref a (l ++ [a]) = l.
Proof.
  induction l as [|b l IH]; simpl; intros Hnin.
  - now rewrite Nat.eqb_refl.
  - destruct (Nat.eqb a b) eqn:E.
    + apply Nat.eqb_eq in E. subst b. exfalso. apply Hnin. now left.
    + f_equal. apply IH. intros H. apply Hnin. now right.
Qed.

Lemma del_set_same {V : Type} k (v : V) d :
  PyDict.del String.eqb k (PyDict.set String.eqb k v d) = PyDict.del String.eqb k d.
Proof.
  induction d as [|[k' v'] d IH]; simpl.
  - now rewrite String.eqb_refl.
  - destruct (String.eqb k k') eqn:E; simpl; rewrite E; [reflexivity|now rewrite IH].
Qed.

Lemma ready_app h it now a :
  (a < length h)%nat -> ready (h ++ [it]) now a = ready h now a.
Proof. intros Ha. unfold ready. now rewrite lookup_app_l by exact Ha. Qed.

Lemma Qgt_bool_false x y : (x <= y)%Q -> Qgt_bool x y = false.
Proof.
  intros H. unfold Qgt_bool. apply negb_false_iff. now apply Qle_bool_iff.
Qed.

(** X5. A request through an idle queue.  With the CPU at or below both
    thresholds, room in the memory deques and no item ready at the time of
    the [dequeue]: [enqueue] returns the identifier, the next [dequeue]
    hands out that very request (marked ['processing'], with a lease), and
    [ack] of the identifier answers [True], takes the request out of its
    deque and out of [processing], counts it as processed, adds its
    waiting time and calls its callback with [None]. *)
Theorem enqueue_dequeue_ack_round_trip q item_id t cpu data p cb t1 t2 :
  (cpu <= cpu_queue_threshold (config q))%Q ->
  (cpu <= cpu_reject_threshold (config q))%Q ->
  total_queued (priority_queues q) < max_queue_size (config q) ->
  Forall (fun a => (a < length (heap q))%nat) (all_refs (priority_queues q)) ->
  (forall p', none_ready (heap q) t1 (queue_of (priority_queues q) p')) ->
  let item := new_item item_id t data p cb in
  let q1 := snd (enqueue q item_id t cpu data p cb) in
  let q2 := snd (dequeue q1 t1) in
  let q3 := snd (ack q2 item_id t2) in
  fst (enqueue q item_id t cpu data p cb) = inr item_id
  /\ fst (dequeue q1 t1) = Some (mark_processing (config q) t1 item)
  /\ fst (ack q2 item_id t2) = true
  /\ priority_queues q3 = priority_queues q
  /\ processing_map q3 = PyDict.del String.eqb item_id (processing_map q)
  /\ total_processed q3 = total_processed q + 1
  /\ total_wait_time_ms q3 = (total_wait_time_ms q + (t2 - t) * 1000)%Q
  /\ callback_log q3 = log_callback item CallbackSuccess (callback_log q)
  /\ dead_letters q3 = dead_letters q.
Proof.
  intros Hcpu1 Hcpu2 Hroom Hvalid Hidle item q1 q2 q3.
  set (a := length (heap q)).
  assert (Henq : enqueue q item_id t cpu data p cb
                 = (inr item_id,
                    with_memory q (heap q ++ [item])
                      (set_queue (priority_queues q) p
                         (queue_of (priority_queues q) p ++ [a])))).
  { unfold enqueue. rewrite (Qgt_bool_false _ _ Hcpu2), (Qgt_bool_false _ _ Hcpu1).
    assert (Hlt : (total_queued (priority_queues q) >=? max_queue_size (config q)) = false).
    { rewrite Z.geb_leb. apply Z.leb_gt. exact Hroom. }
    rewrite Hlt. reflexivity. }
  assert (Hq1 : q1 = with_memory q (heap q ++ [item])
                       (set_queue (priority_queues q) p
                          (queue_of (priority_queues q) p ++ [a])))
    by (subst q1; now rewrite Henq).
  assert (Hold : forall b, In b (all_refs (priority_queues q)) -> (b < a)%nat).
  { rewrite List.Forall_forall in Hvalid. exact Hvalid. }
  assert (Hfresh : forall p', ~ In a (queue_of (priority_queues q) p')).
  { intros p' Hin. assert (a < a)%nat; [|lia]. apply Hold. apply in_all_refs. eauto. }
  (* the reference [dequeue] picks *)
  assert (Hpick : dequeued_ref q1 t1 = Some a).
  { pose proof (dequeue_takes_first_ready_aux q1 t1) as Hspec.
    destruct (dequeued_ref q1 t1) as [b|].
    - destruct Hspec as (p0 & before & after & Hq & _ & Hb).
      rewrite Hq1 in Hq, Hb. cbn [with_memory heap priority_queues] in Hq, Hb.
      destruct (Nat.eq_dec b a) as [->|Hne]; [reflexivity|exfalso].
      assert (Hin : In b (queue_of (priority_queues q) p0)).
      { assert (Hb' : In b (queue_of (set_queue (priority_queues q) p
                                        (queue_of (priority_queues q) p ++ [a])) p0)).
        { rewrite Hq. apply in_app_iff. right. now left. }
        destruct (Priority_eq_dec p p0) as [<-|Hp].
        - rewrite queue_of_set_queue_same in Hb'. apply in_app_iff in Hb'.
          destruct Hb' as [H|[H|[]]]; [exact H|congruence].
        - now rewrite queue_of_set_queue_other in Hb' by exact Hp. }
      rewrite ready_app in Hb by (apply Hold, in_all_refs; eauto).
      specialize (Hidle p0). unfold none_ready in Hidle.
      rewrite List.Forall_forall in Hidle. rewrite (Hidle b Hin) in Hb. discriminate.
    - exfalso. specialize (Hspec p). rewrite Hq1 in Hspec.
      cbn [with_memory heap priority_queues] in Hspec.
      rewrite queue_of_set_queue_same in Hspec. unfold none_ready in Hspec.
      rewrite List.Forall_forall in Hspec.
      assert (Ha : ready (heap q ++ [item]) t1 a = false).
      { apply Hspec. apply in_app_iff. right. now left. }
      unfold ready in Ha. rewrite lookup_app_r in Ha by (unfold a; lia).
      unfold a in Ha. rewrite Nat.sub_diag in Ha. discriminate. }
  assert (Hdeq : dequeue q1 t1
                 = (Some (mark_processing (config q) t1 item),
                    {| config := config q;
                       priority_queues := priority_queues q1;
                       heap := <[a := mark_processing (config q) t1 item]> (heap q1);
                       processing_map := PyDict.set String.eqb item_id a (processing_map q);
                       dead_letters := dead_letters q;
                       overflow := overflow q;
                       total_processed := total_processed q;
                       total_retries := total_retries q;
                       total_wait_time_ms := total_wait_time_ms q;
                       callback_log := callback_log q |})).
  { unfold dequeue. unfold dequeued_ref in Hpick. rewrite Hpick.
    assert (Hit : heap q1 !! a = Some item).
    { rewrite Hq1. cbn. rewrite lookup_app_r by (unfold a; lia).
      unfold a. now rewrite Nat.sub_diag. }
    rewrite Hit. rewrite Hq1. reflexivity. }
  assert (Hq2 : q2 = snd (dequeue q1 t1)) by reflexivity.
  rewrite Hdeq in Hq2. cbn [snd] in Hq2.
  assert (Hack : ack q2 item_id t2
                 = (true,
                    {| config := config q;
                       priority_queues := priority_queues q;
                       heap := <[a := mark_completed (mark_processing (config q) t1 item)]>
                                 (heap q2);
                       processing_map := PyDict.del String.eqb item_id (processing_map q);
                       dead_letters := dead_letters q;
                       overflow := overflow q;
                       total_processed := total_processed q + 1;
                       total_retries := total_retries q;
                       total_wait_time_ms := (total_wait_time_ms q + (t2 - t) * 1000)%Q;
                       callback_log := log_callback item CallbackSuccess (callback_log q) |})).
  { unfold ack. rewrite pop_get. rewrite Hq2. cbn [processing_map heap].
    rewrite PyDict.get_set_same by apply string_eqb_spec.
    assert (Hit : <[a := mark_processing (config q) t1 item]> (heap q1) !! a
                  = Some (mark_processing (config q) t1 item)).
    { apply list_lookup_insert_eq. rewrite Hq1. cbn. rewrite length_app. simpl.
      unfold a. lia. }
    rewrite Hit. cbn -[PyDict.del PyDict.set]. rewrite del_set_same.
    rewrite Hq1. cbn [with_memory priority_queues].
    rewrite queue_of_set_queue_same, set_queue_twice.
    rewrite remove_ref_last by apply Hfresh.
    rewrite set_queue_same. reflexivity. }
  subst q3. rewrite Henq, Hdeq, Hack. cbn. repeat split; reflexivity.
Qed.


Lemma enqueue_dequeue_ack_round_trip_witness :
  let q1 := snd (enqueue plain_queue "a" 0 10 "x" MEDIUM None) in
  let q2 := snd (dequeue q1 1) in
  fst (ack q2 "a" 2) = true
  /\ total_processed (snd (ack q2 "a" 2)) = 1
  /\ priority_queues (snd (ack q2 "a" 2)) = empty_queues.
Proof.
  destruct (enqueue_dequeue_ack_round_trip plain_queue "a" 0 10 "x" MEDIUM None 1 2)
    as (_ & _ & H3 & H4 & _ & H6 & _).
  - unfold Qle. simpl. lia.
  - unfold Qle. simpl. lia.
  - reflexivity.
  - constructor.
  - intros p'. destruct p'; constructor.
  - split; [exact H3|]. split; [exact H6|exact H4].
Defined.

(** *** Expired leases *)

















End QqmsMaintenance.

(** ** qqms_v2.py: [acquire_throttle], the token bucket *)

Module QqmsThrottle.
Import Qqms.

(** The throttling fields of [QQMSv2Config]. *)
Record ThrottleConfig := {
  base_delay_ms : Q;
  max_requests_per_second : Q;
  burst_limit : Z;
  priority_delay_multiplier : list (Z * Q)
}.

(** The dataclass defaults. *)
Definition default_throttle : ThrottleConfig := {|
  base_delay_ms := 50;
  max_requests_per_second := 20;
  burst_limit := 10;
  priority_delay_multiplier :=
    [(0, (1 # 10)%Q); (1, (1 # 2)%Q); (2, 1%Q); (3, 2%Q); (4, 4%Q)]
|}.

(** [self.tokens], [self.last_token_time], [self.throttle_events] *)
Record Bucket := {
  tokens : Q;
  last_token_time : Q;
  throttle_events : Z
}.

(** The bucket [QQMSv2.__init__] builds at time [now]. *)
Definition new_bucket (cfg : ThrottleConfig) (now : Q) : Bucket :=
  {| tokens := inject_Z (burst_limit cfg); last_token_time := now; throttle_events := 0 |}.

(** [_refill_tokens] *)
Definition _refill_tokens (cfg : ThrottleConfig) (b : Bucket) (now : Q) : Bucket :=
  {| tokens := Qmin (inject_Z (burst_limit cfg))
                    (tokens b + (now - last_token_time b) * max_requests_per_second cfg);
     last_token_time := now;
     throttle_events := throttle_events b |}.

(** [_get_cpu_multiplier], on the CPU usage read *)
Definition _get_cpu_multiplier (cpu : Q) : Q :=
  if Qgt_bool cpu 85 then 10
  else if Qgt_bool cpu 70 then 4
  else if Qgt_bool cpu 50 then 2
  else if Qgt_bool cpu 30 then 3 # 2
  else 1.

(** [config.priority_delay_multiplier.get(int(priority), 1.0)] *)
Definition priority_multiplier (cfg : ThrottleConfig) (p : Priority) : Q :=
  match PyDict.get Z.eqb (priority_value p) (priority_delay_multiplier cfg) with
  | Some m => m
  | None => 1
  end.

(** [base_delay * cpu_multiplier], in milliseconds *)
Definition priority_delay_ms (cfg : ThrottleConfig) (cpu : Q) (p : Priority) : Q :=
  base_delay_ms cfg * priority_multiplier cfg p * _get_cpu_multiplier cpu.

(** [QQMSv2.acquire_throttle]: the delay in seconds and the bucket
    afterwards.  The delay is [None] when the division by
    [max_requests_per_second] raises [ZeroDivisionError]. *)
Definition acquire_throttle (cfg : ThrottleConfig) (b : Bucket) (now cpu : Q) (p : Priority)
  : option Q * Bucket :=
  let b1 := _refill_tokens cfg b now in
  let events :=
    if Qgt_bool (_get_cpu_multiplier cpu) 1
    then throttle_events b1 + 1 else throttle_events b1 in
  let delay_ms := priority_delay_ms cfg cpu p in
  if Qgt_bool 1 (tokens b1) then
    if Qeq_bool (max_requests_per_second cfg) 0 then
      (None,
       {| tokens := tokens b1; last_token_time := now; throttle_events := events |})
    else
      (Some ((delay_ms + (1 - tokens b1) / max_requests_per_second cfg * 1000) / 1000)%Q,
       {| tokens := 0; last_token_time := now; throttle_events := events |})
  else
    (Some (delay_ms / 1000)%Q,
     {| tokens := tokens b1 - 1; last_token_time := now; throttle_events := events |}).

(** Calls one after the other, each with its time, CPU reading and
    priority: the delays returned and the bucket at the end. *)
Fixpoint acquire_all (cfg : ThrottleConfig) (b : Bucket) (calls : list (Q * Q * Priority))
  : list (option Q) * Bucket :=
  match calls with
  | [] => ([], b)
  | (now, cpu, p) :: rest =>
      let '(d, b1) := acquire_throttle cfg b now cpu p in
      let '(ds, b2) := acquire_all cfg b1 rest in
      (d :: ds, b2)
  end.

(** *** Bounds *)

Lemma Qgt_bool_false_iff x y : Qgt_bool x y = false <-> (x <= y)%Q.
Proof.
  unfold Qgt_bool. rewrite negb_false_iff. apply Qle_bool_iff.
Qed.

Lemma cpu_multiplier_range cpu :
  (1 <= _get_cpu_multiplier cpu)%Q /\ (_get_cpu_multiplier cpu <= 10)%Q.
Proof.
  unfold _get_cpu_multiplier.
  repeat (match goal with |- context [if ?c then _ else _] => destruct c end);
    split; unfold Qle; simpl; lia.
Qed.

Lemma refill_upper cfg b now :
  (tokens (_refill_tokens cfg b now) <= inject_Z (burst_limit cfg))%Q.
Proof. cbn. apply Q.le_min_l. Qed.

Lemma refill_lower cfg b now :
  (0 <= max_requests_per_second cfg)%Q ->
  (last_token_time b <= now)%Q ->
  (Qmin (inject_Z (burst_limit cfg)) (tokens b) <= tokens (_refill_tokens cfg b now))%Q.
Proof.
  intros Hrate Hclock. cbn. apply Q.min_le_compat_l.
  assert (0 <= (now - last_token_time b) * max_requests_per_second cfg)%Q.
  { apply Qmult_le_0_compat; [Lqa.lra|exact Hrate]. }
  Lqa.lra.
Qed.

(** X7. [acquire_throttle] keeps the bucket between 0 and [burst_limit]
    tokens and, for a bucket that is not negative, a clock that does not
    run backwards and a positive rate, waits at least the priority's
    delay ([base_delay_ms] times the priority's multiplier) and at most
    ten times that delay plus the time of one token
    ([1 / max_requests_per_second] seconds). *)
Theorem acquire_throttle_bounds cfg b now cpu p :
  0 <= burst_limit cfg ->
  (0 < max_requests_per_second cfg)%Q ->
  (0 <= base_delay_ms cfg * priority_multiplier cfg p)%Q ->
  (0 <= tokens b)%Q ->
  (last_token_time b <= now)%Q ->
  exists delay,
    fst (acquire_throttle cfg b now cpu p) = Some delay
    /\ (base_delay_ms cfg * priority_multiplier cfg p / 1000 <= delay)%Q
    /\ (delay <= (10 * (base_delay_ms cfg * priority_multiplier cfg p)
                  + 1000 / max_requests_per_second cfg) / 1000)%Q
    /\ (0 <= tokens (snd (acquire_throttle cfg b now cpu p)))%Q
    /\ (tokens (snd (acquire_throttle cfg b now cpu p)) <= inject_Z (burst_limit cfg))%Q
    /\ last_token_time (snd (acquire_throttle cfg b now cpu p)) = now.
Proof.
  intros Hburst Hrate Hbase Htok Hclock.
  pose proof (refill_upper cfg b now) as Hup.
  pose proof (refill_lower cfg b now (Qlt_le_weak _ _ Hrate) Hclock) as Hlow.
  pose proof (cpu_multiplier_range cpu) as [Hc1 Hc10].
  assert (Hb0 : (0 <= inject_Z (burst_limit cfg))%Q).
  { unfold Qle. simpl. lia. }
  assert (Hmin0 : (0 <= Qmin (inject_Z (burst_limit cfg)) (tokens b))%Q)
    by (apply Q.min_glb; assumption).
  unfold acquire_throttle, priority_delay_ms.
  set (t1 := tokens (_refill_tokens cfg b now)) in *.
  set (bp := (base_delay_ms cfg * priority_multiplier cfg p)%Q) in *.
  set (cm := _get_cpu_multiplier cpu) in *.
  set (rate := max_requests_per_second cfg) in *.
  assert (Hprod : (bp <= bp * cm)%Q /\ (bp * cm <= 10 * bp)%Q) by (split; Lqa.nra).
  destruct Hprod as [Hp1 Hp2].
  assert (Hir : (0 < / rate)%Q) by (apply Qinv_lt_0_compat; exact Hrate).
  destruct (Qgt_bool 1 t1) eqn:Hlt.
  - apply Qgt_bool_iff in Hlt.
    assert (Hr0 : Qeq_bool rate 0 = false).
    { apply not_true_iff_false. intros H. apply Qeq_bool_iff in H. Lqa.lra. }
    rewrite Hr0. cbn [fst snd tokens last_token_time]. eexists. split; [reflexivity|].
    unfold Qdiv. set (ir := (/ rate)%Q) in *.
    assert (Hw0 : (0 <= (1 - t1) * ir)%Q) by Lqa.nra.
    assert (Hw1 : ((1 - t1) * ir <= ir)%Q) by Lqa.nra.
    repeat split; try Lqa.lra;
      (apply Qmult_le_compat_r; [Lqa.lra|unfold Qle; simpl; lia]).
  - apply Qgt_bool_false_iff in Hlt.
    cbn [fst snd tokens last_token_time]. eexists. split; [reflexivity|].
    unfold Qdiv. set (ir := (/ rate)%Q) in *.
    repeat split; try Lqa.lra;
      (apply Qmult_le_compat_r; [Lqa.lra|unfold Qle; simpl; lia]).
Qed.


Lemma acquire_throttle_bounds_witness :
  exists delay,
    fst (acquire_throttle default_throttle (new_bucket default_throttle 0) 1 90 LOW)
    = Some delay
    /\ (delay <= (10 * (50 * 2) + 1000 / 20) / 1000)%Q.
Proof.
  destruct (acquire_throttle_bounds default_throttle (new_bucket default_throttle 0) 1 90 LOW)
    as (delay & Hd & _ & Hup & _).
  - discriminate.
  - reflexivity.
  - discriminate.
  - discriminate.
  - discriminate.
  - exists delay. split; [exact Hd|exact Hup].
Defined.

(** *** The burst allowance *)

(** The times of the calls do not go back, starting from [t]. *)
Fixpoint clock_ok (t : Q) (calls : list (Q * Q * Priority)) : Prop :=
  match calls with
  | [] => True
  | (now, _, _) :: rest => (t <= now)%Q /\ clock_ok now rest
  end.

(** The delay of a call that does not wait for a token. *)
Definition unthrottled (cfg : ThrottleConfig) (c : Q * Q * Priority) : option Q :=
  let '(_, cpu, p) := c in Some (priority_delay_ms cfg cpu p / 1000)%Q.

Lemma burst_from cfg calls : forall b,
  (0 <= max_requests_per_second cfg)%Q ->
  clock_ok (last_token_time b) calls ->
  Z.of_nat (length calls) <= burst_limit cfg ->
  (inject_Z (Z.of_nat (length calls)) <= tokens b)%Q ->
  fst (acquire_all cfg b calls) = map (unthrottled cfg) calls.
Proof.
  induction calls as [|[[now cpu] p] calls IH]; intros b Hrate Hclock Hlen Htok;
    [reflexivity|].
  destruct Hclock as [Hnow Hclock].
  cbn [acquire_all map unthrottled].
  pose proof (refill_lower cfg b now Hrate Hnow) as Hlow.
  assert (Hn : (inject_Z (Z.of_nat (length ((now, cpu, p) :: calls)))
                <= tokens (_refill_tokens cfg b now))%Q).
  { eapply Qle_trans; [|exact Hlow]. apply Q.min_glb; [|exact Htok].
    unfold Qle. simpl. simpl in Hlen. lia. }
  assert (Hsucc : (inject_Z (Z.of_nat (length ((now, cpu, p) :: calls)))
                   == inject_Z (Z.of_nat (length calls)) + 1)%Q).
  { cbn [length]. rewrite Nat2Z.inj_succ. unfold Z.succ. rewrite inject_Z_plus.
    reflexivity. }
  assert (H0 : (0 <= inject_Z (Z.of_nat (length calls)))%Q).
  { unfold Qle. simpl. lia. }
  unfold acquire_throttle.
  assert (Hge : Qgt_bool 1 (tokens (_refill_tokens cfg b now)) = false).
  { apply Qgt_bool_false_iff. Lqa.lra. }
  rewrite Hge.
  specialize (IH {| tokens := tokens (_refill_tokens cfg b now) - 1;
                    last_token_time := now;
                    throttle_events :=
                      if Qgt_bool (_get_cpu_multiplier cpu) 1
                      then throttle_events (_refill_tokens cfg b now) + 1
                      else throttle_events (_refill_tokens cfg b now) |}
                 Hrate Hclock).
  destruct (acquire_all cfg _ calls) as [ds b2]. cbn [fst] in *.
  rewrite IH; [reflexivity| |].
  - simpl in Hlen. lia.
  - cbn [tokens]. Lqa.lra.
Qed.

(** X8. The burst allowance.  From a full bucket, the first
    [burst_limit] calls (at times that do not go back) are never delayed
    for want of a token: each waits its priority delay only,
    [base_delay_ms] times the priority's multiplier times the CPU
    multiplier. *)
Theorem burst_passes_without_token_wait cfg t0 calls :
  (0 <= max_requests_per_second cfg)%Q ->
  clock_ok t0 calls ->
  Z.of_nat (length calls) <= burst_limit cfg ->
  fst (acquire_all cfg (new_bucket cfg t0) calls) = map (unthrottled cfg) calls.
Proof.
  intros Hrate Hclock Hlen. apply burst_from; auto.
  cbn [tokens new_bucket]. unfold Qle. simpl. lia.
Qed.

(** Ten calls at the same instant, at the defaults. *)
Lemma burst_passes_without_token_wait_witness :
  fst (acquire_all default_throttle (new_bucket default_throttle 0)
         (repeat (0%Q, 10%Q, MEDIUM) 10))
  = repeat (Some (50 * 1 * 1 / 1000)%Q) 10.
Proof.
  rewrite (burst_passes_without_token_wait default_throttle 0
             (repeat (0%Q, 10%Q, MEDIUM) 10)).
  - reflexivity.
  - discriminate.
  - simpl. repeat split; discriminate.
  - simpl. lia.
Defined.

End QqmsThrottle.

(** ** qqms_v2.py, frankenstein-embeddings.py: [CPUMonitor]

    The class is the same in both files. *)

Module CpuMonitor.

(** The counters [_read_cpu_times] takes from the first line of
    [/proc/stat]; [iowait] is read when the line has a sixth field. *)
Record ProcStat := {
  user : Q;
  nice : Q;
  system : Q;
  idle : Q;
  iowait : option Q
}.

Definition iowait_or_zero (r : ProcStat) : Q :=
  match iowait r with
  | Some x => x
  | None => 0
  end.

(** [_read_cpu_times]: [(busy, total)]; [None] when the file cannot be
    read or its first line is not a [cpu] line. *)
Definition _read_cpu_times (reading : option ProcStat) : option (Q * Q) :=
  match reading with
  | Some r =>
      Some (user r + nice r + system r,
            user r + nice r + system r + idle r + iowait_or_zero r)%Q
  | None => None
  end.

(** [class CPUMonitor] *)
Record CPUMonitor := {
  sample_interval_ms : Q;
  last_check_time : Q;
  last_cpu_times : option (Q * Q);
  current_usage : Q;
  usage_history : list Q
}.

(** [CPUMonitor.__init__] *)
Definition new_monitor : CPUMonitor :=
  {| sample_interval_ms := 100; last_check_time := 0; last_cpu_times := None;
     current_usage := 0; usage_history := [] |}.

(** [append] on a [deque(maxlen=n)] *)
Definition push_bounded (n : nat) (x : Q) (l : list Q) : list Q :=
  skipn (length (l ++ [x]) - n) (l ++ [x]).

(** [get_cpu_usage]: the usage returned and the monitor afterwards. *)
Definition get_cpu_usage (m : CPUMonitor) (now : Q) (reading : option ProcStat)
  : Q * CPUMonitor :=
  if Qgt_bool (sample_interval_ms m / 1000) (now - last_check_time m)
  then (current_usage m, m)
  else
    match _read_cpu_times reading with
    | None => (current_usage m, m)
    | Some (busy, total) =>
        let '(usage, history) :=
          match last_cpu_times m with
          | Some (busy0, total0) =>
              if Qgt_bool (total - total0) 0
              then (((busy - busy0) / (total - total0) * 100)%Q,
                    push_bounded 10 ((busy - busy0) / (total - total0) * 100)%Q
                                 (usage_history m))
              else (current_usage m, usage_history m)
          | None => (current_usage m, usage_history m)
          end in
        (usage,
         {| sample_interval_ms := sample_interval_ms m;
            last_check_time := now;
            last_cpu_times := Some (busy, total);
            current_usage := usage;
            usage_history := history |})
    end.

Definition Qsum (l : list Q) : Q := fold_right Qplus 0%Q l.

(** [get_average_usage] *)
Definition get_average_usage (m : CPUMonitor) (now : Q) (reading : option ProcStat)
  : Q * CPUMonitor :=
  match usage_history m with
  | [] => get_cpu_usage m now reading
  | _ => ((Qsum (usage_history m) / inject_Z (Z.of_nat (length (usage_history m))))%Q, m)
  end.

(** [is_overloaded(threshold)] *)
Definition is_overloaded (m : CPUMonitor) (now : Q) (reading : option ProcStat)
    (threshold : Q) : bool * CPUMonitor :=
  let '(usage, m') := get_cpu_usage m now reading in (Qgt_bool usage threshold, m').

(** Calls of [get_cpu_usage] one after the other: the usages returned. *)
Fixpoint sample_all (m : CPUMonitor) (samples : list (Q * option ProcStat)) : list Q :=
  match samples with
  | [] => []
  | (now, reading) :: rest =>
      let '(usage, m') := get_cpu_usage m now reading in
      usage :: sample_all m' rest
  end.

(** *** The usage is a percentage *)

(** No counter of [r2] is below the one of [r1]. *)
Definition counters_le (r1 r2 : ProcStat) : Prop :=
  (user r1 <= user r2)%Q /\ (nice r1 <= nice r2)%Q /\ (system r1 <= system r2)%Q
  /\ (idle r1 <= idle r2)%Q /\ (iowait_or_zero r1 <= iowait_or_zero r2)%Q.

(** The first line of [/proc/stat] at each call where it can be read, in
    the order of the calls. *)
Fixpoint readings (samples : list (Q * option ProcStat)) : list ProcStat :=
  match samples with
  | [] => []
  | (_, Some r) :: rest => r :: readings rest
  | (_, None) :: rest => readings rest
  end.

Definition percentage (x : Q) : Prop := (0 <= x)%Q /\ (x <= 100)%Q.

Definition sane (m : CPUMonitor) : Prop :=
  percentage (current_usage m)
  /\ Forall percentage (usage_history m)
  /\ (length (usage_history m) <= 10)%nat.

Lemma ratio_percentage (bd td : Q) :
  (0 <= bd)%Q -> (bd <= td)%Q -> (0 < td)%Q -> percentage (bd / td * 100).
Proof.
  intros H0 H1 Htd. unfold percentage, Qdiv.
  assert (Hi : (0 < / td)%Q) by (apply Qinv_lt_0_compat; exact Htd).
  assert (E : (td * / td == 1)%Q) by (apply Qmult_inv_r; Lqa.lra).
  set (i := (/ td)%Q) in *.
  assert (Hle : (bd * i <= td * i)%Q) by Lqa.nra.
  assert (Hge : (0 <= bd * i)%Q) by Lqa.nra.
  split; Lqa.lra.
Qed.

Lemma push_bounded_sane x l :
  percentage x -> Forall percentage l ->
  Forall percentage (push_bounded 10 x l) /\ (length (push_bounded 10 x l) <= 10)%nat.
Proof.
  intros Hx Hl. unfold push_bounded. split.
  - apply List.Forall_forall. intros y Hy.
    assert (Hin : In y (l ++ [x])).
    { rewrite <- (firstn_skipn (length (l ++ [x]) - 10) (l ++ [x])).
      apply in_app_iff. now right. }
    apply in_app_iff in Hin. destruct Hin as [Hin|[<-|[]]]; [|exact Hx].
    rewrite List.Forall_forall in Hl. now apply Hl.
  - rewrite length_skipn. lia.
Qed.

(** One call, when the line read is not behind the one kept. *)
Lemma get_cpu_usage_sane m now reading :
  sane m ->
  (forall busy0 total0 r,
     last_cpu_times m = Some (busy0, total0) -> reading = Some r ->
     (busy0 <= user r + nice r + system r)%Q
     /\ (user r + nice r + system r - busy0
         <= user r + nice r + system r + idle r + iowait_or_zero r - total0)%Q) ->
  sane (snd (get_cpu_usage m now reading))
  /\ fst (get_cpu_usage m now reading) = current_usage (snd (get_cpu_usage m now reading)).
Proof.
  intros Hs Hadv. unfold get_cpu_usage.
  destruct (Qgt_bool _ _); [auto|].
  destruct reading as [r|]; cbn [_read_cpu_times]; [|auto].
  destruct (last_cpu_times m) as [[busy0 total0]|] eqn:Hlast.
  - destruct (Hadv busy0 total0 r eq_refl eq_refl) as [Hb Ht].
    destruct (Qgt_bool _ 0) eqn:Hpos; cbn [fst snd current_usage usage_history].
    + apply Qgt_bool_iff in Hpos.
      assert (Hp : percentage
                     ((user r + nice r + system r - busy0)
                      / (user r + nice r + system r + idle r + iowait_or_zero r - total0)
                      * 100)).
      { apply ratio_percentage; [Lqa.lra|exact Ht|exact Hpos]. }
      destruct Hs as (_ & Hh & _).
      destruct (push_bounded_sane _ _ Hp Hh) as [H1 H2].
      split; [|reflexivity]. split; [exact Hp|]. split; assumption.
    + split; [exact Hs|reflexivity].
  - cbn [fst snd]. split; [exact Hs|reflexivity].
Qed.

(** The invariant of a run: the monitor is sane and the line it keeps is
    not ahead of any line still to be read. *)
Definition behind (m : CPUMonitor) (rest : list ProcStat) : Prop :=
  match last_cpu_times m with
  | None => True
  | Some (busy0, total0) =>
      exists r0,
        busy0 = (user r0 + nice r0 + system r0)%Q
        /\ total0 = (user r0 + nice r0 + system r0 + idle r0 + iowait_or_zero r0)%Q
        /\ Forall (counters_le r0) rest
  end.

Lemma sample_all_percentages samples : forall m,
  sane m ->
  behind m (readings samples) ->
  StronglySorted counters_le (readings samples) ->
  Forall percentage (sample_all m samples).
Proof.
  induction samples as [|[now reading] samples IH]; intros m Hs Hb Hsorted;
    [constructor|].
  cbn [sample_all].
  assert (Hadv : forall busy0 total0 r,
            last_cpu_times m = Some (busy0, total0) -> reading = Some r ->
            (busy0 <= user r + nice r + system r)%Q
            /\ (user r + nice r + system r - busy0
                <= user r + nice r + system r + idle r + iowait_or_zero r - total0)%Q).
  { intros busy0 total0 r Hlast ->. unfold behind in Hb. rewrite Hlast in Hb.
    destruct Hb as (r0 & -> & -> & Hall). cbn [readings] in Hall.
    inversion Hall as [|? ? (H1 & H2 & H3 & H4 & H5) _]; subst.
    split; Lqa.lra. }
  destruct (get_cpu_usage_sane m now reading Hs Hadv) as [Hs' Hret].
  assert (Hb' : behind (snd (get_cpu_usage m now reading)) (readings samples)
                /\ StronglySorted counters_le (readings samples)).
  { unfold get_cpu_usage.
    destruct (Qgt_bool _ _).
    - cbn [snd]. destruct reading as [r|]; cbn [readings] in *.
      + inversion Hsorted as [|? ? Hs1 Hs2]; subst. split; [|exact Hs1].
        unfold behind in *. destruct (last_cpu_times m) as [[b0 t0]|]; [|exact I].
        destruct Hb as (r0 & E1 & E2 & Hall). exists r0.
        inversion Hall; subst. auto.
      + auto.
    - destruct reading as [r|]; cbn [_read_cpu_times readings] in *.
      + inversion Hsorted as [|? ? Hs1 Hs2]; subst. split; [|exact Hs1].
        destruct (match last_cpu_times m with
                  | Some (busy0, total0) => _
                  | None => _
                  end) as [usage history].
        cbn [snd]. unfold behind. cbn [last_cpu_times]. exists r. auto.
      + cbn [snd]. auto. }
  destruct Hb' as [Hb' Hsorted'].
  destruct (get_cpu_usage m now reading) as [usage m'] eqn:Hcall.
  cbn [fst snd] in *. constructor.
  - rewrite Hret. apply Hs'.
  - now apply IH.
Qed.

(** X9. As long as the counters of [/proc/stat] do not go back from one
    call to a later one, every usage [get_cpu_usage] returns lies between
    0 and 100, whatever the times of the calls and whichever reads
    fail. *)
Theorem cpu_usage_is_a_percentage samples :
  StronglySorted counters_le (readings samples) ->
  Forall percentage (sample_all new_monitor samples).
Proof.
  intros Hsorted. apply sample_all_percentages; [|exact I|exact Hsorted].
  split; [|split]; cbn.
  - split; discriminate.
  - constructor.
  - lia.
Qed.

(** Two lines a second apart: 30 of the 100 ticks in between were busy. *)
Lemma cpu_usage_is_a_percentage_witness :
  Forall percentage
    (sample_all new_monitor
       [(1%Q, Some {| user := 100; nice := 0; system := 50; idle := 800;
                      iowait := Some 50%Q |});
        (2%Q, Some {| user := 120; nice := 0; system := 60; idle := 865;
                      iowait := Some 55%Q |})]).
Proof.
  apply cpu_usage_is_a_percentage. cbn [readings].
  repeat constructor; cbn; discriminate.
Defined.

End CpuMonitor.

(** ** frankenstein-embeddings.py: the two tiers of the disk cache *)

Module CacheTiers.
Import DiskCache.

(** *** Sizes of dictionaries *)

Lemma length_set_le {K V : Type} (eqb : K -> K -> bool) k (v : V) d :
  (length (PyDict.set eqb k v d) <= S (length d))%nat.
Proof.
  induction d as [|[k' v'] d IH]; simpl; [lia|].
  destruct (eqb k k'); simpl; lia.
Qed.

Lemma length_del_present {K V : Type} (eqb : K -> K -> bool) k (v : V) d :
  PyDict.get eqb k d = Some v ->
  S (length (PyDict.del eqb k d)) = length d.
Proof.
  induction d as [|[k' v'] d IH]; simpl; [discriminate|].
  destruct (eqb k k'); simpl; [reflexivity|].
  intros H. now rewrite IH.
Qed.

Lemma length_move_to_end {K V : Type} (eqb : K -> K -> bool) k (d : list (K * V)) :
  length (PyDict.move_to_end eqb k d) = length d.
Proof.
  unfold PyDict.move_to_end.
  destruct (PyDict.get eqb k d) as [v|] eqn:Hget; [|reflexivity].
  rewrite length_app. simpl. rewrite <- (length_del_present eqb k v d Hget). lia.
Qed.

Section Tiers.
Context {A : Type}.
Variable nbytes : list A -> Z.
Variable _text_hash : string -> Z -> string.

Abbreviation Cache := (@DiskBackedEmbeddingCache A).

(** A call of the cache's interface. *)
Inductive CacheCall :=
| CallGet (text : string) (dims : Z) (now : Q)
| CallPut (text : string) (dims : Z) (embedding : list A) (now : Q).

Definition cache_call (c : Cache) (call : CacheCall) : Cache :=
  match call with
  | CallGet text d now => snd (get _text_hash c text d now)
  | CallPut text d embedding now => put nbytes _text_hash c text d embedding now
  end.

Definition cache_calls (c : Cache) (calls : list CacheCall) : Cache :=
  fold_left cache_call calls c.


(** *** The RAM tier *)

Lemma length_add_to_ram_cache key v (ram : list (string * list A)) :
  (length ram <= ram_cache_size)%nat ->
  (length (_add_to_ram_cache key v ram) <= ram_cache_size)%nat.
Proof.
  intros Hlen. unfold _add_to_ram_cache.
  destruct (ram_cache_size <=? length ram)%nat eqn:E; unfold ram_cache_size in *.
  - apply Nat.leb_le in E.
    pose proof (length_set_le String.eqb key v (PyDict.popitem_first ram)) as H.
    unfold PyDict.popitem_first in *. destruct ram; simpl in *; lia.
  - apply Nat.leb_gt in E.
    pose proof (length_set_le String.eqb key v ram) as H. lia.
Qed.

Lemma ram_cache_maybe_evict (c : Cache) : ram_cache (_maybe_evict c) = ram_cache c.
Proof.
  unfold _maybe_evict. destruct (_ <=? _); [reflexivity|].
  destruct (evict_loop _ _ _ _ _ _) as [[[t fs] idx] ev]. reflexivity.
Qed.

Lemma ram_cache_put (c : Cache) text d v now :
  ram_cache (put nbytes _text_hash c text d v now) = ram_cache c
  \/ ram_cache (put nbytes _text_hash c text d v now)
     = _add_to_ram_cache (_text_hash text d) v (ram_cache c).
Proof.
  unfold put.
  destruct (is_blank text); [now left|].
  destruct (length v =? 0)%nat; [now left|].
  destruct (d <=? 0); [now left|]. right.
  unfold save_index_periodically.
  destruct (_ =? 0); cbn [ram_cache]; now rewrite ram_cache_maybe_evict.
Qed.

(** X10. The RAM tier never holds more than [ram_cache_size] (100)
    vectors: a lookup and a write keep it within that size. *)
Theorem ram_tier_stays_bounded (c : Cache) calls :
  (length (ram_cache c) <= ram_cache_size)%nat ->
  (length (ram_cache (cache_calls c calls)) <= ram_cache_size)%nat.
Proof.
  revert c. induction calls as [|call calls IH]; intros c Hlen; simpl; [exact Hlen|].
  apply IH. destruct call as [text d now|text d v now]; cbn [cache_call].
  - unfold get.
    destruct (is_blank text); [exact Hlen|].
    destruct (d <=? 0); [exact Hlen|].
    destruct (PyDict.get String.eqb (_text_hash text d) (ram_cache c)).
    + cbn. now rewrite length_move_to_end.
    + destruct (PyDict.get String.eqb (_text_hash text d) (files c)) as [[v|]|];
        try exact Hlen.
      destruct (negb _); [exact Hlen|].
      cbn. now apply length_add_to_ram_cache.
  - destruct (ram_cache_put c text d v now) as [-> | ->]; [exact Hlen|].
    now apply length_add_to_ram_cache.
Qed.

(** *** Hits and misses *)

(** X11. Every lookup with a text that is not blank and a positive
    dimension is counted once: as a hit when it returns a vector, as a
    miss when it returns [None].  A lookup with a blank text or a
    dimension that is not positive returns [None], counts nothing and
    leaves the cache as it is. *)
Theorem every_lookup_is_counted_once (c : Cache) text d now :
  let r := get _text_hash c text d now in
  if is_blank text || (d <=? 0) then r = (None, c)
  else
    (fst r <> None /\ hits (snd r) = hits c + 1 /\ misses (snd r) = misses c)
    \/ (fst r = None /\ hits (snd r) = hits c /\ misses (snd r) = misses c + 1).
Proof.
  unfold get.
  destruct (is_blank text); [reflexivity|].
  destruct (d <=? 0); [reflexivity|]. cbn [orb].
  destruct (PyDict.get String.eqb (_text_hash text d) (ram_cache c)).
  { left. cbn. repeat split; auto; discriminate. }
  destruct (PyDict.get String.eqb (_text_hash text d) (files c)) as [[v|]|].
  - destruct (negb _).
    + right. cbn. auto.
    + left. cbn. repeat split; auto; discriminate.
  - right. cbn. auto.
  - right. cbn. auto.
Qed.

(** *** The disk budget *)
















End Tiers.

(** Two 600000-byte vectors written to a one-mebibyte cache, then read. *)
Definition two_writes : list (@CacheCall Z) :=
  [CallPut "a" 1 [5] 1%Q; CallPut "b" 1 [7] 2%Q; CallGet "a" 1 3%Q; CallGet "b" 1 4%Q].

Lemma ram_tier_stays_bounded_witness :
  (length (ram_cache (cache_calls bulky_nbytes text_key (new_cache 1) two_writes))
   <= ram_cache_size)%nat.
Proof.
  apply ram_tier_stays_bounded. vm_compute. lia.
Defined.


End CacheTiers.

(** ** frankenstein-embeddings.py: the feature generators and the training
    of the learned projections *)

Module AdapterFacts.
Import Adapter.

Definition unit_range (x : R) : Prop := (Rabs x <= 1)%R.

Lemma length_padded {X : Type} (k : nat) (features : list X) (x : X) :
  length (firstn k (firstn k features ++ repeat x (k - length (firstn k features)))) = k.
Proof.
  rewrite length_firstn, length_app, repeat_length, length_firstn. lia.
Qed.

Lemma in_firstn {X : Type} (k : nat) (l : list X) x : In x (firstn k l) -> In x l.
Proof.
  intros H. rewrite <- (firstn_skipn k l). apply in_app_iff. now left.
Qed.

Lemma Forall_padded (P : R -> Prop) (k : nat) (features : list R) :
  P 0%R -> Forall P features ->
  Forall P (firstn k (firstn k features ++ repeat 0%R (k - length (firstn k features)))).
Proof.
  intros H0 Hf. apply List.Forall_forall. intros x Hx.
  apply in_firstn in Hx. apply in_app_iff in Hx. destruct Hx as [Hx|Hx].
  - apply in_firstn in Hx. rewrite List.Forall_forall in Hf. now apply Hf.
  - apply repeat_spec in Hx. now subst x.
Qed.

Lemma unit_range_zero : unit_range 0.
Proof. unfold unit_range. rewrite Rabs_R0. lra. Qed.

Lemma unit_range_mult x y : unit_range x -> unit_range y -> unit_range (x * y).
Proof.
  unfold unit_range. intros Hx Hy. rewrite Rabs_mult.
  pose proof (Rabs_pos x). pose proof (Rabs_pos y). nra.
Qed.

Lemma pair_products_unit_range e :
  Forall unit_range e -> Forall unit_range (pair_products e).
Proof.
  induction 1 as [|x rest Hx Hrest IH]; simpl; [constructor|].
  constructor; [now apply unit_range_mult|].
  apply Forall_app. split; [|exact IH].
  apply List.Forall_forall. intros y Hy. apply in_map_iff in Hy.
  destruct Hy as (z & <- & Hz). apply unit_range_mult; [exact Hx|].
  rewrite List.Forall_forall in Hrest. now apply Hrest.
Qed.

Lemma fourier_unit_range (freqs embedding : list R) :
  Forall unit_range
    (flat_map (fun freq =>
                 flat_map (fun x => [sin (2 * PI * freq * x)%R;
                                     cos (2 * PI * freq * x)%R]) embedding)
              freqs).
Proof.
  apply List.Forall_forall. intros y Hy.
  apply in_flat_map in Hy. destruct Hy as (freq & _ & Hy).
  apply in_flat_map in Hy. destruct Hy as (x & _ & [<-|[<-|[]]]); unfold unit_range.
  - apply Rabs_le. pose proof (SIN_bound (2 * PI * freq * x)). lra.
  - apply Rabs_le. pose proof (COS_bound (2 * PI * freq * x)). lra.
Qed.

(** X13. [_polynomial_features] and [_fourier_features] return exactly
    [target_dims] values.  Every Fourier feature lies in [[-1, 1]], and so
    does every polynomial feature of a vector whose components do. *)
Theorem feature_generators_fill_exactly embedding target_dims :
  0 <= target_dims ->
  Forall unit_range embedding ->
  shape (_polynomial_features embedding target_dims) = target_dims
  /\ shape (_fourier_features embedding target_dims) = target_dims
  /\ Forall unit_range (_polynomial_features embedding target_dims)
  /\ Forall unit_range (_fourier_features embedding target_dims).
Proof.
  intros Ht He. unfold _polynomial_features, _fourier_features, shape.
  rewrite !length_padded. repeat split; try lia.
  - apply Forall_padded; [apply unit_range_zero|].
    apply pair_products_unit_range.
    apply List.Forall_forall. intros x Hx. apply in_firstn in Hx.
    rewrite List.Forall_forall in He. now apply He.
  - apply Forall_padded; [apply unit_range_zero|]. apply fourier_unit_range.
Qed.

(** Three features of each kind from the vector (1, 0). *)
Lemma feature_generators_fill_exactly_witness :
  shape (_polynomial_features [1; 0]%R 3) = 3
  /\ shape (_fourier_features [1; 0]%R 3) = 3
  /\ Forall unit_range (_polynomial_features [1; 0]%R 3)
  /\ Forall unit_range (_fourier_features [1; 0]%R 3).
Proof.
  apply feature_generators_fill_exactly; [lia|].
  repeat constructor; unfold unit_range; [rewrite Rabs_R1|rewrite Rabs_R0]; lra.
Defined.

(** *** Training *)

Section Training.
Variable pca_fit : Z -> list (list R) -> PCA.

Lemma train_small_buffer (p : AdaptivePCA) :
  Z.of_nat (length (training_buffer p)) < 256 ->
  pca_models (_train pca_fit p) = pca_models p.
Proof.
  intros Hsmall. unfold _train.
  destruct (_ <? min_samples p); [reflexivity|].
  cbn [pca_models fold_left].
  set (n := Z.of_nat (length (training_buffer p))) in *.
  set (nf := shape (hd [] (training_buffer p))).
  assert (Hno : forall t, 256 <= t -> trainable n nf t = false).
  { intros t Ht. unfold trainable.
    assert (E : (Z.min n nf <? t) = true) by (apply Z.ltb_lt; lia).
    rewrite E, orb_true_r. reflexivity. }
  rewrite !Hno by lia. reflexivity.
Qed.

Lemma add_samples_trained (p : AdaptivePCA) later :
  is_trained p = true -> fold_left (add_samples pca_fit) later p = p.
Proof.
  intros Ht. induction later as [|e later IH]; simpl; [reflexivity|].
  unfold add_samples at 2. rewrite Ht. exact IH.
Qed.

(** X14. When [add_samples] brings the buffer to [min_samples] vectors or
    more but to fewer than 256, training runs and fits no projection: the
    projections are the ones held before, the buffer is emptied and the
    object is marked trained, so that no later [add_samples] changes it.
    With no projection held before, [transform] then only truncates. *)
Theorem early_training_fits_no_projection (p : AdaptivePCA) embeddings later :
  is_trained p = false ->
  min_samples p <= Z.of_nat (length (training_buffer p ++ embeddings)) ->
  Z.of_nat (length (training_buffer p ++ embeddings)) < 256 ->
  let p' := add_samples pca_fit p embeddings in
  is_trained p' = true
  /\ pca_models p' = pca_models p
  /\ training_buffer p' = []
  /\ samples_seen p' = samples_seen p + Z.of_nat (length embeddings)
  /\ fold_left (add_samples pca_fit) later p' = p'
  /\ (pca_models p = [] ->
      forall embedding target_dims,
        transform (pca_models p') embedding target_dims
        = if shape embedding <=? target_dims then embedding
          else py_take target_dims embedding).
Proof.
  intros Hnot Hmin Hsmall p'.
  assert (Hp' : p' = _train pca_fit
                       {| min_samples := min_samples p;
                          pca_models := pca_models p;
                          training_buffer := training_buffer p ++ embeddings;
                          samples_seen := samples_seen p + Z.of_nat (length embeddings);
                          is_trained := false |}).
  { subst p'. unfold add_samples. rewrite Hnot. cbn [min_samples training_buffer].
    apply Z.leb_le in Hmin. now rewrite Hmin. }
  assert (Hmodels : pca_models p' = pca_models p).
  { rewrite Hp'. now rewrite train_small_buffer. }
  assert (Hrest : is_trained p' = true /\ training_buffer p' = []
                  /\ samples_seen p' = samples_seen p + Z.of_nat (length embeddings)).
  { rewrite Hp'. unfold _train. cbn [min_samples training_buffer].
    assert (E : (Z.of_nat (length (training_buffer p ++ embeddings)) <? min_samples p)
                = false) by (apply Z.ltb_ge; exact Hmin).
    rewrite E. cbn. auto. }
  destruct Hrest as (Htr & Hbuf & Hseen).
  repeat split; auto.
  - now apply add_samples_trained.
  - intros Hnone embedding target_dims. rewrite Hmodels, Hnone.
    unfold transform, select_model. cbn.
    destruct (shape embedding <=? target_dims); [reflexivity|].
    destruct (small_reduction _ _); reflexivity.
Qed.

End Training.

(** The default [min_samples] of 100, reached by one hundred calls of
    [embed_single]: the last one triggers the training. *)
Definition ninety_nine_buffered : AdaptivePCA :=
  {| min_samples := 100; pca_models := [];
     training_buffer := repeat [1; 0; 0]%R 99;
     samples_seen := 99; is_trained := false |}.

Lemma early_training_fits_no_projection_witness :
  let p' := add_samples Examples.toy_fit ninety_nine_buffered [[0; 1; 0]%R] in
  is_trained p' = true
  /\ pca_models p' = []
  /\ training_buffer p' = []
  /\ samples_seen p' = 99 + 1
  /\ fold_left (add_samples Examples.toy_fit) [[[0; 0; 1]%R]] p' = p'
  /\ (@nil (Z * PCA) = [] ->
      forall embedding target_dims,
        transform (pca_models p') embedding target_dims
        = if shape embedding <=? target_dims then embedding
          else py_take target_dims embedding).
Proof.
  apply (early_training_fits_no_projection Examples.toy_fit ninety_nine_buffered
           [[0; 1; 0]%R] [[[0; 0; 1]%R]]).
  - reflexivity.
  - cbn [ninety_nine_buffered min_samples training_buffer].
    rewrite length_app, repeat_length. simpl. lia.
  - cbn [ninety_nine_buffered training_buffer].
    rewrite length_app, repeat_length. simpl. lia.
Defined.

End AdapterFacts.

(** ** frankenstein-embeddings.py: what a batch counts and whom it calls *)

Module BatchAccounting.
Import Adapter Embedder.

(** The vectors [_transform_dims] has counted. *)
Definition adaptations (s : Stats) : Z := native s + expansions s + compressions s.

Section Accounting.
Variable nbytes : list R -> Z.
Variable _text_hash : string -> Z -> string.
Variable encode : string -> list R.
Variable _random_projection_expand : list R -> Z -> list R.
Variable _hash_based_features : string -> Z -> list R.
Variable pca_fit : Z -> list (list R) -> PCA.

Lemma scan_texts_counts t time texts :
  forall i s,
    let zs := combine texts (lookups _text_hash (sc_cache s) t time texts) in
    let s' := scan_texts _text_hash t time i texts s in
    sc_misses s' = sc_misses s + Z.of_nat (length (misses_of i zs))
    /\ sc_hits s' + sc_misses s' = sc_hits s + sc_misses s + Z.of_nat (length texts).
Proof.
  induction texts as [|text rest IH]; intros i s; cbn zeta.
  - simpl. lia.
  - cbn [scan_texts lookups combine].
    destruct (DiskCache.get _text_hash (sc_cache s) text t time) as [[v|] c'] eqn:Hget;
      cbn [fst snd misses_of].
    + match goal with |- context [scan_texts _text_hash t time (S i) rest ?s1] =>
        destruct (IH (S i) s1) as (Hm & Hall) end.
      cbn [sc_cache sc_hits sc_misses] in Hm, Hall.
      rewrite Hm. split; [reflexivity|]. rewrite Hm in Hall. cbn [length]. lia.
    + match goal with |- context [scan_texts _text_hash t time (S i) rest ?s1] =>
        destruct (IH (S i) s1) as (Hm & Hall) end.
      cbn [sc_cache sc_hits sc_misses] in Hm, Hall.
      rewrite Hm. rewrite Hm in Hall. cbn [length]. split; lia.
Qed.

Lemma count_adaptation_adaptations a s :
  adaptations (count_adaptation a s) = adaptations s + 1
  /\ total_embeddings (count_adaptation a s) = total_embeddings s
  /\ disk_cache_hits (count_adaptation a s) = disk_cache_hits s
  /\ disk_cache_misses (count_adaptation a s) = disk_cache_misses s
  /\ dimension_histogram (count_adaptation a s) = dimension_histogram s.
Proof. unfold adaptations. destruct a; cbn; repeat split; lia. Qed.

Lemma store_new_stats pca ex t time work :
  forall c cached s,
    let s' := snd (store_new nbytes _text_hash _random_projection_expand
                     _hash_based_features pca ex t time work (c, cached, s)) in
    adaptations s' = adaptations s + Z.of_nat (length work)
    /\ total_embeddings s' = total_embeddings s
    /\ disk_cache_hits s' = disk_cache_hits s
    /\ disk_cache_misses s' = disk_cache_misses s
    /\ dimension_histogram s' = dimension_histogram s.
Proof.
  induction work as [|[[orig_idx text] emb] work IH]; intros c cached s; cbn zeta.
  - simpl. repeat split; lia.
  - cbn [store_new].
    match goal with |- context [store_new _ _ _ _ _ _ _ _ work (?c1, ?k1, ?s1)] =>
      destruct (IH c1 k1 s1) as (H1 & H2 & H3 & H4 & H5) end.
    destruct (count_adaptation_adaptations (adaptation emb t) s)
      as (G1 & G2 & G3 & G4 & G5).
    split; [|split; [|split; [|split]]].
    + etransitivity; [exact H1|]. rewrite G1. cbn [length]. lia.
    + etransitivity; [exact H2|exact G2].
    + etransitivity; [exact H3|exact G3].
    + etransitivity; [exact H4|exact G4].
    + etransitivity; [exact H5|exact G5].
Qed.

(** X15. A batch that can load the model calls the encoder once, with
    exactly the texts the cache did not answer, in their order, and not at
    all when the cache answered every text; the throttler is asked once
    for that many texts.  Every text counts as one embedding and, with a
    cache, as one hit or one miss; every text encoded counts as one
    adaptation; the dimension histogram is left as it is. *)
Theorem embed_batch_accounting st env texts force_dims priority :
  model_loads env = true ->
  let t := fst (resolve_dims (dim_config st) env force_dims) in
  let answers := batch_lookups _text_hash st t (now env) texts in
  let missed := map snd (misses_of 0 (combine texts answers)) in
  let st' := snd (embed_batch nbytes _text_hash encode _random_projection_expand
                    _hash_based_features pca_fit st env texts force_dims priority) in
  let n := Z.of_nat (length texts) in
  let m := Z.of_nat (length missed) in
  encoder_log st' = match missed with
                    | [] => encoder_log st
                    | _ => encoder_log st ++ [missed]
                    end
  /\ throttle_log st' = match missed with
                        | [] => throttle_log st
                        | _ => if throttler st
                               then throttle_log st ++ [(length missed, priority)]
                               else throttle_log st
                        end
  /\ total_embeddings (stats st') = total_embeddings (stats st) + n
  /\ disk_cache_hits (stats st')
     = disk_cache_hits (stats st) + match disk_cache st with Some _ => n - m | None => 0 end
  /\ disk_cache_misses (stats st')
     = disk_cache_misses (stats st) + match disk_cache st with Some _ => m | None => 0 end
  /\ adaptations (stats st') = adaptations (stats st) + m
  /\ dimension_histogram (stats st') = dimension_histogram (stats st).
Proof.
  intros Hmodel t answers missed st' n m.
  subst m n st' missed answers t.
  unfold embed_batch, batch_lookups.
  destruct (resolve_dims (dim_config st) env force_dims) as [t cfg]. cbn [fst].
  rewrite Hmodel. cbn [negb].
  destruct (disk_cache st) as [c|] eqn:Hc.
  - set (s0 := {| sc_cache := c; sc_cached := []; sc_indices := [];
                  sc_texts := []; sc_hits := 0; sc_misses := 0 |}).
    destruct (scan_texts_spec _text_hash t (now env) texts 0 s0) as (Hi & Ht & _).
    destruct (scan_texts_counts t (now env) texts 0 s0) as (Hm & Hall).
    cbn [s0 sc_cache sc_indices sc_texts sc_hits sc_misses app] in Hi, Ht, Hm, Hall.
    fold s0 in Hi, Ht, Hm, Hall.
    set (zs := combine texts (lookups _text_hash c t (now env) texts)) in *.
    set (sc := scan_texts _text_hash t (now env) 0 texts s0) in *.
    rewrite Ht.
    destruct (length (map snd (misses_of 0 zs)) =? 0)%nat eqn:Hnone.
    + apply Nat.eqb_eq in Hnone.
      assert (Hnil : map snd (misses_of 0 zs) = [])
        by (now apply length_zero_iff_nil).
      rewrite Hnil. rewrite length_map in Hnone. rewrite Hnone in Hm.
      cbn [snd encoder_log throttle_log stats count_embeddings count_lookups
           total_embeddings disk_cache_hits disk_cache_misses dimension_histogram
           length].
      unfold adaptations.
      cbn [native expansions compressions count_embeddings count_lookups].
      repeat split; try lia.
    + apply Nat.eqb_neq in Hnone.
      rewrite Hi, work_of_misses.
      match goal with |- context [store_new _ _ _ _ ?pca ?ex t ?time ?work (?c1, ?k1, ?s1)] =>
        destruct (store_new_stats pca ex t time work c1 k1 s1)
          as (H1 & H2 & H3 & H4 & H5);
        destruct (store_new nbytes _text_hash _random_projection_expand
                    _hash_based_features pca ex t time work (c1, k1, s1))
          as [[c2 cached'] s2] end.
      cbn [snd] in H1, H2, H3, H4, H5.
      rewrite !length_map in H1.
      cbn [snd encoder_log throttle_log stats count_embeddings
           total_embeddings disk_cache_hits disk_cache_misses dimension_histogram].
      unfold log_throttle.
      assert (Ha : adaptations (count_embeddings (Z.of_nat (length texts)) s2)
                   = adaptations s2) by reflexivity.
      rewrite Ha, H1, H2, H3, H4, H5. rewrite length_map in *.
      cbn [count_lookups total_embeddings disk_cache_hits disk_cache_misses
           dimension_histogram].
      unfold adaptations at 2. cbn [count_lookups native expansions compressions].
      fold (adaptations (stats st)).
      destruct (map snd (misses_of 0 zs)) as [|x l] eqn:Hmiss.
      { exfalso. apply Hnone. rewrite <- (length_map snd). now rewrite Hmiss. }
      repeat split; try lia.
  - rewrite misses_without_cache, snd_combine_seq.
    destruct (length texts =? 0)%nat eqn:Hnone.
    + apply Nat.eqb_eq in Hnone. apply length_zero_iff_nil in Hnone. subst texts.
      cbn. unfold adaptations. cbn. repeat split; lia.
    + apply Nat.eqb_neq in Hnone.
      match goal with |- context [store_new _ _ _ _ ?pca ?ex t ?time ?work (?c1, ?k1, ?s1)] =>
        destruct (store_new_stats pca ex t time work c1 k1 s1)
          as (H1 & H2 & H3 & H4 & H5);
        destruct (store_new nbytes _text_hash _random_projection_expand
                    _hash_based_features pca ex t time work (c1, k1, s1))
          as [[c2 cached'] s2] end.
      cbn [snd] in H1, H2, H3, H4, H5.
      rewrite !length_combine, length_seq, length_map in H1.
      cbn [snd encoder_log throttle_log stats count_embeddings
           total_embeddings disk_cache_hits disk_cache_misses dimension_histogram].
      unfold log_throttle.
      assert (Ha : adaptations (count_embeddings (Z.of_nat (length texts)) s2)
                   = adaptations s2) by reflexivity.
      rewrite Ha, H1, H2, H3, H4, H5.
      destruct texts as [|x l]; [now contradiction Hnone|].
      repeat split; try lia.
Qed.

End Accounting.

(** A batch of two texts on a service that has just started: both miss. *)
Lemma embed_batch_accounting_witness :
  let st' := snd (embed_batch Examples.toy_nbytes Examples.toy_hash Examples.unit_encode
                    Examples.no_projection Examples.no_hash_features Examples.toy_fit
                    Examples.fresh_service Examples.noon ["a"; "b"]%string None LOW) in
  encoder_log st' = [["a"; "b"]%string]
  /\ throttle_log st' = [(2%nat, LOW)]
  /\ total_embeddings (stats st') = 2
  /\ disk_cache_hits (stats st') = 0
  /\ disk_cache_misses (stats st') = 2
  /\ adaptations (stats st') = 2
  /\ dimension_histogram (stats st') = [].
Proof.
  exact (embed_batch_accounting Examples.toy_nbytes Examples.toy_hash
           Examples.unit_encode Examples.no_projection Examples.no_hash_features
           Examples.toy_fit Examples.fresh_service Examples.noon ["a"; "b"]%string
           None LOW eq_refl).
Defined.

End BatchAccounting.

(** ** frankenstein-embeddings.py: a dimension set by hand and the
    periodic refresh *)

Module DimensionRequests.
Import Adapter Embedder Server.

(** [{"type": "set_dimension", "dimension": n}] *)
Definition set_dimension_request (n : Z) : list (string * JSON) :=
  [("type"%string, JStr "set_dimension"); ("dimension"%string, JInt n)].

(** [{"type": "get_dimension"}] *)
Definition get_dimension_request : list (string * JSON) :=
  [("type"%string, JStr "get_dimension")].

(** [{"text": text}] *)
Definition embed_request (text : string) : list (string * JSON) :=
  [("text"%string, JStr text)].

Section Requests.
Variable nbytes : list R -> Z.
Variable _text_hash : string -> Z -> string.
Variable encode : string -> list R.
Variable _random_projection_expand : list R -> Z -> list R.
Variable _hash_based_features : string -> Z -> list R.
Variable pca_fit : Z -> list (list R) -> PCA.

Lemma embed_single_dim_config st env text force_dims priority :
  let r := embed_single nbytes _text_hash encode _random_projection_expand
             _hash_based_features pca_fit st env text force_dims priority in
  dim_config (snd r) = snd (resolve_dims (dim_config st) env force_dims)
  /\ (model_loads env = true -> fst r <> None).
Proof.
  unfold embed_single, compute_single.
  destruct (resolve_dims (dim_config st) env force_dims) as [t cfg]. cbn [snd].
  destruct (disk_cache st) as [c|].
  - destruct (DiskCache.get _text_hash c text t (now env)) as [[cached|] c'].
    + split; [reflexivity|discriminate].
    + destruct (model_loads env); cbn; split; try reflexivity; intros; discriminate.
  - destruct (model_loads env); cbn; split; try reflexivity; intros; discriminate.
Qed.

(** X16. A dimension set with [set_dimension] is what [get_dimension]
    reports, and an embedding request without [dims] is served at that
    dimension only while the periodic refresh is not due: once
    [refresh_interval] seconds have passed since the last refresh, the
    request replaces it by the dimension of the database (the native
    dimension when the query fails). *)
Theorem manual_dimension_lasts_until_refresh srv env env' n text :
  0 < n ->
  model_loads env' = true ->
  let cfg := dim_config (embedder srv) in
  let handle := handle_request nbytes _text_hash encode _random_projection_expand
                  _hash_based_features pca_fit in
  let srv1 := snd (handle srv env (set_dimension_request n)) in
  let served :=
    if Qle_bool (refresh_interval cfg) (now env' - last_refresh cfg)
    then _query_database_dimension (native_dims cfg) (db_dimension env')
    else n in
  fst (handle srv env (set_dimension_request n)) = DimensionSet (JInt n)
  /\ handle srv1 env' get_dimension_request = (DimensionInfo (native_dims cfg) n, srv1)
  /\ exists embedding srv2,
       handle srv1 env' (embed_request text)
       = (EmbedResponse embedding (shape embedding) served "medium", srv2).
Proof.
  intros Hn Hmodel cfg handle srv1 served.
  assert (Hset : handle srv env (set_dimension_request n)
                 = (DimensionSet (JInt n), set_target_dims srv n)).
  { apply set_dimension_accepts; [reflexivity|reflexivity|exact Hn]. }
  subst srv1. rewrite Hset. cbn [fst snd].
  split; [reflexivity|]. split; [reflexivity|].
  subst handle. unfold handle_request, embed_request.
  cbn -[embed_single Qle_bool]. unfold handle_embedding.
  cbn -[embed_single Qle_bool].
  set (srv1 := if qqms_v2 srv then _ else _).
  assert (Hcfg : dim_config (embedder srv1)
                 = {| native_dims := native_dims cfg; target_dims := n;
                      last_refresh := last_refresh cfg;
                      refresh_interval := refresh_interval cfg |}).
  { subst srv1. destruct (qqms_v2 srv); reflexivity. }
  destruct (embed_single_dim_config (embedder srv1) env' text None MEDIUM)
    as [Hdims Hsome].
  specialize (Hsome Hmodel).
  destruct (embed_single _ _ _ _ _ _ (embedder srv1) env' text None MEDIUM)
    as [[embedding|] e'] eqn:Hcall; [|now contradiction Hsome].
  cbn [fst snd] in Hdims.
  exists embedding, (with_embedder srv1 e'). f_equal. f_equal.
  rewrite Hdims, Hcfg. unfold resolve_dims, _refresh_target_dimension.
  cbn [snd target_dims last_refresh refresh_interval native_dims].
  assert (Hpos : (0 <? n) = true) by (apply Z.ltb_lt; exact Hn).
  rewrite Hpos. cbn [andb]. subst served.
  destruct (Qle_bool (refresh_interval cfg) (now env' - last_refresh cfg)); reflexivity.
Qed.

End Requests.

(** Set to 7 at time 100, with the last refresh at time 0 and the database
    unreachable: the request made 30 seconds later is served at 7
    dimensions, the one made 70 seconds later at the native 2. *)
Definition later (t : Q) : Env :=
  {| now := t; db_dimension := None; model_loads := true |}.

Definition plain_server : EmbeddingServer :=
  {| embedder := Examples.fresh_service; qqms_v2 := false; qqms_throttle_log := [] |}.

Lemma manual_dimension_lasts_until_refresh_witness :
  let handle := handle_request Examples.toy_nbytes Examples.toy_hash Examples.unit_encode
                  Examples.no_projection Examples.no_hash_features Examples.toy_fit in
  let srv1 := snd (handle plain_server Examples.noon (set_dimension_request 7)) in
  (exists embedding srv2,
     handle srv1 (later 30) (embed_request "a")
     = (EmbedResponse embedding (shape embedding) 7 "medium", srv2))
  /\ (exists embedding srv2,
        handle srv1 (later 70) (embed_request "a")
        = (EmbedResponse embedding (shape embedding) 2 "medium", srv2)).
Proof.
  split.
  - exact (proj2 (proj2 (manual_dimension_lasts_until_refresh
                           Examples.toy_nbytes Examples.toy_hash Examples.unit_encode
                           Examples.no_projection Examples.no_hash_features
                           Examples.toy_fit plain_server Examples.noon (later 30) 7 "a"
                           ltac:(lia) eq_refl))).
  - exact (proj2 (proj2 (manual_dimension_lasts_until_refresh
                           Examples.toy_nbytes Examples.toy_hash Examples.unit_encode
                           Examples.no_projection Examples.no_hash_features
                           Examples.toy_fit plain_server Examples.noon (later 70) 7 "a"
                           ltac:(lia) eq_refl))).
Defined.

End DimensionRequests.

(** ** frankenstein-embeddings.py: [QQMSThrottler] *)

Module Throttler.
Import CpuMonitor.

(** [class QQMSConfig] *)
Record QQMSConfig := {
  base_delay_ms : Q;
  priority_delay_multiplier : list (Z * Q);
  cpu_low_threshold : Q;
  cpu_medium_threshold : Q;
  cpu_high_threshold : Q;
  cpu_critical_threshold : Q;
  max_requests_per_second : Q;
  burst_limit : Z;
  batch_delay_ms : Q;
  max_batch_size : Z;
  batch_cooldown_ms : Q;
  idle_delay_after_burst_ms : Q
}.

Definition default_qqms_config : QQMSConfig :=
  {| base_delay_ms := 50;
     priority_delay_multiplier :=
       [(0, (1 # 10)%Q); (1, (1 # 2)%Q); (2, 1%Q); (3, 2%Q); (4, 4%Q)];
     cpu_low_threshold := 30;
     cpu_medium_threshold := 50;
     cpu_high_threshold := 70;
     cpu_critical_threshold := 85;
     max_requests_per_second := 20;
     burst_limit := 10;
     batch_delay_ms := 25;
     max_batch_size := 64;
     batch_cooldown_ms := 100;
     idle_delay_after_burst_ms := 1000 |}.

(** [class QQMSThrottler]; [torch_threads] lists the arguments of the calls
    of [torch.set_num_threads]. *)
Record QQMSThrottler := {
  config : QQMSConfig;
  cpu_monitor : CPUMonitor;
  tokens : Q;
  last_token_time : Q;
  request_count : Z;
  last_request_time : Q;
  burst_start_time : Q;
  requests_in_burst : Z;
  total_delay_ms : Q;
  throttle_events : Z;
  thread_adjustments : Z;
  thread_min : Z;
  thread_max : Z;
  current_threads : Z;
  last_thread_adjust : Q;
  torch_threads : list Z
}.

(** [QQMSThrottler.__init__] at time [now], with [_CPU_THREAD_MIN] and
    [_CPU_THREAD_LIMIT]. *)
Definition new_throttler (cfg : QQMSConfig) (now : Q) (cpu_thread_min cpu_thread_limit : Z)
  : QQMSThrottler :=
  {| config := cfg; cpu_monitor := new_monitor;
     tokens := inject_Z (burst_limit cfg); last_token_time := now;
     request_count := 0; last_request_time := 0;
     burst_start_time := 0; requests_in_burst := 0;
     total_delay_ms := 0; throttle_events := 0; thread_adjustments := 0;
     thread_min := cpu_thread_min; thread_max := cpu_thread_limit;
     current_threads := cpu_thread_limit; last_thread_adjust := 0;
     torch_threads := [] |}.

(** What one call of [acquire] reads from outside: the five readings of
    the clock, in the order of the calls of [time.time()], and the first
    line of [/proc/stat] at the two samples of the CPU monitor. *)
Record Instants := {
  at_refill : Q;
  at_adjust : Q;
  adjust_sample : Q * option ProcStat;
  at_acquire : Q;
  multiplier_sample : Q * option ProcStat
}.

(** [_refill_tokens] *)
Definition _refill_tokens (th : QQMSThrottler) (now : Q) : QQMSThrottler :=
  {| config := config th; cpu_monitor := cpu_monitor th;
     tokens := Qmin (inject_Z (burst_limit (config th)))
                    (tokens th
                     + (now - last_token_time th) * max_requests_per_second (config th));
     last_token_time := now;
     request_count := request_count th; last_request_time := last_request_time th;
     burst_start_time := burst_start_time th; requests_in_burst := requests_in_burst th;
     total_delay_ms := total_delay_ms th; throttle_events := throttle_events th;
     thread_adjustments := thread_adjustments th;
     thread_min := thread_min th; thread_max := thread_max th;
     current_threads := current_threads th; last_thread_adjust := last_thread_adjust th;
     torch_threads := torch_threads th |}.

(** The thread count [_adjust_threads_for_cpu] chooses at usage [cpu]. *)
Definition threads_for (th : QQMSThrottler) (cpu : Q) : Z :=
  if Qgt_bool cpu (cpu_critical_threshold (config th)) then thread_min th
  else if Qgt_bool cpu (cpu_high_threshold (config th))
  then Z.max (thread_min th) (current_threads th - 1)
  else if Qgt_bool (cpu_low_threshold (config th)) cpu
  then Z.min (thread_max th) (current_threads th + 1)
  else current_threads th.

(** [_adjust_threads_for_cpu] *)
Definition _adjust_threads_for_cpu (th : QQMSThrottler) (now : Q)
    (sample : Q * option ProcStat) : QQMSThrottler :=
  if Qgt_bool 5 (now - last_thread_adjust th) then th
  else
    let '(cpu, monitor) := get_cpu_usage (cpu_monitor th) (fst sample) (snd sample) in
    let threads := threads_for th cpu in
    let changed := negb (threads =? current_threads th) in
    {| config := config th; cpu_monitor := monitor;
       tokens := tokens th; last_token_time := last_token_time th;
       request_count := request_count th; last_request_time := last_request_time th;
       burst_start_time := burst_start_time th; requests_in_burst := requests_in_burst th;
       total_delay_ms := total_delay_ms th; throttle_events := throttle_events th;
       thread_adjustments :=
         if changed then thread_adjustments th + 1 else thread_adjustments th;
       thread_min := thread_min th; thread_max := thread_max th;
       current_threads := threads;
       last_thread_adjust := if changed then now else last_thread_adjust th;
       torch_threads :=
         if changed then torch_threads th ++ [threads] else torch_threads th |}.

(** The multiplier [_get_cpu_multiplier] returns at usage [cpu]. *)
Definition cpu_multiplier (cfg : QQMSConfig) (cpu : Q) : Q :=
  if Qgt_bool cpu (cpu_critical_threshold cfg) then 10
  else if Qgt_bool cpu (cpu_high_threshold cfg) then 4
  else if Qgt_bool cpu (cpu_medium_threshold cfg) then 2
  else if Qgt_bool cpu (cpu_low_threshold cfg) then 3 # 2
  else 1.

(** [self.config.priority_delay_multiplier.get(int(priority), 1.0)] *)
Definition priority_multiplier (cfg : QQMSConfig) (priority : Z) : Q :=
  match PyDict.get Z.eqb priority (priority_delay_multiplier cfg) with
  | Some m => m
  | None => 1
  end.

(** [acquire]: the delay returned, [None] when the division by
    [max_requests_per_second] raises, and the throttler afterwards. *)
Definition acquire (th : QQMSThrottler) (i : Instants) (priority : Z)
  : option Q * QQMSThrottler :=
  let th1 := _adjust_threads_for_cpu (_refill_tokens th (at_refill i))
               (at_adjust i) (adjust_sample i) in
  let cfg := config th1 in
  let now := at_acquire i in
  let base_delay := (base_delay_ms cfg * priority_multiplier cfg priority)%Q in
  let '(cpu, monitor) :=
    get_cpu_usage (cpu_monitor th1) (fst (multiplier_sample i))
                  (snd (multiplier_sample i)) in
  let mult := cpu_multiplier cfg cpu in
  let events := if Qgt_bool mult 1 then throttle_events th1 + 1 else throttle_events th1 in
  let delay1 := (base_delay * mult)%Q in
  let short := Qgt_bool 1 (tokens th1) in
  if short && Qeq_bool (max_requests_per_second cfg) 0 then
    (None,
     {| config := cfg; cpu_monitor := monitor;
        tokens := tokens th1; last_token_time := last_token_time th1;
        request_count := request_count th1; last_request_time := last_request_time th1;
        burst_start_time := burst_start_time th1;
        requests_in_burst := requests_in_burst th1;
        total_delay_ms := total_delay_ms th1; throttle_events := events;
        thread_adjustments := thread_adjustments th1;
        thread_min := thread_min th1; thread_max := thread_max th1;
        current_threads := current_threads th1;
        last_thread_adjust := last_thread_adjust th1;
        torch_threads := torch_threads th1 |})
  else
    let delay2 :=
      if short
      then (delay1 + (1 - tokens th1) / max_requests_per_second cfg * 1000)%Q
      else delay1 in
    let tokens' := if short then 0%Q else (tokens th1 - 1)%Q in
    let new_window := Qgt_bool (now - burst_start_time th1) 1 in
    let in_burst := if new_window then 1 else requests_in_burst th1 + 1 in
    let delay_ms :=
      if negb new_window && (burst_limit cfg <? in_burst)
      then (delay2 + idle_delay_after_burst_ms cfg)%Q
      else delay2 in
    (Some (delay_ms / 1000)%Q,
     {| config := cfg; cpu_monitor := monitor;
        tokens := tokens'; last_token_time := last_token_time th1;
        request_count := request_count th1 + 1; last_request_time := now;
        burst_start_time := if new_window then now else burst_start_time th1;
        requests_in_burst := in_burst;
        total_delay_ms :=
          if Qgt_bool delay_ms 0 then (total_delay_ms th1 + delay_ms)%Q
          else total_delay_ms th1;
        throttle_events := events;
        thread_adjustments := thread_adjustments th1;
        thread_min := thread_min th1; thread_max := thread_max th1;
        current_threads := current_threads th1;
        last_thread_adjust := last_thread_adjust th1;
        torch_threads := torch_threads th1 |}).

(** [acquire_batch]; a negative cooldown makes [time.sleep] raise. *)
Definition acquire_batch (th : QQMSThrottler) (i : Instants) (batch_size : Z)
    (priority : Z) : option Q * QQMSThrottler :=
  match acquire th i priority with
  | (Some delay, th') =>
      let pause :=
        if max_batch_size (config th') <? batch_size
        then (batch_cooldown_ms (config th') / 1000)%Q
        else (batch_delay_ms (config th') / 1000)%Q in
      if Qgt_bool 0 pause then (None, th') else (Some (delay + pause)%Q, th')
  | (None, th') => (None, th')
  end.

(** A call of the throttler: [acquire], or [acquire_batch] with the size
    of the batch. *)
Record ThrottleCall := {
  instants : Instants;
  call_priority : Z;
  call_batch : option Z
}.

Definition throttle (th : QQMSThrottler) (c : ThrottleCall) : option Q * QQMSThrottler :=
  match call_batch c with
  | Some batch_size => acquire_batch th (instants c) batch_size (call_priority c)
  | None => acquire th (instants c) (call_priority c)
  end.

(** Calls one after the other, an exception leaving the throttler as the
    call left it. *)
Fixpoint throttle_all (th : QQMSThrottler) (calls : list ThrottleCall)
  : list (option Q) * QQMSThrottler :=
  match calls with
  | [] => ([], th)
  | c :: rest =>
      let '(d, th1) := throttle th c in
      let '(ds, th2) := throttle_all th1 rest in
      (d :: ds, th2)
  end.

(** *** The thread count *)

Definition within (lo hi k : Z) : Prop := lo <= k <= hi.

(** What a call keeps of the thread state. *)
Definition threads_kept (th th' : QQMSThrottler) : Prop :=
  thread_min th' = thread_min th
  /\ thread_max th' = thread_max th
  /\ within (thread_min th) (thread_max th) (current_threads th')
  /\ exists set,
       torch_threads th' = torch_threads th ++ set
       /\ Forall (within (thread_min th) (thread_max th)) set.

Lemma threads_for_within th cpu :
  thread_min th <= thread_max th ->
  within (thread_min th) (thread_max th) (current_threads th) ->
  within (thread_min th) (thread_max th) (threads_for th cpu).
Proof.
  unfold within, threads_for. intros Hle Hin.
  destruct (Qgt_bool cpu (cpu_critical_threshold (config th))); [lia|].
  destruct (Qgt_bool cpu (cpu_high_threshold (config th))); [lia|].
  destruct (Qgt_bool (cpu_low_threshold (config th)) cpu); lia.
Qed.

Lemma adjust_threads_kept th now sample :
  thread_min th <= thread_max th ->
  within (thread_min th) (thread_max th) (current_threads th) ->
  threads_kept th (_adjust_threads_for_cpu th now sample).
Proof.
  intros Hle Hin. unfold _adjust_threads_for_cpu.
  destruct (Qgt_bool 5 _).
  - split; [reflexivity|]. split; [reflexivity|]. split; [exact Hin|].
    exists []. split; [now rewrite app_nil_r|constructor].
  - destruct (get_cpu_usage _ _ _) as [cpu monitor].
    pose proof (threads_for_within th cpu Hle Hin) as Hnew.
    split; [reflexivity|]. split; [reflexivity|]. split; [exact Hnew|].
    cbn [torch_threads]. destruct (negb _).
    + exists [threads_for th cpu]. split; [reflexivity|]. now constructor.
    + exists []. split; [now rewrite app_nil_r|constructor].
Qed.

Lemma acquire_threads_kept th i priority :
  thread_min th <= thread_max th ->
  within (thread_min th) (thread_max th) (current_threads th) ->
  threads_kept th (snd (acquire th i priority)).
Proof.
  intros Hle Hin.
  pose proof (adjust_threads_kept (_refill_tokens th (at_refill i)) (at_adjust i)
                (adjust_sample i) Hle Hin) as Hk.
  unfold acquire.
  set (th1 := _adjust_threads_for_cpu _ _ _) in *.
  destruct (get_cpu_usage _ _ _) as [cpu monitor].
  destruct (_ && _); exact Hk.
Qed.

Lemma throttle_threads_kept th c :
  thread_min th <= thread_max th ->
  within (thread_min th) (thread_max th) (current_threads th) ->
  threads_kept th (snd (throttle th c)).
Proof.
  intros Hle Hin. unfold throttle, acquire_batch.
  pose proof (acquire_threads_kept th (instants c) (call_priority c) Hle Hin) as Hk.
  destruct (call_batch c) as [batch_size|]; [|exact Hk].
  destruct (acquire th (instants c) (call_priority c)) as [[delay|] th']; [|exact Hk].
  destruct (Qgt_bool 0 _); exact Hk.
Qed.

(** X17. When [thread_min <= thread_max] and the thread count starts
    between them, every run of [acquire] and [acquire_batch] keeps it
    between them, and [torch.set_num_threads] is only called with counts
    between them. *)
Theorem threads_stay_within_limits th calls :
  thread_min th <= thread_max th ->
  within (thread_min th) (thread_max th) (current_threads th) ->
  threads_kept th (snd (throttle_all th calls)).
Proof.
  revert th. induction calls as [|c calls IH]; intros th Hle Hin.
  - split; [reflexivity|]. split; [reflexivity|]. split; [exact Hin|].
    exists []. split; [now rewrite app_nil_r|constructor].
  - cbn [throttle_all].
    pose proof (throttle_threads_kept th c Hle Hin) as (Hmin & Hmax & Hcur & set1 & Hlog1 & Hset1).
    destruct (throttle th c) as [d th1]. cbn [snd] in *.
    specialize (IH th1). rewrite Hmin, Hmax in IH.
    destruct (IH Hle Hcur) as (Hmin2 & Hmax2 & Hcur2 & set2 & Hlog2 & Hset2).
    destruct (throttle_all th1 calls) as [ds th2]. cbn [snd] in *.
    rewrite Hmin, Hmax in Hcur2, Hset2.
    split; [congruence|]. split; [congruence|]. split; [exact Hcur2|].
    exists (set1 ++ set2). split.
    + rewrite Hlog2, Hlog1. now rewrite app_assoc.
    + apply Forall_app. split; assumption.
Qed.

(** One thread at least and four at most, three of them in use. *)
Definition busy_line : option ProcStat :=
  Some {| user := 900; nice := 0; system := 50; idle := 50; iowait := None |}.

Definition three_threads : QQMSThrottler :=
  {| config := default_qqms_config; cpu_monitor := new_monitor;
     tokens := 10; last_token_time := 0;
     request_count := 0; last_request_time := 0;
     burst_start_time := 0; requests_in_burst := 0;
     total_delay_ms := 0; throttle_events := 0; thread_adjustments := 0;
     thread_min := 1; thread_max := 4; current_threads := 3;
     last_thread_adjust := 0; torch_threads := [] |}.

Definition call_at (t : Q) (batch : option Z) : ThrottleCall :=
  {| instants := {| at_refill := t; at_adjust := t; adjust_sample := (t, busy_line);
                    at_acquire := t; multiplier_sample := (t, busy_line) |};
     call_priority := 2; call_batch := batch |}.

(** A single request, then a batch of 100 texts. *)
Definition two_calls : list ThrottleCall := [call_at 10 None; call_at 20 (Some 100)].

Lemma threads_stay_within_limits_witness :
  threads_kept three_threads
    (snd (throttle_all three_threads two_calls)).
Proof.
  apply threads_stay_within_limits; unfold within; simpl; lia.
Defined.

(** *** The statistics *)

(** The pause [acquire_batch] adds to the delay of [acquire], in seconds. *)
Definition batch_pause (cfg : QQMSConfig) (c : ThrottleCall) : Q :=
  match call_batch c with
  | Some batch_size =>
      if max_batch_size cfg <? batch_size then batch_cooldown_ms cfg / 1000
      else batch_delay_ms cfg / 1000
  | None => 0
  end.

Definition steady (cfg : QQMSConfig) (calls : list ThrottleCall) : Prop :=
  (0 < max_requests_per_second cfg)%Q
  /\ (0 <= idle_delay_after_burst_ms cfg)%Q
  /\ (0 <= batch_delay_ms cfg)%Q
  /\ (0 <= batch_cooldown_ms cfg)%Q
  /\ Forall (fun c => (0 <= base_delay_ms cfg
                            * priority_multiplier cfg (call_priority c))%Q) calls.

Lemma cpu_multiplier_positive cfg cpu : (1 <= cpu_multiplier cfg cpu)%Q.
Proof.
  unfold cpu_multiplier.
  repeat match goal with |- context [if ?b then _ else _] => destruct b end;
    unfold Qle; simpl; lia.
Qed.

Lemma config_adjust th now sample :
  config (_adjust_threads_for_cpu th now sample) = config th
  /\ tokens (_adjust_threads_for_cpu th now sample) = tokens th
  /\ request_count (_adjust_threads_for_cpu th now sample) = request_count th
  /\ total_delay_ms (_adjust_threads_for_cpu th now sample) = total_delay_ms th.
Proof.
  unfold _adjust_threads_for_cpu. destruct (Qgt_bool 5 _); [auto|].
  destruct (get_cpu_usage _ _ _) as [cpu monitor]. cbn. auto.
Qed.

(** One [acquire] under a steady configuration. *)
Lemma acquire_statistics th i priority :
  (0 < max_requests_per_second (config th))%Q ->
  (0 <= idle_delay_after_burst_ms (config th))%Q ->
  (0 <= base_delay_ms (config th) * priority_multiplier (config th) priority)%Q ->
  exists delay,
    fst (acquire th i priority) = Some delay
    /\ (0 <= delay)%Q
    /\ config (snd (acquire th i priority)) = config th
    /\ request_count (snd (acquire th i priority)) = request_count th + 1
    /\ (total_delay_ms (snd (acquire th i priority))
        == total_delay_ms th + 1000 * delay)%Q.
Proof.
  intros Hrate Hidle Hbase. unfold acquire.
  destruct (config_adjust (_refill_tokens th (at_refill i)) (at_adjust i)
              (adjust_sample i)) as (Hcfg & _ & Hcount & Htotal).
  set (th1 := _adjust_threads_for_cpu _ _ _) in *.
  cbn [_refill_tokens config request_count total_delay_ms] in Hcfg, Hcount, Htotal.
  rewrite Hcfg.
  destruct (get_cpu_usage _ _ _) as [cpu monitor].
  pose proof (cpu_multiplier_positive (config th) cpu) as Hmult.
  set (mult := cpu_multiplier (config th) cpu) in *.
  set (base := (base_delay_ms (config th)
                * priority_multiplier (config th) priority)%Q) in *.
  assert (Hd1 : (0 <= base * mult)%Q) by Lqa.nra.
  assert (Hzero : Qeq_bool (max_requests_per_second (config th)) 0 = false).
  { destruct (Qeq_bool _ 0) eqn:E; [|reflexivity].
    apply Qeq_bool_iff in E. Lqa.lra. }
  rewrite Hzero, andb_false_r.
  set (rate := max_requests_per_second (config th)) in *.
  assert (Hwait : Qgt_bool 1 (tokens th1) = true ->
                  (0 <= (1 - tokens th1) / rate * 1000)%Q).
  { intros Hshort. apply Qgt_bool_iff in Hshort.
    unfold Qdiv. assert (Hi : (0 < / rate)%Q) by (now apply Qinv_lt_0_compat).
    set (ir := (/ rate)%Q) in *. Lqa.nra. }
  set (delay2 := if Qgt_bool 1 (tokens th1) then _ else _).
  assert (Hd2 : (0 <= delay2)%Q).
  { subst delay2. destruct (Qgt_bool 1 (tokens th1)); [|exact Hd1].
    specialize (Hwait eq_refl). Lqa.lra. }
  set (delay_ms := if negb _ && _ then _ else delay2).
  assert (Hd : (0 <= delay_ms)%Q).
  { subst delay_ms. destruct (negb _ && _); [Lqa.lra|exact Hd2]. }
  exists (delay_ms / 1000)%Q. cbn [fst snd config request_count total_delay_ms].
  split; [reflexivity|]. split.
  { unfold Qdiv. assert (H1000 : (0 < / 1000)%Q) by reflexivity. Lqa.nra. }
  split; [reflexivity|]. split; [lia|].
  rewrite Htotal.
  assert (Hback : (1000 * (delay_ms / 1000) == delay_ms)%Q) by (field; discriminate).
  rewrite Hback.
  destruct (Qgt_bool delay_ms 0) eqn:Hpos; [reflexivity|].
  assert (Hz : (delay_ms <= 0)%Q).
  { apply Qnot_lt_le. intros Hlt. apply Qgt_bool_iff in Hlt. congruence. }
  Lqa.lra.
Qed.

Lemma throttle_statistics th c :
  steady (config th) [c] ->
  exists delay,
    fst (throttle th c) = Some delay
    /\ (0 <= delay)%Q
    /\ config (snd (throttle th c)) = config th
    /\ request_count (snd (throttle th c)) = request_count th + 1
    /\ (total_delay_ms (snd (throttle th c))
        == total_delay_ms th + 1000 * (delay - batch_pause (config th) c))%Q.
Proof.
  intros (Hrate & Hidle & Hbd & Hbc & Hbase).
  inversion Hbase as [|? ? Hb _]; subst.
  destruct (acquire_statistics th (instants c) (call_priority c) Hrate Hidle Hb)
    as (delay & Hret & Hpos & Hcfg & Hcount & Htotal).
  unfold throttle, acquire_batch, batch_pause.
  destruct (call_batch c) as [batch_size|].
  - destruct (acquire th (instants c) (call_priority c)) as [[d|] th'];
      cbn [fst snd] in *; [|discriminate].
    injection Hret as ->. rewrite Hcfg.
    set (pause := if max_batch_size (config th) <? batch_size then _ else _).
    assert (Hpause : (0 <= pause)%Q).
    { subst pause. unfold Qdiv. assert (H1000 : (0 < / 1000)%Q) by reflexivity.
      destruct (_ <? _); Lqa.nra. }
    assert (Hneg : Qgt_bool 0 pause = false).
    { destruct (Qgt_bool 0 pause) eqn:E; [|reflexivity].
      apply Qgt_bool_iff in E. Lqa.lra. }
    rewrite Hneg. exists (delay + pause)%Q. cbn [fst snd].
    split; [reflexivity|]. split; [Lqa.lra|]. split; [exact Hcfg|].
    split; [exact Hcount|]. rewrite Htotal. Lqa.lra.
  - exists delay. split; [exact Hret|]. split; [exact Hpos|]. split; [exact Hcfg|].
    split; [exact Hcount|]. rewrite Htotal. Lqa.lra.
Qed.

(** X18. Under a configuration with a positive rate and no negative
    delay, every call returns a delay that is not negative,
    [request_count] grows by the number of calls, and [total_delay_ms]
    grows by the delays returned without the pauses of [acquire_batch]:
    the pause of a batch is slept and returned but not counted. *)
Theorem delay_statistics_leave_out_batch_pauses th calls :
  steady (config th) calls ->
  exists delays,
    fst (throttle_all th calls) = map Some delays
    /\ Forall (fun d => (0 <= d)%Q) delays
    /\ request_count (snd (throttle_all th calls))
       = request_count th + Z.of_nat (length calls)
    /\ (total_delay_ms (snd (throttle_all th calls))
        == total_delay_ms th
           + 1000 * (Qsum delays - Qsum (map (batch_pause (config th)) calls)))%Q.
Proof.
  revert th. induction calls as [|c calls IH]; intros th Hsteady.
  - exists []. cbn. repeat split; auto; [lia|Lqa.lra].
  - destruct Hsteady as (Hrate & Hidle & Hbd & Hbc & Hbase).
    inversion Hbase as [|? ? Hb Hrest]; subst.
    destruct (throttle_statistics th c) as (delay & Hret & Hpos & Hcfg & Hcount & Htotal).
    { repeat split; auto. }
    cbn [throttle_all].
    destruct (throttle th c) as [d th1]. cbn [fst snd] in *. subst d.
    destruct (IH th1) as (delays & Hds & Hall & Hcount2 & Htotal2).
    { rewrite Hcfg. repeat split; auto. }
    destruct (throttle_all th1 calls) as [ds th2]. cbn [fst snd] in *. subst ds.
    exists (delay :: delays). split; [reflexivity|]. split; [now constructor|].
    split; [cbn [length]; lia|].
    rewrite Htotal2, Htotal, Hcfg. cbn [map Qsum fold_right].
    fold (Qsum delays). fold (Qsum (map (batch_pause (config th)) calls)).
    Lqa.lra.
Qed.

Lemma delay_statistics_leave_out_batch_pauses_witness :
  exists delays,
    fst (throttle_all three_threads two_calls)
    = map Some delays
    /\ Forall (fun d => (0 <= d)%Q) delays
    /\ request_count (snd (throttle_all three_threads
                             two_calls))
       = 0 + 2
    /\ (total_delay_ms (snd (throttle_all three_threads
                               two_calls))
        == 0 + 1000 * (Qsum delays
                       - Qsum (map (batch_pause default_qqms_config)
                                   two_calls)))%Q.
Proof.
  apply (delay_statistics_leave_out_batch_pauses three_threads
           two_calls).
  repeat split; try (vm_compute; discriminate).
  repeat constructor; vm_compute; discriminate.
Defined.

End Throttler.

(** ** frankenstein-embeddings.py: [AdaptiveBatchSizer] *)

Module BatchSizer.
Import CpuMonitor.

(** [class ResourceConfig] *)
Record ResourceConfig := {
  cpu_min : Q;
  cpu_max : Q;
  ram_min_mb : Q;
  ram_max_mb : Q;
  heavy_ops_enabled : bool;
  heavy_ops_batch_mult : Q;
  heavy_ops_throttle_reduce : Q
}.

(** The values without any environment variable set. *)
Definition default_resources : ResourceConfig :=
  {| cpu_min := 20; cpu_max := 40; ram_min_mb := 4000; ram_max_mb := 6000;
     heavy_ops_enabled := false; heavy_ops_batch_mult := 2;
     heavy_ops_throttle_reduce := 1 # 5 |}.

(** [class AdaptiveBatchSizer] *)
Record AdaptiveBatchSizer := {
  config : ResourceConfig;
  base_batch_size : Z;
  min_batch_size : Z;
  max_batch_size : Z;
  current_batch_size : Z;
  last_adjustment : Q;
  adjustment_interval : Q;
  recent_cpu_samples : list Q
}.

(** [AdaptiveBatchSizer.__init__] at time [now] *)
Definition new_sizer (cfg : ResourceConfig) (now : Q) : AdaptiveBatchSizer :=
  {| config := cfg; base_batch_size := 64; min_batch_size := 16;
     max_batch_size := 128; current_batch_size := 64;
     last_adjustment := now; adjustment_interval := 5;
     recent_cpu_samples := [] |}.

(** What a call reads from outside: the clock, the four counters of the
    first line of [/proc/stat] ([None] when reading them raises) and the
    resident memory in MB. *)
Record Reading := {
  clock : Q;
  stat : option (Q * Q * Q * Q);
  ram_mb : Q
}.

(** [_get_cpu_usage] *)
Definition _get_cpu_usage (stat : option (Q * Q * Q * Q)) : Q :=
  match stat with
  | Some (user, nice, system, idle) =>
      let total := (user + nice + system + idle)%Q in
      let busy := (user + nice + system)%Q in
      if Qgt_bool total 0 then (busy / total * 100)%Q else 0
  | None => 50
  end.

(** [int(x)] of a float: towards zero *)
Definition py_int (x : Q) : Z := if Qgt_bool 0 x then Qceiling x else Qfloor x.

(** The CPU factor; [None] when the division by [cpu_max - cpu_min]
    raises. *)
Definition cpu_factor (cfg : ResourceConfig) (avg_cpu : Q) : option Q :=
  if Qgt_bool (cpu_min cfg) avg_cpu then Some (3 # 2)
  else if Qgt_bool avg_cpu (cpu_max cfg) then Some (1 # 2)
  else if Qeq_bool (cpu_max cfg - cpu_min cfg) 0 then None
  else Some ((3 # 2) - (avg_cpu - cpu_min cfg) / (cpu_max cfg - cpu_min cfg) * 1)%Q.

Definition ram_factor (cfg : ResourceConfig) (ram_mb : Q) : Q :=
  if Qgt_bool ram_mb (ram_max_mb cfg * (9 # 10)) then 1 # 2
  else if Qgt_bool ram_mb (ram_max_mb cfg * (3 # 4)) then 3 # 4
  else if Qgt_bool (ram_min_mb cfg) ram_mb then 5 # 4
  else 1.

Definition with_sample (sz : AdaptiveBatchSizer) (now : Q) (samples : list Q)
    (size : Z) : AdaptiveBatchSizer :=
  {| config := config sz; base_batch_size := base_batch_size sz;
     min_batch_size := min_batch_size sz; max_batch_size := max_batch_size sz;
     current_batch_size := size;
     last_adjustment := now; adjustment_interval := adjustment_interval sz;
     recent_cpu_samples := samples |}.

(** [get_adaptive_batch_size]: the size returned, [None] when the call
    raises, and the sizer afterwards. *)
Definition get_adaptive_batch_size (sz : AdaptiveBatchSizer) (r : Reading)
  : option Z * AdaptiveBatchSizer :=
  let now := clock r in
  if Qgt_bool (adjustment_interval sz) (now - last_adjustment sz)
  then (Some (current_batch_size sz), sz)
  else
    let samples := push_bounded 10 (_get_cpu_usage (stat r)) (recent_cpu_samples sz) in
    let avg_cpu := (Qsum samples / inject_Z (Z.of_nat (length samples)))%Q in
    match cpu_factor (config sz) avg_cpu with
    | None => (None, with_sample sz now samples (current_batch_size sz))
    | Some cf =>
        let heavy_mult :=
          if heavy_ops_enabled (config sz) then heavy_ops_batch_mult (config sz)
          else 1%Q in
        let new_size :=
          Z.max (min_batch_size sz)
            (Z.min (max_batch_size sz)
               (py_int (inject_Z (base_batch_size sz) * cf
                        * ram_factor (config sz) (ram_mb r) * heavy_mult))) in
        let size :=
          if current_batch_size sz <? new_size
          then Z.min new_size (current_batch_size sz + 8)
          else if new_size <? current_batch_size sz
          then Z.max new_size (current_batch_size sz - 8)
          else current_batch_size sz in
        (Some size, with_sample sz now samples size)
    end.

(** Calls one after the other: what each returns and the batch size the
    sizer holds after it. *)
Fixpoint sizes (sz : AdaptiveBatchSizer) (readings : list Reading)
  : list (option Z * Z) :=
  match readings with
  | [] => []
  | r :: rest =>
      let '(result, sz') := get_adaptive_batch_size sz r in
      (result, current_batch_size sz') :: sizes sz' rest
  end.

(** *** The batch size is bounded and moves slowly *)

(** Each call returns the size the sizer holds after it, or raises and
    leaves the size as it was; the size is between 16 and 128 and at most
    8 away from the one before. *)
Fixpoint gentle (previous : Z) (run : list (option Z * Z)) : Prop :=
  match run with
  | [] => True
  | (result, size) :: rest =>
      (result = Some size \/ (result = None /\ size = previous))
      /\ 16 <= size <= 128
      /\ Z.abs (size - previous) <= 8
      /\ gentle size rest
  end.

Definition bounded (sz : AdaptiveBatchSizer) : Prop :=
  min_batch_size sz = 16 /\ max_batch_size sz = 128
  /\ 16 <= current_batch_size sz <= 128.

Lemma get_adaptive_batch_size_gentle sz r :
  bounded sz ->
  let result := get_adaptive_batch_size sz r in
  bounded (snd result)
  /\ (fst result = Some (current_batch_size (snd result))
      \/ (fst result = None /\ current_batch_size (snd result) = current_batch_size sz))
  /\ Z.abs (current_batch_size (snd result) - current_batch_size sz) <= 8
  /\ (fst result = None -> (cpu_max (config sz) == cpu_min (config sz))%Q).
Proof.
  intros (Hmin & Hmax & Hcur). unfold get_adaptive_batch_size.
  destruct (Qgt_bool (adjustment_interval sz) _).
  { cbn [fst snd]. repeat split; auto; try lia. discriminate. }
  set (samples := push_bounded 10 _ _).
  set (avg := (Qsum samples / _)%Q).
  unfold cpu_factor.
  destruct (Qgt_bool (cpu_min (config sz)) avg);
    [|destruct (Qgt_bool avg (cpu_max (config sz)));
      [|destruct (Qeq_bool (cpu_max (config sz) - cpu_min (config sz)) 0) eqn:Hzero]].
  3:{ cbn [fst snd with_sample current_batch_size min_batch_size max_batch_size].
      unfold bounded. cbn [with_sample current_batch_size min_batch_size max_batch_size].
      repeat split; auto; try lia.
      intros _. apply Qeq_bool_iff in Hzero. Lqa.lra. }
  all: cbn [fst snd with_sample current_batch_size];
    unfold bounded; cbn [with_sample current_batch_size min_batch_size max_batch_size];
    rewrite Hmin, Hmax;
    match goal with |- context [py_int ?x] => generalize (py_int x); intros k end;
    destruct (current_batch_size sz <? Z.max 16 (Z.min 128 k)) eqn:Hup;
    [apply Z.ltb_lt in Hup
    |apply Z.ltb_ge in Hup;
     destruct (Z.max 16 (Z.min 128 k) <? current_batch_size sz) eqn:Hdown;
     [apply Z.ltb_lt in Hdown|apply Z.ltb_ge in Hdown]];
    repeat split; auto; try lia; try discriminate.
Qed.

Lemma sizes_gentle readings : forall sz,
  bounded sz -> gentle (current_batch_size sz) (sizes sz readings).
Proof.
  induction readings as [|r rest IH]; intros sz Hb; cbn [sizes gentle]; [exact I|].
  destruct (get_adaptive_batch_size_gentle sz r Hb) as (Hb' & Hret & Hstep & _).
  destruct (get_adaptive_batch_size sz r) as [result sz']. cbn [fst snd] in *.
  cbn [gentle]. split; [exact Hret|]. split; [apply Hb'|]. split; [exact Hstep|].
  now apply IH.
Qed.

(** X19. From its construction on, whatever the clock, the CPU counters
    and the memory read, the sizer returns the batch size it holds, which
    stays between 16 and 128 and moves by at most 8 from one call to the
    next; a call raises only when [cpu_max] equals [cpu_min], and then
    keeps the size. *)
Theorem batch_size_is_bounded_and_gentle cfg now readings :
  gentle 64 (sizes (new_sizer cfg now) readings)
  /\ forall sz r,
       bounded sz ->
       fst (get_adaptive_batch_size sz r) = None ->
       (cpu_max (config sz) == cpu_min (config sz))%Q.
Proof.
  split.
  - apply (sizes_gentle readings (new_sizer cfg now)).
    unfold bounded. cbn. lia.
  - intros sz r Hb. apply (get_adaptive_batch_size_gentle sz r Hb).
Qed.

End BatchSizer.

(** ** frankenstein-embeddings.py: [_ensure_model_loaded] *)

Module ModelLoader.
Import CpuMonitor.














End ModelLoader.

(** ** frankenstein-embeddings.py: the KYS watchdog of [EmbeddingServer] *)

Module Watchdog.

(** The mode [__init__] keeps, from [SPECMEM_KYS_MODE] in lower case. *)
Definition init_kys_mode (lowered : string) : string :=
  if String.eqb lowered "kill" || String.eqb lowered "unload"
     || String.eqb lowered "standby"
  then lowered else "unload"%string.

(** The fields of the server the watchdog reads and writes; [model_loaded]
    stands for [self.embedder.model is not None]. *)
Record Liveness := {
  last_request_time : Q;
  last_kys_time : Q;
  kys_timeout : Z;
  kys_mode : string;
  model_loaded : bool;
  shutdown_requested : bool
}.

(** [EmbeddingServer.__init__], at the two readings of the clock. *)
Definition new_server (t_request t_kys : Q) (timeout : Z) (lowered : string)
    (loaded : bool) : Liveness :=
  {| last_request_time := t_request; last_kys_time := t_kys;
     kys_timeout := timeout; kys_mode := init_kys_mode lowered;
     model_loaded := loaded; shutdown_requested := false |}.

(** [_handle_connection] on a request that is not a shutdown request,
    up to the call of [handle_request]. *)
Definition connection (w : Liveness) (t_request t_kys : Q) : Liveness :=
  {| last_request_time := t_request; last_kys_time := t_kys;
     kys_timeout := kys_timeout w; kys_mode := kys_mode w;
     model_loaded := model_loaded w; shutdown_requested := shutdown_requested w |}.

(** A [{"type": "kys"}] request: the connection, then the branch of
    [handle_request]. *)
Definition kys_heartbeat (w : Liveness) (t_request t_kys t_ack : Q) : Liveness :=
  connection (connection w t_request t_kys) t_request t_ack.

(** What one round of the watchdog reads from outside: the clock, three
    times, and whether [pgrep] finds a client process of the project. *)
Record Tick := {
  t_grace : Q;
  t_kys : Q;
  t_activity : Q;
  claude_alive : bool
}.

Inductive Action := Stay | Unload | Exit.

(** One round of the loop of [watchdog] after its [time.sleep(10)];
    [Exit] is [os._exit(0)]. *)
Definition watchdog_tick (startup_time : Q) (w : Liveness) (k : Tick)
  : Action * Liveness :=
  if Qgt_bool 60 (t_grace k - startup_time) then (Stay, w)
  else
    let time_since_kys := (t_kys k - last_kys_time w)%Q in
    let time_since_activity := (t_activity k - last_request_time w)%Q in
    if claude_alive k then (Stay, w)
    else if Qgt_bool time_since_kys (inject_Z (kys_timeout w)) then
      if Qgt_bool 300 time_since_activity then (Stay, w)
      else if String.eqb (kys_mode w) "standby" then (Stay, w)
      else if String.eqb (kys_mode w) "unload" then
        if model_loaded w then
          (Unload,
           {| last_request_time := last_request_time w;
              last_kys_time := last_kys_time w;
              kys_timeout := kys_timeout w; kys_mode := kys_mode w;
              model_loaded := false; shutdown_requested := shutdown_requested w |})
        else (Stay, w)
      else
        (Exit,
         {| last_request_time := last_request_time w;
            last_kys_time := last_kys_time w;
            kys_timeout := kys_timeout w; kys_mode := kys_mode w;
            model_loaded := model_loaded w; shutdown_requested := true |})
    else (Stay, w).

Lemma init_kys_mode_cases lowered :
  init_kys_mode lowered = "kill"%string /\ lowered = "kill"%string
  \/ init_kys_mode lowered = "unload"%string
  \/ init_kys_mode lowered = "standby"%string.
Proof.
  unfold init_kys_mode.
  destruct (String.eqb lowered "kill") eqn:E1.
  { apply String.eqb_eq in E1. subst. left. split; reflexivity. }
  destruct (String.eqb lowered "unload") eqn:E2.
  { apply String.eqb_eq in E2. subst. right. left. reflexivity. }
  destruct (String.eqb lowered "standby") eqn:E3.
  { apply String.eqb_eq in E3. subst. right. right. reflexivity. }
  right. left. reflexivity.
Qed.

Lemma fresh_heartbeat_stays startup w k :
  (t_kys k - last_kys_time w <= inject_Z (kys_timeout w))%Q ->
  watchdog_tick startup w k = (Stay, w).
Proof.
  intros Hfresh. unfold watchdog_tick.
  destruct (Qgt_bool 60 _); [reflexivity|].
  destruct (claude_alive k); [reflexivity|].
  destruct (Qgt_bool _ (inject_Z (kys_timeout w))) eqn:Hold; [|reflexivity].
  apply Qgt_bool_iff in Hold. Lqa.lra.
Qed.

Lemma unload_state startup w k :
  fst (watchdog_tick startup w k) = Unload ->
  kys_mode w = "unload"%string
  /\ model_loaded (snd (watchdog_tick startup w k)) = false
  /\ kys_mode (snd (watchdog_tick startup w k)) = kys_mode w.
Proof.
  unfold watchdog_tick.
  destruct (Qgt_bool 60 _); [discriminate|].
  destruct (claude_alive k); [discriminate|].
  destruct (Qgt_bool _ (inject_Z (kys_timeout w))); [|discriminate].
  destruct (Qgt_bool 300 _); [discriminate|].
  destruct (String.eqb (kys_mode w) "standby"); [discriminate|].
  destruct (String.eqb (kys_mode w) "unload") eqn:Hu; [|discriminate].
  destruct (model_loaded w); [|discriminate].
  intros _. apply String.eqb_eq in Hu. cbn. auto.
Qed.

Lemma unloaded_stays startup w k :
  kys_mode w = "unload"%string -> model_loaded w = false ->
  watchdog_tick startup w k = (Stay, w).
Proof.
  intros Hmode Hmodel. unfold watchdog_tick. rewrite Hmode, Hmodel. cbn.
  destruct (Qgt_bool 60 _); [reflexivity|].
  destruct (claude_alive k); [reflexivity|].
  destruct (Qgt_bool _ (inject_Z (kys_timeout w))); [|reflexivity].
  destruct (Qgt_bool 300 _); reflexivity.
Qed.

(** X21. The watchdog and the heartbeat.  With the mode [__init__]
    keeps: the process exits only when [SPECMEM_KYS_MODE] is [kill] (any
    other value, valid or not, never makes it exit); a round that acts
    comes after the 60 seconds of grace, finds no client process, a
    heartbeat older than [kys_timeout] and no request for 300 seconds;
    after any request, and after a [kys] heartbeat, a round whose clock is
    at most [kys_timeout] later leaves the server as it is; and once the
    model is unloaded the following rounds do nothing. *)
Theorem watchdog_spares_live_servers startup lowered w k :
  kys_mode w = init_kys_mode lowered ->
  (fst (watchdog_tick startup w k) = Exit -> lowered = "kill"%string)
  /\ (fst (watchdog_tick startup w k) <> Stay ->
      (60 <= t_grace k - startup)%Q
      /\ claude_alive k = false
      /\ (inject_Z (kys_timeout w) < t_kys k - last_kys_time w)%Q
      /\ (300 <= t_activity k - last_request_time w)%Q)
  /\ (forall t_request t_beat,
        (t_kys k - t_beat <= inject_Z (kys_timeout w))%Q ->
        watchdog_tick startup (connection w t_request t_beat) k
        = (Stay, connection w t_request t_beat))
  /\ (forall t_request t_beat t_ack,
        (t_kys k - t_ack <= inject_Z (kys_timeout w))%Q ->
        watchdog_tick startup (kys_heartbeat w t_request t_beat t_ack) k
        = (Stay, kys_heartbeat w t_request t_beat t_ack))
  /\ (fst (watchdog_tick startup w k) = Unload ->
      forall k',
        watchdog_tick startup (snd (watchdog_tick startup w k)) k'
        = (Stay, snd (watchdog_tick startup w k))).
Proof.
  intros Hmode. split; [|split; [|split; [|split]]].
  - unfold watchdog_tick. rewrite Hmode.
    destruct (Qgt_bool 60 _); [discriminate|].
    destruct (claude_alive k); [discriminate|].
    destruct (Qgt_bool _ (inject_Z (kys_timeout w))); [|discriminate].
    destruct (Qgt_bool 300 _); [discriminate|].
    destruct (init_kys_mode_cases lowered) as [[E ->]|[E|E]]; rewrite E; cbn.
    + intros _. reflexivity.
    + destruct (model_loaded w); discriminate.
    + discriminate.
  - unfold watchdog_tick.
    destruct (Qgt_bool 60 _) eqn:Hgrace; [intros H; now contradiction H|].
    destruct (claude_alive k); [intros H; now contradiction H|].
    destruct (Qgt_bool _ (inject_Z (kys_timeout w))) eqn:Hold;
      [|intros H; now contradiction H].
    destruct (Qgt_bool 300 _) eqn:Hact; [intros H; now contradiction H|].
    intros _. apply Qgt_bool_iff in Hold.
    assert (H60 : ~ (t_grace k - startup < 60)%Q).
    { intros Hlt. apply Qgt_bool_iff in Hlt. congruence. }
    assert (H300 : ~ (t_activity k - last_request_time w < 300)%Q).
    { intros Hlt. apply Qgt_bool_iff in Hlt. congruence. }
    repeat split; auto.
    + now apply Qnot_lt_le.
    + now apply Qnot_lt_le.
  - intros t_request t_beat Hfresh. now apply fresh_heartbeat_stays.
  - intros t_request t_beat t_ack Hfresh. now apply fresh_heartbeat_stays.
  - intros Hun k'.
    destruct (unload_state startup w k Hun) as (Hu & Hm' & Hmode').
    apply unloaded_stays; [now rewrite Hmode'|exact Hm'].
Qed.

(** A server started at time 0 in mode [kill] with the default timeout of
    600 seconds, and a round of the watchdog at time 1000. *)
Definition orphan : Liveness := new_server 0 0 600 "kill" true.

Definition late_round : Tick :=
  {| t_grace := 1000; t_kys := 1000; t_activity := 1000; claude_alive := false |}.

Lemma watchdog_spares_live_servers_witness :
  fst (watchdog_tick 0 orphan late_round) = Exit
  /\ watchdog_tick 0 (connection orphan 500 500) late_round
     = (Stay, connection orphan 500 500).
Proof.
  pose proof (watchdog_spares_live_servers 0 "kill" orphan late_round eq_refl)
    as (_ & _ & Hrequest & _).
  split; [reflexivity|].
  apply Hrequest. vm_compute. discriminate.
Defined.

End Watchdog.

(** ** frankenstein-embeddings.py: names derived from the project path

    Strings are lists of bytes (UTF-8).  [str.lower] is left to Python:
    the development holds for any function in its place.  A character
    outside ASCII is several bytes, none of them allowed by the two
    patterns below: the bytes become a run of the fill character, which
    the next substitution collapses to the single one Python gets. *)

Module Naming.

Definition text (s : string) : list ascii := list_ascii_of_string s.

(** [s.lstrip(c)], [s.rstrip(c)] and [s.strip(c)] for one character *)
Fixpoint lstrip (c : ascii) (l : list ascii) : list ascii :=
  match l with
  | [] => []
  | x :: rest => if Ascii.eqb x c then lstrip c rest else l
  end.

Fixpoint rstrip (c : ascii) (l : list ascii) : list ascii :=
  match l with
  | [] => []
  | x :: rest =>
      match rstrip c rest with
      | [] => if Ascii.eqb x c then [] else [x]
      | kept => x :: kept
      end
  end.

Definition strip (c : ascii) (l : list ascii) : list ascii := rstrip c (lstrip c l).

(** [os.path.basename]: what follows the last slash *)
Definition basename (path : list ascii) : list ascii :=
  fold_left (fun acc x => if Ascii.eqb x "/" then [] else acc ++ [x]) path [].

(** [re.sub(r'[^...]', fill, s)]: every character outside the class
    becomes [fill] *)
Definition replace_outside (allowed : ascii -> bool) (fill : ascii) (l : list ascii)
  : list ascii :=
  map (fun x => if allowed x then x else fill) l.

(** [re.sub(fill + '+', fill, s)]: every run of [fill] becomes one *)
Fixpoint collapse (fill : ascii) (l : list ascii) : list ascii :=
  match l with
  | [] => []
  | x :: rest =>
      match rest with
      | y :: _ =>
          if Ascii.eqb x fill && Ascii.eqb y fill then collapse fill rest
          else x :: collapse fill rest
      | [] => [x]
      end
  end.

Definition between (lo hi : nat) (c : ascii) : bool :=
  ((lo <=? nat_of_ascii c)%nat && (nat_of_ascii c <=? hi)%nat).

(** [[a-z0-9_]] *)
Definition schema_char (c : ascii) : bool :=
  between 97 122 c || between 48 57 c || Ascii.eqb c "_".

(** [[a-z0-9_.-]] *)
Definition docker_char (c : ascii) : bool :=
  schema_char c || Ascii.eqb c "." || Ascii.eqb c "-".

(** [project_path in ('/', '')] *)
Definition is_root (project_path : list ascii) : bool :=
  match project_path with
  | [] => true
  | [c] => Ascii.eqb c "/"
  | _ => false
  end.

Section Names.

(** [str.lower] *)
Variable lower : list ascii -> list ascii.

(** [_get_db_schema], of [FrankensteinEmbeddings] and of
    [EmbeddingServer], on [os.environ.get('SPECMEM_DB_SCHEMA', '')] and
    [os.environ.get('SPECMEM_PROJECT_PATH', '/')]. *)
Definition _get_db_schema (schema project_path : list ascii) : list ascii :=
  match schema with
  | _ :: _ => schema
  | [] =>
      if is_root project_path then text "specmem_default"
      else
        let dir_name := basename (rstrip "/" project_path) in
        let dir_name := replace_outside schema_char "_" (lower dir_name) in
        let dir_name := strip "_" (collapse "_" dir_name) in
        match dir_name with
        | [] => text "specmem_default"
        | _ => text "specmem_" ++ firstn 50 dir_name
        end
  end.

(** [get_project_dir_name], on
    [os.environ.get('SPECMEM_PROJECT_PATH', os.getcwd())]. *)
Definition get_project_dir_name (project_path : list ascii) : list ascii :=
  let dir_name := lower (basename project_path) in
  let dir_name := replace_outside docker_char "-" dir_name in
  let dir_name := collapse "-" dir_name in
  let dir_name := strip "-" dir_name in
  match dir_name with
  | [] => text "default"
  | _ => dir_name
  end.

End Names.

(** *** What the names are made of *)

(** No two [fill] characters in a row. *)
Fixpoint single (fill : ascii) (l : list ascii) : Prop :=
  match l with
  | x :: (y :: _) as rest => ~ (x = fill /\ y = fill) /\ single fill rest
  | _ => True
  end.

Lemma Forall_lstrip (P : ascii -> Prop) c l : Forall P l -> Forall P (lstrip c l).
Proof.
  induction 1 as [|x rest Hx Hrest IH]; simpl; [constructor|].
  destruct (Ascii.eqb x c); [exact IH|now constructor].
Qed.

Lemma Forall_rstrip (P : ascii -> Prop) c l : Forall P l -> Forall P (rstrip c l).
Proof.
  induction 1 as [|x rest Hx Hrest IH]; simpl; [constructor|].
  destruct (rstrip c rest) as [|y kept].
  - destruct (Ascii.eqb x c); [constructor|now constructor].
  - now constructor.
Qed.

Lemma Forall_collapse (P : ascii -> Prop) c l : Forall P l -> Forall P (collapse c l).
Proof.
  induction 1 as [|x rest Hx Hrest IH]; simpl; [constructor|].
  destruct rest as [|y rest']; [now constructor|].
  destruct (Ascii.eqb x c && Ascii.eqb y c); [exact IH|now constructor].
Qed.

Lemma Forall_firstn (P : ascii -> Prop) n l : Forall P l -> Forall P (firstn n l).
Proof.
  intros H. revert n. induction H as [|x rest Hx Hrest IH]; intros [|n]; simpl;
    constructor; auto.
Qed.

Lemma Forall_replace_outside allowed fill l :
  allowed fill = true ->
  Forall (fun x => allowed x = true) (replace_outside allowed fill l).
Proof.
  intros Hfill. unfold replace_outside. apply List.Forall_forall.
  intros y Hy. apply in_map_iff in Hy. destruct Hy as (x & <- & _).
  destruct (allowed x) eqn:E; [exact E|exact Hfill].
Qed.

Lemma single_collapse c l : single c (collapse c l).
Proof.
  induction l as [|x rest IH]; [exact I|].
  cbn [collapse]. destruct rest as [|y rest']; [exact I|].
  destruct (Ascii.eqb x c && Ascii.eqb y c) eqn:E; [exact IH|].
  remember (collapse c (y :: rest')) as tail eqn:Htail.
  destruct tail as [|z tail']; [exact I|].
  cbn [single]. split; [|exact IH].
  intros [-> ->].
  (* the head of what is kept is [y], or [y] is [c] too *)
  rewrite Ascii.eqb_refl in E. cbn [andb] in E.
  cbn [collapse] in Htail. destruct rest' as [|y' rest''].
  - injection Htail as <- _. rewrite Ascii.eqb_refl in E. discriminate.
  - destruct (Ascii.eqb y c && Ascii.eqb y' c) eqn:E2.
    + apply andb_prop in E2. destruct E2 as [E2 _]. congruence.
    + injection Htail as <- _. rewrite Ascii.eqb_refl in E. discriminate.
Qed.

Lemma single_tail c x l : single c (x :: l) -> single c l.
Proof. destruct l; [trivial|]. cbn [single]. tauto. Qed.

Lemma single_lstrip c d l : single c l -> single c (lstrip d l).
Proof.
  induction l as [|x rest IH]; intros H; simpl; [exact I|].
  destruct (Ascii.eqb x d); [|exact H].
  apply IH. eapply single_tail; eauto.
Qed.

Lemma rstrip_cons c x rest :
  rstrip c (x :: rest) = [] \/ exists kept, rstrip c (x :: rest) = x :: kept
                                            /\ (kept = rstrip c rest).
Proof.
  simpl. destruct (rstrip c rest) as [|y kept].
  - destruct (Ascii.eqb x c); [now left|right; now exists []].
  - right. now exists (y :: kept).
Qed.

Lemma hd_rstrip_some c l y :
  hd_error (rstrip c l) = Some y -> hd_error l = Some y.
Proof.
  destruct l as [|x rest]; [discriminate|].
  destruct (rstrip_cons c x rest) as [->|(kept & -> & _)]; [discriminate|].
  trivial.
Qed.

Lemma single_rstrip c d l : single c l -> single c (rstrip d l).
Proof.
  induction l as [|x rest IH]; intros H; [exact I|].
  destruct (rstrip_cons d x rest) as [->|(kept & -> & ->)]; [exact I|].
  specialize (IH (single_tail c x rest H)).
  destruct (rstrip d rest) as [|y kept'] eqn:Hk; [exact I|].
  cbn [single]. split; [|exact IH].
  assert (Hy : hd_error rest = Some y).
  { apply (hd_rstrip_some d). now rewrite Hk. }
  destruct rest as [|y0 rest0]; [discriminate|]. injection Hy as ->.
  cbn [single] in H. tauto.
Qed.

Lemma single_firstn c n l : single c l -> single c (firstn n l).
Proof.
  revert n. induction l as [|x rest IH]; intros [|n] H; try exact I.
  cbn [firstn]. specialize (IH n (single_tail c x rest H)).
  destruct rest as [|y rest0]; [destruct n; exact I|].
  destruct n as [|n]; [exact I|].
  cbn [firstn] in *. cbn [single] in H |- *. tauto.
Qed.

Lemma hd_lstrip c l : hd_error (lstrip c l) <> Some c.
Proof.
  induction l as [|x rest IH]; simpl; [discriminate|].
  destruct (Ascii.eqb x c) eqn:E; [exact IH|].
  simpl. intros [= ->]. rewrite Ascii.eqb_refl in E. discriminate.
Qed.

Lemma hd_strip c l : hd_error (strip c l) <> Some c.
Proof.
  unfold strip. intros H. apply hd_rstrip_some in H. now apply hd_lstrip in H.
Qed.

Lemma last_rstrip c l : rstrip c l <> [] -> List.last (rstrip c l) c <> c.
Proof.
  induction l as [|x rest IH]; [intros H; now contradiction H|].
  simpl. destruct (rstrip c rest) as [|y kept] eqn:Hk.
  - destruct (Ascii.eqb x c) eqn:E; [intros H; now contradiction H|].
    intros _. simpl. intros ->. rewrite Ascii.eqb_refl in E. discriminate.
  - intros _. change (List.last (x :: y :: kept) c) with (List.last (y :: kept) c).
    apply IH. discriminate.
Qed.

(** X22. Without [SPECMEM_DB_SCHEMA], the schema name is
    [specmem_default] or [specmem_] followed by one to fifty characters
    of [[a-z0-9_]] that do not start with an underscore and have no two
    underscores in a row: at most 58 characters, all of [[a-z0-9_]],
    whatever the project path.  A schema given by [SPECMEM_DB_SCHEMA] is
    returned as it is.  The project directory name is never empty, is
    made of [[a-z0-9_.-]], neither starts nor ends with a dash and has no
    two dashes in a row. *)
Theorem derived_names_are_safe lower project_path :
  let schema := _get_db_schema lower [] project_path in
  let dir := get_project_dir_name lower project_path in
  (schema = text "specmem_default"
   \/ exists name,
        schema = text "specmem_" ++ name
        /\ name <> [] /\ (length name <= 50)%nat
        /\ hd_error name <> Some "_"%char /\ single "_" name)
  /\ Forall (fun c => schema_char c = true) schema
  /\ (length schema <= 58)%nat
  /\ dir <> []
  /\ Forall (fun c => docker_char c = true) dir
  /\ hd_error dir <> Some "-"%char
  /\ List.last dir "-"%char <> "-"%char
  /\ single "-" dir
  /\ forall given, given <> [] -> _get_db_schema lower given project_path = given.
Proof.
  intros schema dir.
  assert (Hschema :
            schema = text "specmem_default"
            \/ exists name,
                 schema = text "specmem_" ++ name
                 /\ name <> [] /\ (length name <= 50)%nat
                 /\ hd_error name <> Some "_"%char /\ single "_" name
                 /\ Forall (fun c => schema_char c = true) name).
  { subst schema. unfold _get_db_schema.
    destruct (is_root project_path); [now left|].
    set (cleaned := replace_outside schema_char "_" _).
    destruct (strip "_" (collapse "_" cleaned)) as [|x kept] eqn:Hname; [now left|].
    right. exists (firstn 50 (x :: kept)). split; [reflexivity|].
    split; [discriminate|]. split; [apply firstn_le_length|].
    split.
    - change (hd_error (firstn 50 (x :: kept))) with (hd_error (x :: kept)).
      rewrite <- Hname. apply hd_strip.
    - split.
      + apply single_firstn. rewrite <- Hname. unfold strip.
        apply single_rstrip, single_lstrip, single_collapse.
      + apply Forall_firstn. rewrite <- Hname. unfold strip.
        apply Forall_rstrip, Forall_lstrip, Forall_collapse.
        now apply Forall_replace_outside. }
  assert (Hdir : dir = text "default"
                 \/ (dir = strip "-" (collapse "-"
                                        (replace_outside docker_char "-"
                                           (lower (basename project_path))))
                     /\ dir <> [])).
  { subst dir. unfold get_project_dir_name.
    destruct (strip "-" _) as [|x kept]; [now left|right].
    split; [reflexivity|discriminate]. }
  split; [|split; [|split; [|split; [|split; [|split; [|split; [|split]]]]]]].
  - destruct Hschema as [H|(name & H1 & H2 & H3 & H4 & H5 & _)]; [now left|right].
    exists name. auto.
  - destruct Hschema as [->|(name & -> & _ & _ & _ & _ & Hall)].
    + repeat constructor.
    + apply Forall_app. split; [repeat constructor|exact Hall].
  - destruct Hschema as [->|(name & -> & _ & Hlen & _)].
    + cbn. lia.
    + rewrite length_app. cbn [text list_ascii_of_string length]. lia.
  - destruct Hdir as [->|[_ H]]; [discriminate|exact H].
  - destruct Hdir as [->|[-> _]].
    + repeat constructor.
    + unfold strip. apply Forall_rstrip, Forall_lstrip, Forall_collapse.
      now apply Forall_replace_outside.
  - destruct Hdir as [->|[-> _]]; [discriminate|apply hd_strip].
  - destruct Hdir as [->|[Heq Hne]].
    + cbn. discriminate.
    + rewrite Heq in *. unfold strip in *. now apply last_rstrip.
  - destruct Hdir as [->|[-> _]].
    + cbn. repeat split; intros [H _]; discriminate H.
    + unfold strip. apply single_rstrip, single_lstrip, single_collapse.
  - intros given Hgiven. unfold _get_db_schema.
    destruct given; [now contradiction Hgiven|reflexivity].
Qed.

End Naming.

(** ** frankenstein-embeddings.py: the projection cache of
    [DimensionExpander] *)

Module ProjectionCache.
Import Adapter.

(** A projection matrix, held by its columns: [embedding @ proj] is the
    list of the dot products of [embedding] with the columns. *)
Definition Matrix := list (list R).

(** The cache key [(len(embedding), target_extra_dims)] *)
Definition key_eqb (a b : nat * Z) : bool :=
  Nat.eqb (fst a) (fst b) && Z.eqb (snd a) (snd b).

Lemma key_eqb_spec a b : key_eqb a b = true <-> a = b.
Proof.
  destruct a as [n k], b as [n' k']. unfold key_eqb. cbn [fst snd].
  rewrite andb_true_iff, Nat.eqb_eq, Z.eqb_eq. split.
  - intros [-> ->]. reflexivity.
  - intros [= -> ->]. auto.
Qed.

(** [MAX_PROJECTION_CACHE_SIZE] *)
Definition MAX_PROJECTION_CACHE_SIZE : nat := 100.

Section Projection.

(** [np.random.randn(n, k) / np.sqrt(n)] straight after
    [np.random.seed(42)]: the matrix depends on its shape alone. *)
Variable seeded_matrix : nat -> Z -> Matrix.

(** [_random_projection_expand]: the vector returned and the cache
    afterwards. *)
Definition _random_projection_expand (projection_cache : list (nat * Z * Matrix))
    (embedding : list R) (target_extra_dims : Z)
  : list R * list (nat * Z * Matrix) :=
  if target_extra_dims <=? 0 then ([], projection_cache)
  else
    let cache_key := (length embedding, target_extra_dims) in
    let cache :=
      match PyDict.get key_eqb cache_key projection_cache with
      | None =>
          PyDict.set key_eqb cache_key
            (seeded_matrix (length embedding) target_extra_dims)
            (if (MAX_PROJECTION_CACHE_SIZE <=? length projection_cache)%nat
             then PyDict.popitem_first projection_cache
             else projection_cache)
      | Some _ => PyDict.move_to_end key_eqb cache_key projection_cache
      end in
    match PyDict.get key_eqb cache_key cache with
    | Some proj => (map (dot embedding) proj, cache)
    | None => ([], cache)
    end.

(** Calls one after the other, from a cache. *)
Fixpoint project_all (projection_cache : list (nat * Z * Matrix))
    (calls : list (list R * Z)) : list (list R) * list (nat * Z * Matrix) :=
  match calls with
  | [] => ([], projection_cache)
  | (embedding, k) :: rest =>
      let '(v, cache1) := _random_projection_expand projection_cache embedding k in
      let '(vs, cache2) := project_all cache1 rest in
      (v :: vs, cache2)
  end.

(** The projection without a cache. *)
Definition uncached (call : list R * Z) : list R :=
  if snd call <=? 0 then []
  else map (dot (fst call)) (seeded_matrix (length (fst call)) (snd call)).

(** Every matrix in the cache is the one of its key, and there are at
    most a hundred of them. *)
Definition coherent (projection_cache : list (nat * Z * Matrix)) : Prop :=
  Forall (fun entry => snd entry = seeded_matrix (fst (fst entry)) (snd (fst entry)))
         projection_cache
  /\ (length projection_cache <= MAX_PROJECTION_CACHE_SIZE)%nat.

Lemma projection_step projection_cache embedding k :
  coherent projection_cache ->
  fst (_random_projection_expand projection_cache embedding k) = uncached (embedding, k)
  /\ coherent (snd (_random_projection_expand projection_cache embedding k)).
Proof.
  intros [Hall Hlen]. unfold _random_projection_expand, uncached. cbn [fst snd].
  destruct (k <=? 0); [split; [reflexivity|split; assumption]|].
  set (key := (length embedding, k)).
  set (cache := match PyDict.get key_eqb key projection_cache with
                | None => _
                | Some _ => _
                end).
  assert (Hcache : coherent cache).
  { subst cache. destruct (PyDict.get key_eqb key projection_cache) as [m|] eqn:Hget.
    - split.
      + now apply (PyDict.Forall_move_to_end key_eqb key_eqb_spec).
      + now rewrite CacheTiers.length_move_to_end.
    - split.
      + apply (PyDict.Forall_set key_eqb key_eqb_spec); [|reflexivity].
        destruct (_ <=? _)%nat; [now apply PyDict.Forall_popitem_first|exact Hall].
      + unfold MAX_PROJECTION_CACHE_SIZE in *.
        destruct (100 <=? length projection_cache)%nat eqn:E.
        * apply Nat.leb_le in E.
          pose proof (CacheTiers.length_set_le key_eqb key
                        (seeded_matrix (length embedding) k)
                        (PyDict.popitem_first projection_cache)) as H.
          unfold PyDict.popitem_first in *.
          destruct projection_cache; simpl in *; lia.
        * apply Nat.leb_gt in E.
          pose proof (CacheTiers.length_set_le key_eqb key
                        (seeded_matrix (length embedding) k) projection_cache) as H.
          lia. }
  assert (Hhit : PyDict.get key_eqb key cache
                 = Some (seeded_matrix (length embedding) k)).
  { destruct (PyDict.get key_eqb key cache) as [m|] eqn:Hget.
    - destruct Hcache as [Hall' _].
      pose proof (PyDict.get_binding key_eqb key_eqb_spec key m cache _ Hall' Hget) as H.
      cbn [fst snd key] in H. now rewrite H.
    - exfalso. subst cache.
      destruct (PyDict.get key_eqb key projection_cache) as [m|] eqn:Hold.
      + unfold PyDict.move_to_end in Hget. rewrite Hold in Hget.
        now apply (PyDict.get_app_last key_eqb key_eqb_spec) in Hget.
      + rewrite (PyDict.get_set_same key_eqb key_eqb_spec) in Hget. discriminate. }
  rewrite Hhit. cbn [fst snd]. split; [reflexivity|exact Hcache].
Qed.

(** X23. The projection cache does not show: from an empty cache, every
    call of [_random_projection_expand] returns what it would return
    without a cache, the product of the vector with the seeded matrix of
    its shape, and the cache never holds more than 100 matrices. *)
Theorem projection_cache_is_transparent calls :
  fst (project_all [] calls) = map uncached calls
  /\ (length (snd (project_all [] calls)) <= MAX_PROJECTION_CACHE_SIZE)%nat.
Proof.
  assert (Hgen : forall cs cache,
             coherent cache ->
             fst (project_all cache cs) = map uncached cs
             /\ coherent (snd (project_all cache cs))).
  { induction cs as [|[embedding k] cs IH]; intros cache Hc; [split; [reflexivity|exact Hc]|].
    cbn [project_all map].
    destruct (projection_step cache embedding k Hc) as [Hv Hc1].
    destruct (_random_projection_expand cache embedding k) as [v cache1].
    cbn [fst snd] in Hv, Hc1.
    destruct (IH cache1 Hc1) as [Hvs Hc2].
    destruct (project_all cache1 cs) as [vs cache2]. cbn [fst snd] in *.
    split; [now rewrite Hv, Hvs|exact Hc2]. }
  destruct (Hgen calls []) as [Hv [_ Hlen]].
  - split; [constructor|unfold MAX_PROJECTION_CACHE_SIZE; simpl; lia].
  - split; assumption.
Qed.

End Projection.
End ProjectionCache.

(** ** frankenstein-embeddings.py: [EmbeddingServer._safe_sendall] *)

Module Wire.

(** What [conn.send(chunk, socket.MSG_NOSIGNAL)] does with the bytes it is
    offered: the socket takes the first [n] of them and returns [n], or
    the call raises [BrokenPipeError], [ConnectionResetError] or another
    [OSError]. *)
Inductive SendOutcome :=
| Takes (n : nat)
| Breaks.

(** The state of the loop: what the peer has been sent so far, and the
    number of calls of [send] made. *)
Record Sent := {
  wire : list Byte.byte;
  sends : nat
}.

(** [while total_sent < len(data)]; [send k] is the outcome of call
    number [k], and [rounds] bounds the rounds still to run. *)
Fixpoint send_loop (rounds : nat) (send : nat -> SendOutcome) (data : list Byte.byte)
    (total_sent : nat) (st : Sent) : bool * Sent :=
  if (length data <=? total_sent)%nat then (true, st)
  else
    match rounds with
    | O => (false, st)
    | S rounds' =>
        match send (sends st) with
        | Breaks => (false, {| wire := wire st; sends := S (sends st) |})
        | Takes O => (false, {| wire := wire st; sends := S (sends st) |})
        | Takes n =>
            send_loop rounds' send data (total_sent + n)
              {| wire := wire st ++ firstn n (skipn total_sent data);
                 sends := S (sends st) |}
        end
    end.

(** [_safe_sendall(conn, data)]: each round sends at least one byte, so
    [len(data)] rounds are enough. *)
Definition _safe_sendall (send : nat -> SendOutcome) (data : list Byte.byte)
  : bool * Sent :=
  send_loop (length data) send data 0 {| wire := []; sends := 0 |}.

Lemma firstn_more (data : list Byte.byte) : forall t n,
  firstn t data ++ firstn n (skipn t data) = firstn (t + n) data.
Proof.
  induction data as [|x data IH]; intros [|t] n; simpl;
    try reflexivity; try (now destruct n).
  now rewrite IH.
Qed.

Lemma send_loop_spec send data : forall rounds total_sent st,
  (length data - total_sent <= rounds)%nat ->
  wire st = firstn total_sent data ->
  let result := send_loop rounds send data total_sent st in
  (exists total, wire (snd result) = firstn total data
                 /\ (fst result = true -> (length data <= total)%nat)
                 /\ (fst result = false -> (total < length data)%nat))
  /\ (sends (snd result) <= sends st + (length data - total_sent))%nat
  /\ (fst result = false ->
      exists k, (sends st <= k < sends (snd result))%nat
                /\ (send k = Breaks \/ send k = Takes 0)).
Proof.
  induction rounds as [|rounds IH]; intros total_sent st Hrounds Hwire; cbn zeta;
    cbn [send_loop].
  - destruct (length data <=? total_sent)%nat eqn:Hdone.
    + apply Nat.leb_le in Hdone. cbn [fst snd]. split; [|split].
      * exists total_sent. repeat split; auto. discriminate.
      * lia.
      * discriminate.
    + apply Nat.leb_gt in Hdone. lia.
  - destruct (length data <=? total_sent)%nat eqn:Hdone.
    + apply Nat.leb_le in Hdone. cbn [fst snd]. split; [|split].
      * exists total_sent. repeat split; auto. discriminate.
      * lia.
      * discriminate.
    + apply Nat.leb_gt in Hdone.
      destruct (send (sends st)) as [[|n]|] eqn:Hsend.
      * cbn [fst snd wire sends]. split; [|split].
        -- exists total_sent. repeat split; auto. discriminate.
        -- lia.
        -- intros _. exists (sends st). split; [lia|now right].
      * match goal with |- context [send_loop rounds send data ?t ?st1] =>
          destruct (IH t st1) as ((total & Hw & Htrue & Hfalse) & Hcount & Hwhy) end.
        { lia. }
        { cbn [wire]. rewrite Hwire. apply firstn_more. }
        cbn [sends] in Hcount, Hwhy. split; [|split].
        -- exists total. auto.
        -- lia.
        -- intros Hf. destruct (Hwhy Hf) as (k & Hk & Hout).
           exists k. split; [lia|exact Hout].
      * cbn [fst snd wire sends]. split; [|split].
        -- exists total_sent. repeat split; auto. discriminate.
        -- lia.
        -- intros _. exists (sends st). split; [lia|now left].
Qed.

(** X24. [_safe_sendall] hands the bytes of [data] to the socket in
    order, each once, whatever part of a chunk the socket takes: what the
    peer has been sent is always a prefix of [data], and it is all of
    [data] exactly when the function returns [True].  It returns [False]
    only after a call of [send] that raised or took nothing, and never
    calls [send] more than [len(data)] times. *)
Theorem safe_sendall_sends_each_byte_once send data :
  let result := _safe_sendall send data in
  (exists rest, data = wire (snd result) ++ rest)
  /\ (fst result = true <-> wire (snd result) = data)
  /\ (sends (snd result) <= length data)%nat
  /\ (fst result = false ->
      exists k, (k < sends (snd result))%nat
                /\ (send k = Breaks \/ send k = Takes 0)).
Proof.
  intros result. subst result. unfold _safe_sendall.
  destruct (send_loop_spec send data (length data) 0 {| wire := []; sends := 0 |})
    as ((total & Hw & Htrue & Hfalse) & Hcount & Hwhy).
  { lia. }
  { reflexivity. }
  cbn [sends] in Hcount, Hwhy.
  set (result := send_loop _ _ _ _ _) in *.
  split; [|split; [|split]].
  - exists (skipn total data). rewrite Hw. symmetry. apply firstn_skipn.
  - split.
    + intros Hok. rewrite Hw. apply firstn_all2. now apply Htrue.
    + intros Hall. destruct (fst result) eqn:Hres; [reflexivity|].
      specialize (Hfalse eq_refl).
      assert (Hlen : length (wire (snd result)) = total).
      { rewrite Hw. apply firstn_length_le. lia. }
      rewrite Hall in Hlen. lia.
  - lia.
  - intros Hf. destruct (Hwhy Hf) as (k & Hk & Hout). exists k. split; [lia|exact Hout].
Qed.

End Wire.
